(** * MapReduce: a shallow embedding of the computational-graph engine

    The development follows the Python sources:
    - [operations/map.py]            mappers and the [Map] operation,
    - [operations/reduce.py]         reducers and the [Reduce] operation,
    - [operations/join.py]           joiners and the sort-merge [Join],
    - [operations/external_sort.py]  the sort helper and [ExternalSort],
    - [graph.py]                     the plan nodes and [run].

    A generator is represented by what draining it gives: either the list of
    the rows it yields, or the fact that an exception ended it.  Rows are
    Python dicts, which keep insertion order, so they are association lists
    with the update-in-place / append-at-end discipline of a dict. *)

From Stdlib Require Import ZArith String Ascii List Permutation Sorted Lia Bool.
From Stdlib Require Import OrderedTypeEx.
From stdpp Require Import base decidable option numbers list sorting strings.
Import ListNotations.

Local Open Scope string_scope.
Local Open Scope list_scope.

(** ** Python values and exceptions *)

(** The values a column holds.  The sources put strings, integers and [None]
    in rows on the paths studied here; floats, timestamps and nested rows are
    left out of the model. *)
Inductive value : Type :=
| VNone
| VInt (n : Z)
| VStr (s : string).

#[global] Instance value_eq_dec : EqDecision value.
Proof. solve_decision. Defined.

(** Exceptions.  [RowError] stands for a [KeyError] or [TypeError] raised by
    row data (a missing column, a comparison or an addition the operand types
    do not support) while a stream is drained. *)
Inductive error : Type :=
| RowError
| AssertionError
| NoGenerator        (* Exception("No generator in graph") *)
| BadCall            (* the operation object cannot be called that way *)
| RecursionError
| SourceError        (* the input named by a source is not among the kwargs *)
| HelperFailure.     (* the sort helper process raised; no sorted stream comes back *)

Inductive result (A : Type) : Type :=
| Ok (a : A)
| Err (e : error).
Arguments Ok {A} a.
Arguments Err {A} e.

Definition bind {A B : Type} (m : result A) (f : A -> result B) : result B :=
  match m with
  | Ok a => f a
  | Err e => Err e
  end.

Notation "'let!' x ':=' m 'in' k" := (bind m (fun x => k))
  (at level 10, x name, m at level 100, k at level 200).

(** [for x in l: acc = f(acc, x)], stopping at the first exception. *)
Fixpoint try_fold {A B : Type} (f : B -> A -> result B) (acc : B) (l : list A) : result B :=
  match l with
  | [] => Ok acc
  | x :: l' => let! acc' := f acc x in try_fold f acc' l'
  end.

(** [[f(x) for x in l]], stopping at the first exception. *)
Fixpoint try_map {A B : Type} (f : A -> result B) (l : list A) : result (list B) :=
  match l with
  | [] => Ok []
  | x :: l' => let! y := f x in let! ys := try_map f l' in Ok (y :: ys)
  end.

(** Two generators drained one after the other. *)
Definition app_res {A : Type} (m1 m2 : result (list A)) : result (list A) :=
  let! xs := m1 in let! ys := m2 in Ok (xs ++ ys).

(** [a == b]: values of different types are unequal, never an error. *)
Definition py_eq (a b : value) : bool := bool_decide (a = b).

(** [a < b]: defined between two integers and between two strings (code point
    order); [TypeError] otherwise, [None < None] included. *)
Definition py_lt (a b : value) : result bool :=
  match a, b with
  | VInt x, VInt y => Ok (x <? y)%Z
  | VStr s, VStr t => Ok (String.ltb s t)
  | _, _ => Err RowError
  end.

(** [a > b]. *)
Definition py_gt (a b : value) : result bool :=
  match a, b with
  | VInt x, VInt y => Ok (x >? y)%Z
  | VStr s, VStr t => Ok (String.ltb t s)
  | _, _ => Err RowError
  end.

(** [a + b] on the operands met here. *)
Definition py_add (a b : value) : result value :=
  match a, b with
  | VInt x, VInt y => Ok (VInt (x + y))
  | VStr s, VStr t => Ok (VStr (String.append s t))
  | _, _ => Err RowError
  end.

(** Tuple comparison: the first position where the items differ under [==]
    decides, by the item comparison; with no such position the lengths do. *)
Fixpoint tuple_lt (a b : list value) : result bool :=
  match a, b with
  | [], [] => Ok false
  | [], _ :: _ => Ok true
  | _ :: _, [] => Ok false
  | x :: a', y :: b' => if py_eq x y then tuple_lt a' b' else py_lt x y
  end.

Fixpoint tuple_gt (a b : list value) : result bool :=
  match a, b with
  | [], [] => Ok false
  | [], _ :: _ => Ok false
  | _ :: _, [] => Ok true
  | x :: a', y :: b' => if py_eq x y then tuple_gt a' b' else py_gt x y
  end.

(** ** Rows: insertion-ordered dicts *)

Definition row : Type := list (string * value).

(** [d.get(k)] *)
Fixpoint dict_get (d : row) (k : string) : option value :=
  match d with
  | [] => None
  | (k', v) :: d' => if decide (k' = k) then Some v else dict_get d' k
  end.

(** [k in d] *)
Definition dict_contains (d : row) (k : string) : bool :=
  match dict_get d k with
  | Some _ => true
  | None => false
  end.

(** [d[k]], a [KeyError] when the column is missing. *)
Definition dict_getitem (d : row) (k : string) : result value :=
  match dict_get d k with
  | Some v => Ok v
  | None => Err RowError
  end.

(** [d[k] = v]: an existing column keeps its position, a new one goes last. *)
Fixpoint dict_set (d : row) (k : string) (v : value) : row :=
  match d with
  | [] => [(k, v)]
  | (k', v') :: d' =>
      if decide (k' = k) then (k', v) :: d' else (k', v') :: dict_set d' k v
  end.

(** [d.update(other)] *)
Definition dict_update (d other : row) : row :=
  fold_left (fun acc kv => dict_set acc (fst kv) (snd kv)) other d.

(** [list(d)]: the columns in insertion order. *)
Definition columns (d : row) : list string := map fst d.

(** A list of pairs is a dict when no column occurs twice. *)
Definition is_dict (d : row) : Prop := NoDup (columns d).

(** [tuple(row[key] for key in keys)] *)
Definition tuple_key (keys : list string) (r : row) : result (list value) :=
  try_map (dict_getitem r) keys.

(** [{key: f(key) for key in keys}] *)
Definition dict_comprehension (keys : list string) (f : string -> result value) : result row :=
  try_fold (fun acc key => let! v := f key in Ok (dict_set acc key v)) [] keys.

(** [itertools.groupby] over rows paired with their key: the maximal runs of
    consecutive rows with equal keys, each with its key. *)
Fixpoint groupby {K : Type} `{EqDecision K} (l : list (K * row)) : list (K * list row) :=
  match l with
  | [] => []
  | (k, r) :: l' =>
      match groupby l' with
      | (k', g) :: gs =>
          if decide (k = k') then (k, r :: g) :: gs else (k, [r]) :: (k', g) :: gs
      | [] => [(k, [r])]
      end
  end.

(** The rows of a stream paired with the key the [groupby] key function
    computes for them. *)
Definition keyed (keys : list string) (rows : list row) : result (list (list value * row)) :=
  try_map (fun r => let! k := tuple_key keys r in Ok (k, r)) rows.

(** ** operations/map.py *)

(** [\w] of a [str] pattern: the alphanumeric characters and the underscore.
    Strings are sequences of code points below 256; the table is the Unicode
    one on that range (ASCII letters and digits, the Latin-1 letters, the
    superscript digits and the vulgar fractions). *)
Definition is_word_char (c : ascii) : bool :=
  let n := N_of_ascii c in
  ((48 <=? n) && (n <=? 57) || (65 <=? n) && (n <=? 90) || (n =? 95)
   || (97 <=? n) && (n <=? 122)
   || (n =? 170) || (n =? 178) || (n =? 179) || (n =? 181) || (n =? 185)
   || (n =? 186) || (188 <=? n) && (n <=? 190)
   || (192 <=? n) && (n <=? 214) || (216 <=? n) && (n <=? 246)
   || (248 <=? n) && (n <=? 255))%N.

(** [re.compile(r'\W+').split(s)]: [word] is the token being read and
    [in_sep] tells that the previous character belonged to a separator run.
    A separator at either end of the text leaves an empty token there. *)
Fixpoint re_split_nonword (s : string) (word : string) (in_sep : bool) : list string :=
  match s with
  | EmptyString => [word]
  | String c s' =>
      if is_word_char c then re_split_nonword s' (String.append word (String c EmptyString)) false
      else if in_sep then re_split_nonword s' word true
      else word :: re_split_nonword s' EmptyString true
  end.

Inductive Mapper : Type :=
| DummyMapper
| Split (column : string) (separator : option string)
| Filter (condition : row -> bool)
| Project (columns : list string).

(** [DummyMapper.__call__] *)
Definition DummyMapper_call (r : row) : result (list row) := Ok [r].

(** [Split.__call__]: [self.separator] is stored by [__init__] and never read. *)
Definition Split_call (column : string) (separator : option string) (r : row)
  : result (list row) :=
  let! v := dict_getitem r column in
  match v with
  | VStr text =>
      let words := re_split_nonword text EmptyString false in
      Ok (map (fun word => dict_set r column (VStr word)) words)
  | _ => Err RowError
  end.

(** [Filter.__call__] *)
Definition Filter_call (condition : row -> bool) (r : row) : result (list row) :=
  if condition r then Ok [r] else Ok [].

(** [Project.__call__]: the dict comprehension over [self.columns]. *)
Definition Project_row (cols : list string) (r : row) : row :=
  fold_left
    (fun acc column =>
       dict_set acc column (if dict_contains r column
                            then match dict_get r column with Some v => v | None => VNone end
                            else VNone))
    cols [].

Definition Project_call (cols : list string) (r : row) : result (list row) :=
  Ok [Project_row cols r].

Definition Mapper_call (m : Mapper) (r : row) : result (list row) :=
  match m with
  | DummyMapper => DummyMapper_call r
  | Split column separator => Split_call column separator r
  | Filter condition => Filter_call condition r
  | Project cols => Project_call cols r
  end.

(** [Map.__call__]: [for row in rows: yield from self.mapper(row)] *)
Fixpoint Map_call (m : Mapper) (rows : list row) : result (list row) :=
  match rows with
  | [] => Ok []
  | r :: rows' => app_res (Mapper_call m r) (Map_call m rows')
  end.

(** ** operations/reduce.py *)

Inductive Reducer : Type :=
| FirstReducer
| Count (column : string)
| Sum (column : string).

(** [FirstReducer.__call__] *)
Definition FirstReducer_call (group_key : list string) (rows : list row) : result (list row) :=
  match rows with
  | [] => Ok []
  | r :: _ => Ok [r]
  end.

(** The guard shared by [Count] and [Sum]:
    [if group_key and group_key[0] not in new_row: new_row.update({...})]. *)
Definition copy_group_key (group_key : list string) (new_row r : row) : result row :=
  match group_key with
  | k0 :: _ =>
      if negb (dict_contains new_row k0)
      then let! upd := dict_comprehension group_key (dict_getitem r) in
           Ok (dict_update new_row upd)
      else Ok new_row
  | [] => Ok new_row
  end.

(** One turn of the loop of [Count.__call__]. *)
Definition Count_step (column : string) (group_key : list string) (new_row r : row)
  : result row :=
  let! new_row := copy_group_key group_key new_row r in
  let! old := dict_getitem new_row column in
  let! new := py_add old (VInt 1) in
  Ok (dict_set new_row column new).

(** [Count.__call__] *)
Definition Count_call (column : string) (group_key : list string) (rows : list row)
  : result (list row) :=
  let new_row := dict_set [] column (VInt 0) in
  let! new_row := try_fold (Count_step column group_key) new_row rows in
  Ok [new_row].

(** One turn of the loop of [Sum.__call__]. *)
Definition Sum_step (column : string) (group_key : list string) (new_row r : row)
  : result row :=
  let! new_row := copy_group_key group_key new_row r in
  let! old := dict_getitem new_row column in
  let! term := dict_getitem r column in
  let! new := py_add old term in
  Ok (dict_set new_row column new).

(** [Sum.__call__] *)
Definition Sum_call (column : string) (group_key : list string) (rows : list row)
  : result (list row) :=
  let new_row := dict_set [] column (VInt 0) in
  let! new_row := try_fold (Sum_step column group_key) new_row rows in
  Ok [new_row].

Definition Reducer_call (rd : Reducer) (group_key : list string) (rows : list row)
  : result (list row) :=
  match rd with
  | FirstReducer => FirstReducer_call group_key rows
  | Count column => Count_call column group_key rows
  | Sum column => Sum_call column group_key rows
  end.

(** [yield from self.reducer(tuple(self.keys), grouper)] for every group. *)
Fixpoint reduce_groups (rd : Reducer) (keys : list string) (groups : list (list value * list row))
  : result (list row) :=
  match groups with
  | [] => Ok []
  | (_, grouper) :: groups' =>
      app_res (Reducer_call rd keys grouper) (reduce_groups rd keys groups')
  end.

(** [Reduce.__call__] *)
Definition Reduce_call (rd : Reducer) (keys : list string) (rows : list row)
  : result (list row) :=
  let! krows := keyed keys rows in
  reduce_groups rd keys (groupby krows).

(** ** operations/join.py *)

Inductive strategy : Type := InnerJoiner | OuterJoiner | LeftJoiner | RightJoiner.

(** A joiner object: its class and the two suffixes [Joiner.__init__] stores. *)
Record Joiner : Type := mkJoiner {
  joiner_class : strategy;
  _a_suffix : string;
  _b_suffix : string
}.

(** [InnerJoiner()], [OuterJoiner()], ... with the default suffixes. *)
Definition default_joiner (c : strategy) : Joiner := mkJoiner c "_1" "_2".

(** Membership in [set(row_a) & set(row_b) - set(keys)]; the difference binds
    tighter than the intersection. *)
Definition in_intersected_keys (keys : list string) (row_a row_b : row) (key : string) : bool :=
  dict_contains row_a key && (dict_contains row_b key && negb (bool_decide (key ∈ keys))).

(** One of the two loops of [_join_two_rows]: the columns of [r] are written
    into [joined_row], the intersected ones under the suffixed name. *)
Definition append_keys (keys : list string) (row_a row_b : row) (suffix : string)
  (r : row) (joined_row : row) : row :=
  fold_left
    (fun joined kv =>
       if in_intersected_keys keys row_a row_b (fst kv)
       then dict_set joined (String.append (fst kv) suffix) (snd kv)
       else dict_set joined (fst kv) (snd kv))
    r joined_row.

(** [Joiner._join_two_rows]: a generator of exactly one row. *)
Definition _join_two_rows (j : Joiner) (keys : list string) (row_a row_b : row) : list row :=
  let joined_row := append_keys keys row_a row_b (_a_suffix j) row_a [] in
  let joined_row := append_keys keys row_a row_b (_b_suffix j) row_b joined_row in
  [joined_row].

(** [list(rows) or [{}]] *)
Definition or_empty_row (rows : list row) : list row :=
  match rows with
  | [] => [[]]
  | _ => rows
  end.

(** The [__call__] of the four joiners.  [Join] hands them iterators (a
    [groupby] group, or [iter({})] for the missing side), and an iterator is
    truthy, so the test [if rows_a and rows_b] of [InnerJoiner] always passes. *)
Definition Joiner_call (j : Joiner) (keys : list string) (rows_a rows_b : list row)
  : list row :=
  match joiner_class j with
  | InnerJoiner =>
      let content_of_rows_a := rows_a in
      let content_of_rows_b := rows_b in
      flat_map (fun row_a =>
        flat_map (fun row_b => _join_two_rows j keys row_a row_b) content_of_rows_b)
        content_of_rows_a
  | OuterJoiner =>
      let content_of_rows_a := or_empty_row rows_a in
      let content_of_rows_b := or_empty_row rows_b in
      flat_map (fun row_a =>
        flat_map (fun row_b => _join_two_rows j keys row_a row_b) content_of_rows_b)
        content_of_rows_a
  | LeftJoiner =>
      let content_of_rows_a := rows_a in
      let content_of_rows_b := or_empty_row rows_b in
      flat_map (fun row_a =>
        flat_map (fun row_b => _join_two_rows j keys row_a row_b) content_of_rows_b)
        content_of_rows_a
  | RightJoiner =>
      let content_of_rows_a := or_empty_row rows_a in
      let content_of_rows_b := rows_b in
      flat_map (fun row_a =>
        flat_map (fun row_b => _join_two_rows j keys row_a row_b) content_of_rows_a)
        content_of_rows_b
  end.

(** The loop after the merge that drains the first table. *)
Fixpoint drain_first (j : Joiner) (keys : list string) (groups : list (list value * list row))
  : list row :=
  match groups with
  | [] => []
  | (_, rows_iter) :: groups' => Joiner_call j keys rows_iter [] ++ drain_first j keys groups'
  end.

(** The loop after the merge that drains the second table. *)
Fixpoint drain_second (j : Joiner) (keys : list string) (groups : list (list value * list row))
  : list row :=
  match groups with
  | [] => []
  | (_, rows_iter) :: groups' => Joiner_call j keys [] rows_iter ++ drain_second j keys groups'
  end.

(** The three loops of [Join.__call__] over the two grouped tables. *)
Fixpoint merge_groups (j : Joiner) (keys : list string)
  (first second : list (list value * list row)) {struct first} : result (list row) :=
  match first with
  | [] => Ok (drain_second j keys second)
  | (key_first, rows_first) :: first' =>
      (fix walk (second : list (list value * list row)) : result (list row) :=
         match second with
         | [] => Ok (drain_first j keys first)
         | (key_second, rows_second) :: second' =>
             let! lt := tuple_lt key_first key_second in
             if lt then
               let! rest := merge_groups j keys first' second in
               Ok (Joiner_call j keys rows_first [] ++ rest)
             else
               let! gt := tuple_gt key_first key_second in
               if gt then
                 let! rest := walk second' in
                 Ok (Joiner_call j keys [] rows_second ++ rest)
               else
                 let! rest := merge_groups j keys first' second' in
                 Ok (Joiner_call j keys rows_first rows_second ++ rest)
         end) second
  end.

(** [Join.__call__] with its second stream [args[0]]. *)
Definition Join_call (j : Joiner) (keys : list string) (rows rows_second : list row)
  : result (list row) :=
  let! first := keyed keys rows in
  let! second := keyed keys rows_second in
  merge_groups j keys (groupby first) (groupby second).

(** ** operations/external_sort.py *)

(** What the [itemgetter] built from the keys returns for a row: the item itself for one key, a
    tuple for several. *)
Inductive sort_key : Type :=
| KItem (v : value)
| KTuple (vs : list value).

#[global] Instance sort_key_eq_dec : EqDecision sort_key.
Proof. solve_decision. Defined.

(** [itemgetter] applied to the unpacked keys; with no key at all the
    constructor itself raises. *)
Definition itemgetter (keys : list string) : result (row -> result sort_key) :=
  match keys with
  | [] => Err RowError
  | [k] => Ok (fun r => let! v := dict_getitem r k in Ok (KItem v))
  | _ => Ok (fun r => let! vs := tuple_key keys r in Ok (KTuple vs))
  end.

Definition sort_key_lt (a b : sort_key) : result bool :=
  match a, b with
  | KItem x, KItem y => py_lt x y
  | KTuple x, KTuple y => tuple_lt x y
  | _, _ => Err RowError
  end.

(** [list.sort] is a stable sort that decides with [<] alone; it is
    represented by an insertion sort with that property.  An element goes
    after the elements that are smaller and before the first that is not. *)
Fixpoint insert_sorted {K A : Type} (lt : K -> K -> result bool) (x : K * A)
  (l : list (K * A)) : result (list (K * A)) :=
  match l with
  | [] => Ok [x]
  | y :: l' =>
      let! smaller := lt (fst y) (fst x) in
      if smaller then let! l'' := insert_sorted lt x l' in Ok (y :: l'')
      else Ok (x :: y :: l')
  end.

Fixpoint stable_sort {K A : Type} (lt : K -> K -> result bool) (l : list (K * A))
  : result (list (K * A)) :=
  match l with
  | [] => Ok []
  | x :: l' => let! sorted := stable_sort lt l' in insert_sorted lt x sorted
  end.

(** [rows.sort(key=key, reverse=reverse)]: the keys are computed once, and
    with [reverse] the list is reversed before and after the sort, which
    keeps equal elements in their original order. *)
Definition list_sort (key : row -> result sort_key) (reverse : bool) (rows : list row)
  : result (list row) :=
  let! decorated := try_map (fun r => let! k := key r in Ok (k, r)) rows in
  let decorated := if reverse then rev decorated else decorated in
  let! sorted := stable_sort sort_key_lt decorated in
  let sorted := if reverse then rev sorted else sorted in
  Ok (map snd sorted).

(** What travels through the pipe: a row, or [None] as the end marker. *)
Definition message : Type := option row.

(** [while True: row = endpoint.recv(); if row is None: break; ...]: the rows
    up to the first [None].  On a channel without end marker [recv] blocks. *)
Fixpoint recv_rows (channel : list message) : result (list row) :=
  match channel with
  | [] => Err HelperFailure
  | None :: _ => Ok []
  | Some r :: channel' => let! rows := recv_rows channel' in Ok (r :: rows)
  end.

(** [do_sort]: from the messages it receives to the messages it sends. *)
Definition do_sort (endpoint : list message) (keys : list string) (reverse : bool)
  : result (list message) :=
  let! rows := recv_rows endpoint in
  let! key := itemgetter keys in
  let! rows := list_sort key reverse rows in
  Ok (map Some rows ++ [None]).

(** [ExternalSort.__call__].  When the helper raises, the end marker is never
    sent and the driver gets no sorted stream. *)
Definition ExternalSort_call (keys : list string) (reverse : bool) (rows : list row)
  : result (list row) :=
  let sent := map Some rows ++ [None] in
  let row_count_before := length rows in
  match do_sort sent keys reverse with
  | Err _ => Err HelperFailure
  | Ok answer =>
      let! received := recv_rows answer in
      let row_count_after := length received in
      if Nat.eqb row_count_before row_count_after then Ok received
      else Err AssertionError
  end.

(** ** graph.py *)

Inductive Operation : Type :=
| ReadIterFactory (name : string)
| Read (filename : string) (parser : string -> row)
| Map (mapper : Mapper)
| Reduce (reducer : Reducer) (keys : list string)
| Join (joiner : Joiner) (keys : list string)
| ExternalSort (keys : list string) (reverse : bool).

(** What a call of [run] has to work with: the keyword arguments, each a
    finite sequence of rows, and the files a [Read] source can open. *)
Record inputs : Type := mkInputs {
  kwargs : list (string * list row);
  files : list (string * list string)
}.

Fixpoint assoc {A : Type} (l : list (string * A)) (k : string) : option A :=
  match l with
  | [] => None
  | (k', a) :: l' => if decide (k' = k) then Some a else assoc l' k
  end.

(** Modelled from the spec: [ReadIterFactory.__call__], whose module
    operations/read.py is not among the sources.  An iter-source pulls the
    iterable named [name] from the keyword arguments. *)
Definition ReadIterFactory_call (name : string) (i : inputs) : result (list row) :=
  match assoc (kwargs i) name with
  | Some rows => Ok rows
  | None => Err SourceError
  end.

(** Modelled from the spec: [Read.__call__], whose module operations/read.py
    is not among the sources.  A file-source reads the file line by line and
    applies the parser to each line. *)
Definition Read_call (filename : string) (parser : string -> row) (i : inputs)
  : result (list row) :=
  match assoc (files i) filename with
  | Some lines => Ok (List.map parser lines)
  | None => Err SourceError
  end.

(** What a call of [run] comes to: it raises before returning, or it returns
    a generator, given by what draining it produces. *)
Inductive outcome : Type :=
| Raised (e : error)
| Stream (s : result (list row)).

(** [self._operation( **kwargs)] on a node without inputs. *)
Definition call_source (op : option Operation) (i : inputs) : outcome :=
  match op with
  | Some (ReadIterFactory name) => Stream (ReadIterFactory_call name i)
  | Some (Read filename parser) => Stream (Read_call filename parser i)
  | _ => Raised BadCall
  end.

(** [self._operation(stream)]: the operation gets one stream.  A [Join]
    fails its assertion on [args] when it is drained. *)
Definition call_unary (op : Operation) (stream : result (list row)) : outcome :=
  match op with
  | Map mapper => Stream (let! rows := stream in Map_call mapper rows)
  | Reduce reducer keys => Stream (let! rows := stream in Reduce_call reducer keys rows)
  | ExternalSort keys reverse => Stream (let! rows := stream in ExternalSort_call keys reverse rows)
  | Join _ _ => Stream (Err AssertionError)
  | ReadIterFactory _ | Read _ _ => Raised BadCall
  end.

(** [self._operation(stream, second)]: only [Join] reads its second stream. *)
Definition call_binary (op : Operation) (stream second : result (list row)) : outcome :=
  match op with
  | Join joiner keys =>
      Stream (let! rows := stream in let! rows_second := second in
              Join_call joiner keys rows rows_second)
  | _ => call_unary op stream
  end.

Module Graph.

(** A reference to a node object. *)
Definition ref : Type := nat.

(** The two attributes of a [Graph] object. *)
Record t : Type := mk {
  _input : list ref;
  _operation : option Operation
}.

(** The objects allocated so far; a reference is a position in it. *)
Abbreviation heap := (list t).

(** [self._operation = op] *)
Definition set_operation (self : ref) (op : option Operation) (h : heap) : heap :=
  alter (fun g => mk (_input g) op) self h.

(** [self._input = inputs] *)
Definition set_input (self : ref) (inputs : list ref) (h : heap) : heap :=
  alter (fun g => mk inputs (_operation g)) self h.

(** [Graph()]: a fresh object whose only input is itself and which has no
    operation. *)
Definition init (h : heap) : heap * ref :=
  let self := length h in
  (h ++ [mk [self] None], self).

Definition graph_from_iter (name : string) (h : heap) : heap * ref :=
  let '(h, graph) := init h in
  let h := set_operation graph (Some (ReadIterFactory name)) h in
  let h := set_input graph [] h in
  (h, graph).

Definition graph_from_file (filename : string) (parser : string -> row) (h : heap)
  : heap * ref :=
  let '(h, graph) := init h in
  let h := set_operation graph (Some (Read filename parser)) h in
  let h := set_input graph [] h in
  (h, graph).

Definition map (self : ref) (mapper : Mapper) (h : heap) : heap * ref :=
  let '(h, graph) := init h in
  let h := set_operation graph (Some (Map mapper)) h in
  let h := set_input graph [self] h in
  (h, graph).

Definition reduce (self : ref) (reducer : Reducer) (keys : list string) (h : heap)
  : heap * ref :=
  let '(h, graph) := init h in
  let h := set_operation graph (Some (Reduce reducer keys)) h in
  let h := set_input graph [self] h in
  (h, graph).

Definition sort (self : ref) (keys : list string) (reverse : bool) (h : heap)
  : heap * ref :=
  let '(h, graph) := init h in
  let h := set_operation graph (Some (ExternalSort keys reverse)) h in
  let h := set_input graph [self] h in
  (h, graph).

Definition join (self : ref) (joiner : Joiner) (join_graph : ref) (keys : list string)
  (h : heap) : heap * ref :=
  let '(h, graph) := init h in
  let h := set_operation graph (Some (Join joiner keys)) h in
  let h := set_input graph [self; join_graph] h in
  (h, graph).

(** [run] is an ordinary function: its body runs at the call, and what it
    returns is the generator of the node's operation.  The trace lists the
    nodes on which [run] was entered, in order.  [depth] is the number of
    nested calls the interpreter still allows. *)
Fixpoint run (depth : nat) (h : heap) (i : inputs) (self : ref) : list ref * outcome :=
  match depth with
  | 0 => ([], Raised RecursionError)
  | S depth' =>
      match h !! self with
      | None => ([], Raised BadCall)
      | Some g =>
          match _input g with
          | [] => ([self], call_source (_operation g) i)
          | input0 :: others =>
              match _operation g with
              | Some op =>
                  let '(trace0, out0) := run depth' h i input0 in
                  match out0 with
                  | Raised e => (self :: trace0, Raised e)
                  | Stream stream =>
                      match others with
                      | [] => (self :: trace0, call_unary op stream)
                      | input1 :: _ =>
                          let '(trace1, out1) := run depth' h i input1 in
                          match out1 with
                          | Raised e => (self :: trace0 ++ trace1, Raised e)
                          | Stream second =>
                              (self :: trace0 ++ trace1, call_binary op stream second)
                          end
                      end
                  end
              | None => ([self], Raised NoGenerator)
              end
          end
      end
  end.

End Graph.

(** ** Vocabulary of the statements *)

(** The distinct elements of a list, each at the place of its first
    occurrence: the order in which a dict built from the list holds them. *)
Definition first_occurrences (l : list string) : list string :=
  fold_left (fun seen c => if decide (c ∈ seen) then seen else seen ++ [c]) l [].

(** The value a column has in a row, [None] standing in for a missing one. *)
Definition value_or_None (r : row) (c : string) : value :=
  match dict_get r c with
  | Some v => v
  | None => VNone
  end.

(** Every character of the string satisfies [p]. *)
Fixpoint string_forall (p : ascii -> bool) (s : string) : bool :=
  match s with
  | EmptyString => true
  | String c s' => p c && string_forall p s'
  end.

(** The characters of the string that satisfy [p], in order. *)
Fixpoint string_filter (p : ascii -> bool) (s : string) : string :=
  match s with
  | EmptyString => EmptyString
  | String c s' => if p c then String c (string_filter p s') else string_filter p s'
  end.

(** What a builder method called on [self] in the heap [h] has to return: a
    heap and a reference [graph] such that [graph] is a new object whose
    inputs include [self], while [self] and every other object of [h] are as
    they were. *)
Definition returns_new_node (self : Graph.ref) (h : Graph.heap)
  (res : Graph.heap * Graph.ref) : Prop :=
  let '(h', graph) := res in
  h !! graph = None
  /\ (exists g, h' !! graph = Some g /\ self ∈ Graph._input g /\ Graph._operation g <> None)
  /\ h' !! self = h !! self
  /\ (forall r, is_Some (h !! r) -> h' !! r = h !! r).

(** Every row of the list has its key tuple, and it is below [kt]. *)
Definition keys_below (keys : list string) (kt : list value) (rows : list row) : Prop :=
  Forall (fun r => exists k, tuple_key keys r = Ok k /\ tuple_lt k kt = Ok true) rows.

(** Every row of the list has its key tuple, and it is above [kt]. *)
Definition keys_above (keys : list string) (kt : list value) (rows : list row) : Prop :=
  Forall (fun r => exists k, tuple_key keys r = Ok k /\ tuple_lt kt k = Ok true) rows.

(** Every row of the list has the key tuple [kt]. *)
Definition keys_equal (keys : list string) (kt : list value) (rows : list row) : Prop :=
  Forall (fun r => tuple_key keys r = Ok kt) rows.

(** The key a row has, for rows known to have one. *)
Definition key_of (keys : list string) (r : row) : list value :=
  match tuple_key keys r with
  | Ok k => k
  | Err _ => []
  end.

(** The group a run of rows with the key [kt] makes: none when there is no row. *)
Definition group_of (kt : list value) (rows : list row) : list (list value * list row) :=
  match rows with
  | [] => []
  | _ :: _ => [(kt, rows)]
  end.

(** The rows a joiner of class [c] owes for a key that only the left stream
    has, [g] being the rows of the left stream with that key. *)
Definition rows_for_left_only_key (c : strategy) (g : list row) : list row :=
  match c with
  | InnerJoiner | RightJoiner => []
  | OuterJoiner | LeftJoiner => g
  end.

(** The same for a key that only the right stream has. *)
Definition rows_for_right_only_key (c : strategy) (g : list row) : list row :=
  match c with
  | InnerJoiner | LeftJoiner => []
  | OuterJoiner | RightJoiner => g
  end.

(** The key [list.sort] computes for a row in the sort helper. *)
Definition sort_key_of (keys : list string) (r : row) : result sort_key :=
  let! key := itemgetter keys in key r.

(** Any two rows of the stream, the same row twice included, have sort keys
    that [<] can compare. *)
Definition mutually_comparable (keys : list string) (rows : list row) : Prop :=
  forall r1 r2, r1 ∈ rows -> r2 ∈ rows ->
  exists k1 k2 b,
    sort_key_of keys r1 = Ok k1 /\ sort_key_of keys r2 = Ok k2 /\ sort_key_lt k1 k2 = Ok b.

(** [r1] may stand before [r2] in the sorted stream: ascending, the key of
    [r2] is not smaller than that of [r1]; descending, it is not greater. *)
Definition in_order (keys : list string) (reverse : bool) (r1 r2 : row) : Prop :=
  exists k1 k2,
    sort_key_of keys r1 = Ok k1 /\ sort_key_of keys r2 = Ok k2
    /\ (if reverse then sort_key_lt k1 k2 else sort_key_lt k2 k1) = Ok false.


(** Any two elements of a list of keyed elements can be compared. *)
Definition comparable {K A : Type} (lt : K -> K -> result bool) (l : list (K * A)) : Prop :=
  forall x y, x ∈ l -> y ∈ l -> exists b, lt (fst x) (fst y) = Ok b.

(** [x] may stand before [y] in an ascending list: [y] is not smaller. *)
Definition not_after {K A : Type} (lt : K -> K -> result bool) (x y : K * A) : Prop :=
  lt (fst y) (fst x) = Ok false.

(** The elements with the key [k]. *)
Definition with_key {K A : Type} `{EqDecision K} (k : K) (l : list (K * A)) : list (K * A) :=
  List.filter (fun x => bool_decide (fst x = k)) l.

(** A row with the sort key [skey] gives it. *)
Definition decorate (skey : row -> sort_key) (r : row) : sort_key * row := (skey r, r).

(** The streams a statement goes through by cases: every binding of a
    result is a row list or an exception. *)
Ltac by_cases_on_results :=
  repeat match goal with
         | |- context [bind (Ok _) _] => cbn [bind]
         | |- context [bind (Err _) _] => cbn [bind]
         | |- context [bind ?m _] =>
             lazymatch m with
             | bind _ _ => fail
             | _ => destruct m
             end
         end;
  rewrite ?app_assoc, ?app_nil_r; try reflexivity.

(** The stream is sorted ascending on the keys: every row has its key tuple,
    and a row never has a smaller one than a row before it. *)
Definition key_sorted (keys : list string) (rows : list row) : Prop :=
  StronglySorted
    (fun r1 r2 => exists k1 k2,
       tuple_key keys r1 = Ok k1 /\ tuple_key keys r2 = Ok k2 /\ tuple_lt k2 k1 = Ok false)
    rows.






(** ** operations/map.py, the other mappers *)

(** [del d[k]]; the dict is left as it is when the column is missing, which
    the callers rule out first. *)
Fixpoint dict_del (d : row) (k : string) : row :=
  match d with
  | [] => []
  | (k', v) :: d' => if decide (k' = k) then d' else (k', v) :: dict_del d' k
  end.

(** [del d[k]], a [KeyError] when the column is missing. *)
Definition dict_delitem (d : row) (k : string) : result row :=
  if dict_contains d k then Ok (dict_del d k) else Err RowError.

(** [Map.__call__] for a mapper given by its [__call__]. *)
Fixpoint Map_with (mapper : row -> result (list row)) (rows : list row)
  : result (list row) :=
  match rows with
  | [] => Ok []
  | r :: rows' => app_res (mapper r) (Map_with mapper rows')
  end.

(** The characters [FilterPunctuation] keeps: what [[^a-zA-Z ]] does not match. *)
Definition is_letter_or_space (c : ascii) : bool :=
  let n := N_of_ascii c in
  ((65 <=? n) && (n <=? 90) || (97 <=? n) && (n <=? 122) || (n =? 32))%N.

(** [FilterPunctuation.__call__]: [re.sub] wants a string. *)
Definition FilterPunctuation_call (column : string) (r : row) : result (list row) :=
  let! v := dict_getitem r column in
  match v with
  | VStr text => Ok [dict_set r column (VStr (string_filter is_letter_or_space text))]
  | _ => Err RowError
  end.

(** [str.lower] on one character: on the code points below 256 the capital
    letters are A to Z and the Latin-1 capitals, each 32 below its small
    letter. *)
Definition lower_char (c : ascii) : ascii :=
  let n := N_of_ascii c in
  if ((65 <=? n) && (n <=? 90) || (192 <=? n) && (n <=? 214)
      || (216 <=? n) && (n <=? 222))%N
  then ascii_of_N (n + 32)
  else c.

Fixpoint string_map (f : ascii -> ascii) (s : string) : string :=
  match s with
  | EmptyString => EmptyString
  | String c s' => String (f c) (string_map f s')
  end.

(** [LowerCase.__call__]; a value without [lower] raises ([AttributeError],
    counted with the errors of row data). *)
Definition LowerCase_call (column : string) (r : row) : result (list row) :=
  let! v := dict_getitem r column in
  match v with
  | VStr text => Ok [dict_set r column (VStr (string_map lower_char text))]
  | _ => Err RowError
  end.

(** [RenameColumn.__call__]: the column is deleted from the copy, then the
    new column gets the value the row itself holds. *)
Definition RenameColumn_call (column new_column : string) (r : row) : result (list row) :=
  let! new_row := dict_delitem r column in
  let! v := dict_getitem r column in
  Ok [dict_set new_row new_column v].

(** [n * s] for a string: [s] repeated, nothing for [n <= 0]. *)
Fixpoint string_repeat (n : nat) (s : string) : string :=
  match n with
  | 0 => EmptyString
  | S n' => String.append s (string_repeat n' s)
  end.

(** [a * b] on the operands met here. *)
Definition py_mul (a b : value) : result value :=
  match a, b with
  | VInt x, VInt y => Ok (VInt (x * y))
  | VInt n, VStr s => Ok (VStr (string_repeat (Z.to_nat n) s))
  | VStr s, VInt n => Ok (VStr (string_repeat (Z.to_nat n) s))
  | _, _ => Err RowError
  end.

(** One turn of the loop of [Product.__call__]:
    [new_row[result] *= new_row[column]]. *)
Definition Product_step (result_column : string) (new_row : row) (column : string)
  : result row :=
  let! old := dict_getitem new_row result_column in
  let! factor := dict_getitem new_row column in
  let! new := py_mul old factor in
  Ok (dict_set new_row result_column new).

(** [Product.__call__] *)
Definition Product_call (columns : list string) (result_column : string) (r : row)
  : result (list row) :=
  let new_row := dict_set r result_column (VInt (match columns with [] => 0 | _ => 1 end)) in
  let! new_row := try_fold (Product_step result_column) new_row columns in
  Ok [new_row].

(** ** Vocabulary of the further statements *)

(** The integer a column holds, 0 when it holds none. *)
Definition int_of (r : row) (c : string) : Z :=
  match dict_get r c with
  | Some (VInt n) => n
  | _ => 0%Z
  end.

(** The column holds an integer. *)
Definition holds_int (r : row) (c : string) : Prop :=
  exists n, dict_get r c = Some (VInt n).

(** Some row of the stream lacks one of the keys. *)
Definition lacks_a_key (keys : list string) (rows : list row) : Prop :=
  exists r k, r ∈ rows /\ k ∈ keys /\ dict_get r k = None.

(** Every row of the stream has all the keys. *)
Definition have_keys (keys : list string) (rows : list row) : Prop :=
  Forall (fun r => exists kt, tuple_key keys r = Ok kt) rows.

(** The first row of every group: what [FirstReducer] keeps of a grouped
    stream. *)
Definition first_rows (groups : list (list value * list row)) : list row :=
  flat_map (fun kg => match snd kg with [] => [] | r :: _ => [r] end) groups.

(** The references of a heap are in order: a node that has an operation has
    its inputs among the nodes allocated before it.  (A bare [Graph()] has no
    operation and itself as input.) *)
Definition well_formed (h : Graph.heap) : Prop :=
  forall r g, h !! r = Some g -> Graph._operation g <> None ->
  Forall (fun i => i < r) (Graph._input g).

(** What [run] makes of a stream outcome of the input and a unary call. *)
Definition then_call (out : outcome) (call : result (list row) -> outcome) : outcome :=
  match out with
  | Raised e => Raised e
  | Stream s => call s
  end.

(** The characters left of a text that went through [FilterPunctuation] and
    [LowerCase]: the small letters a to z and the space. *)
Definition is_small_letter_or_space (c : ascii) : bool :=
  let n := N_of_ascii c in ((97 <=? n) && (n <=? 122) || (n =? 32))%N.

(** No two neighbours of the list are equal. *)
Fixpoint no_adjacent_dups {K : Type} (l : list K) : Prop :=
  match l with
  | x :: (y :: _) as t => x <> y /\ no_adjacent_dups t
  | _ => True
  end.


(** The key tuple of a sort key: [itemgetter] gives the bare value for one
    column and a tuple for several. *)
Definition tuple_of (k : sort_key) : list value :=
  match k with
  | KItem v => [v]
  | KTuple vs => vs
  end.

(** The text is made of word characters only: what [\w] matches. *)
Definition word_only (s : string) : Prop := string_forall is_word_char s = true.

(** A match of [\W+]: one character at least, none of them a word character. *)
Definition separator_run (s : string) : Prop :=
  s <> EmptyString /\ string_forall (fun c => negb (is_word_char c)) s = true.

(** A text written as a first token followed by pieces, each a separator
    and the token after it. *)
Fixpoint glue (token : string) (pieces : list (string * string)) : string :=
  match pieces with
  | [] => token
  | (sep, next) :: pieces' => String.append token (String.append sep (glue next pieces'))
  end.

(** The pieces are cut where the pattern [\W+] matches: every separator is
    a match, every token holds word characters only, and a token that stands
    between two separators is not empty, so that each separator is a whole run
    of non-word characters.  The token after the last separator may be empty:
    the text then ends with a separator. *)
Fixpoint well_cut (pieces : list (string * string)) : Prop :=
  match pieces with
  | [] => True
  | (sep, next) :: pieces' =>
      separator_run sep /\ word_only next
      /\ (pieces' <> [] -> next <> EmptyString) /\ well_cut pieces'
  end.

(** The value is an integer or a string. *)
Definition is_int_or_str (v : value) : bool :=
  match v with
  | VInt _ | VStr _ => true
  | VNone => false
  end.

(** Every row holds an integer or a string in every sort column. *)
Definition int_or_str_keys (keys : list string) (rows : list row) : Prop :=
  Forall (fun r =>
    Forall (fun k => exists v, dict_get r k = Some v /\ is_int_or_str v = true) keys) rows.

(** * Properties *)

(** ** The result monad *)

Lemma bind_Ok {A B : Type} (m : result A) (f : A -> result B) (b : B) :
  bind m f = Ok b -> exists a, m = Ok a /\ f a = Ok b.
Proof. destruct m as [a|e]; simpl; [eauto | discriminate]. Qed.

Lemma app_res_Ok {A : Type} (xs ys : list A) : app_res (Ok xs) (Ok ys) = Ok (xs ++ ys).
Proof. reflexivity. Qed.

Lemma try_map_app {A B : Type} (f : A -> result B) (l1 l2 : list A) :
  try_map f (l1 ++ l2) = app_res (try_map f l1) (try_map f l2).
Proof.
  induction l1 as [|x l1 IH]; simpl.
  - unfold app_res; simpl. destruct (try_map f l2); reflexivity.
  - destruct (f x) as [y|e]; simpl; [|reflexivity].
    rewrite IH. unfold app_res; simpl.
    destruct (try_map f l1); simpl; [|reflexivity].
    destruct (try_map f l2); reflexivity.
Qed.

Lemma try_map_Ok_Forall {A B : Type} (f : A -> result B) (l : list A) :
  Forall (fun x => exists y, f x = Ok y) l -> exists ys, try_map f l = Ok ys.
Proof.
  induction 1 as [|x l [y Hy] _ [ys IH]]; simpl; [eauto|].
  rewrite Hy, IH; simpl; eauto.
Qed.

Lemma try_map_pure {A B : Type} (f : A -> result B) (g : A -> B) (l : list A) :
  Forall (fun x => f x = Ok (g x)) l -> try_map f l = Ok (List.map g l).
Proof.
  induction 1 as [|x l Hx _ IH]; simpl; [reflexivity|].
  rewrite Hx, IH; reflexivity.
Qed.

Lemma try_fold_pure {A B : Type} (f : B -> A -> result B) (g : B -> A -> B) (l : list A) :
  forall acc, (forall b x, x ∈ l -> f b x = Ok (g b x)) ->
  try_fold f acc l = Ok (fold_left g l acc).
Proof.
  induction l as [|x l IH]; intros acc H; simpl; [reflexivity|].
  rewrite H by left. simpl. apply IH. intros; apply H; right; assumption.
Qed.

Lemma fold_left_ext_in {A B : Type} (f g : B -> A -> B) (l : list A) :
  forall acc, (forall b x, x ∈ l -> f b x = g b x) -> fold_left f l acc = fold_left g l acc.
Proof.
  induction l as [|x l IH]; intros acc H; simpl; [reflexivity|].
  rewrite H by left. apply IH. intros; apply H; right; assumption.
Qed.

(** ** Sorted lists and filters *)

Lemma StronglySorted_rev {A : Type} (R : A -> A -> Prop) (l : list A) :
  StronglySorted R l -> StronglySorted (fun x y => R y x) (rev l).
Proof.
  induction 1 as [|x l Hl IH Hx]; simpl; [constructor|].
  apply StronglySorted_app. split; [|split; [assumption | repeat constructor]].
  intros x1 x2 H1 H2. apply list_elem_of_singleton in H2. subst.
  rewrite Forall_forall in Hx. apply Hx.
  apply list_elem_of_In. apply in_rev. apply list_elem_of_In. assumption.
Qed.

Lemma StronglySorted_map_inv {A B : Type} (R : B -> B -> Prop) (f : A -> B) (l : list A) :
  StronglySorted R (List.map f l) -> StronglySorted (fun x y => R (f x) (f y)) l.
Proof.
  induction l as [|x l IH]; simpl; intros H; [constructor|].
  apply StronglySorted_cons in H as [Hx H]. constructor; [apply IH; assumption|].
  apply Forall_forall. intros y Hy. rewrite Forall_forall in Hx. apply Hx.
  apply list_elem_of_In. apply in_map. apply list_elem_of_In. assumption.
Qed.

Lemma StronglySorted_impl_in {A : Type} (R R' : A -> A -> Prop) (l : list A) :
  (forall x y, x ∈ l -> y ∈ l -> R x y -> R' x y) ->
  StronglySorted R l -> StronglySorted R' l.
Proof.
  intros H Hs. induction Hs as [|x l Hl IH Hx]; [constructor|].
  constructor.
  - apply IH. intros a b Ha Hb. apply H; right; assumption.
  - apply Forall_forall. intros y Hy. rewrite Forall_forall in Hx.
    apply H; [left | right; assumption | apply Hx; assumption].
Qed.


Lemma filter_map_decorated {A B : Type} (p : B -> bool) (f : A -> B) (l : list A) :
  List.filter p (List.map f l) = List.map f (List.filter (fun x => p (f x)) l).
Proof.
  induction l as [|x l IH]; simpl; [reflexivity|].
  destruct (p (f x)); simpl; rewrite IH; reflexivity.
Qed.

(** ** Dicts *)

Lemma dict_get_set_eq (d : row) (k : string) (v : value) :
  dict_get (dict_set d k v) k = Some v.
Proof.
  induction d as [|[k' v'] d IH]; simpl.
  - destruct (decide (k = k)); congruence.
  - destruct (decide (k' = k)) as [->|Hne]; simpl.
    + destruct (decide (k = k)); congruence.
    + destruct (decide (k' = k)); [contradiction | exact IH].
Qed.

Lemma dict_get_set_ne (d : row) (k k' : string) (v : value) :
  k <> k' -> dict_get (dict_set d k v) k' = dict_get d k'.
Proof.
  intros Hne. induction d as [|[k0 v0] d IH]; simpl.
  - destruct (decide (k = k')); [contradiction | reflexivity].
  - destruct (decide (k0 = k)) as [->|Hk]; simpl.
    + destruct (decide (k = k')); [contradiction | reflexivity].
    + destruct (decide (k0 = k')); [reflexivity | exact IH].
Qed.

Lemma dict_get_None (d : row) (k : string) : dict_get d k = None <-> k ∉ columns d.
Proof.
  induction d as [|[k' v'] d IH]; simpl.
  - split; [intros _; apply not_elem_of_nil | reflexivity].
  - rewrite not_elem_of_cons. destruct (decide (k' = k)) as [->|Hne].
    + split; [discriminate | intros [H _]; contradiction].
    + rewrite IH. split; [intros H; split; [congruence | exact H] | intros [_ H]; exact H].
Qed.

Lemma dict_get_Some_in (d : row) (k : string) (v : value) :
  dict_get d k = Some v -> k ∈ columns d.
Proof.
  intros H. destruct (decide (k ∈ columns d)) as [Hin|Hnin]; [exact Hin|].
  apply dict_get_None in Hnin. congruence.
Qed.

Lemma dict_contains_true (d : row) (k : string) : dict_contains d k = true <-> k ∈ columns d.
Proof.
  unfold dict_contains. destruct (dict_get d k) eqn:E.
  - split; [intros _; eapply dict_get_Some_in; eassumption | reflexivity].
  - apply dict_get_None in E. split; [discriminate | contradiction].
Qed.

Lemma dict_contains_false (d : row) (k : string) : dict_contains d k = false <-> k ∉ columns d.
Proof.
  rewrite <- dict_contains_true. destruct (dict_contains d k); split; congruence.
Qed.

Lemma dict_set_fresh (d : row) (k : string) (v : value) :
  k ∉ columns d -> dict_set d k v = d ++ [(k, v)].
Proof.
  induction d as [|[k' v'] d IH]; simpl; intros H; [reflexivity|].
  apply not_elem_of_cons in H as [Hne Hnin].
  destruct (decide (k' = k)); [congruence|]. rewrite IH by assumption. reflexivity.
Qed.

Lemma columns_dict_set_present (d : row) (k : string) (v : value) :
  k ∈ columns d -> columns (dict_set d k v) = columns d.
Proof.
  induction d as [|[k' v'] d IH]; simpl; intros H.
  - apply elem_of_nil in H. contradiction.
  - destruct (decide (k' = k)) as [->|Hne]; simpl; [reflexivity|].
    apply elem_of_cons in H as [H|H]; [congruence|]. rewrite IH by assumption. reflexivity.
Qed.

Lemma columns_dict_set (d : row) (k : string) (v : value) :
  columns (dict_set d k v) = if decide (k ∈ columns d) then columns d else columns d ++ [k].
Proof.
  destruct (decide (k ∈ columns d)) as [Hin|Hnin].
  - apply columns_dict_set_present; assumption.
  - rewrite dict_set_fresh by assumption. unfold columns. rewrite map_app. reflexivity.
Qed.

Lemma is_dict_dict_set (d : row) (k : string) (v : value) :
  is_dict d -> is_dict (dict_set d k v).
Proof.
  unfold is_dict. intros H. rewrite columns_dict_set.
  destruct (decide (k ∈ columns d)); [assumption|].
  apply NoDup_app. split; [assumption|]. split.
  - intros x Hx Hx'. apply list_elem_of_singleton in Hx'. subst. contradiction.
  - apply NoDup_singleton.
Qed.

Lemma elem_of_columns_dict_set (d : row) (k c : string) (v : value) :
  c ∈ columns (dict_set d k v) <-> c = k \/ c ∈ columns d.
Proof.
  rewrite columns_dict_set. destruct (decide (k ∈ columns d)) as [Hin|Hnin].
  - split; [tauto | intros [->|H]; assumption].
  - rewrite elem_of_app, list_elem_of_singleton. tauto.
Qed.

(** ** Dicts built key by key *)

Section DictOfKeys.
Variable f : string -> value.

Lemma fold_dict_set_columns (cols : list string) :
  forall acc,
  columns (fold_left (fun acc c => dict_set acc c (f c)) cols acc)
  = fold_left (fun seen c => if decide (c ∈ seen) then seen else seen ++ [c])
              cols (columns acc).
Proof.
  induction cols as [|c cols IH]; intros acc; simpl; [reflexivity|].
  rewrite IH, columns_dict_set. reflexivity.
Qed.

Lemma fold_dict_set_get (cols : list string) (c : string) :
  forall acc,
  dict_get (fold_left (fun acc c => dict_set acc c (f c)) cols acc) c
  = if decide (c ∈ cols) then Some (f c) else dict_get acc c.
Proof.
  induction cols as [|x cols IH]; intros acc; simpl.
  - destruct (decide (c ∈ [])) as [H|_]; [apply elem_of_nil in H; contradiction | reflexivity].
  - rewrite IH.
    destruct (decide (c ∈ cols)) as [Hin|Hnin].
    + destruct (decide (c ∈ x :: cols)) as [_|H]; [reflexivity|].
      exfalso; apply H; right; assumption.
    + destruct (decide (x = c)) as [->|Hne].
      * rewrite dict_get_set_eq.
        destruct (decide (c ∈ c :: cols)) as [_|H]; [reflexivity | exfalso; apply H; left].
      * rewrite dict_get_set_ne by assumption.
        destruct (decide (c ∈ x :: cols)) as [H|_]; [|reflexivity].
        apply elem_of_cons in H as [H|H]; [congruence | contradiction].
Qed.

Lemma fold_dict_set_is_dict (cols : list string) :
  forall acc, is_dict acc -> is_dict (fold_left (fun acc c => dict_set acc c (f c)) cols acc).
Proof.
  induction cols as [|c cols IH]; intros acc H; simpl; [assumption|].
  apply IH. apply is_dict_dict_set. assumption.
Qed.

End DictOfKeys.

Lemma fold_see_elem_of (l : list string) (c : string) :
  forall seen,
  c ∈ fold_left (fun seen c => if decide (c ∈ seen) then seen else seen ++ [c]) l seen
  <-> c ∈ seen \/ c ∈ l.
Proof.
  induction l as [|x l IH]; intros seen; simpl.
  - rewrite elem_of_nil. tauto.
  - rewrite IH, elem_of_cons. destruct (decide (x ∈ seen)) as [Hin|Hnin].
    + split; [tauto | intros [H|[->|H]]; tauto].
    + rewrite elem_of_app, list_elem_of_singleton. tauto.
Qed.

Lemma fold_see_NoDup (l : list string) :
  forall seen, NoDup (seen ++ l) ->
  fold_left (fun seen c => if decide (c ∈ seen) then seen else seen ++ [c]) l seen = seen ++ l.
Proof.
  induction l as [|x l IH]; intros seen H; simpl.
  - rewrite app_nil_r. reflexivity.
  - assert (Hx : x ∉ seen).
    { apply NoDup_app in H as (_ & H & _). intros Hin. apply (H x Hin). left. }
    destruct (decide (x ∈ seen)); [contradiction|].
    rewrite IH; rewrite <- app_assoc; simpl; [reflexivity | assumption].
Qed.

Lemma first_occurrences_elem_of (l : list string) (c : string) :
  c ∈ first_occurrences l <-> c ∈ l.
Proof.
  unfold first_occurrences. rewrite fold_see_elem_of, elem_of_nil. tauto.
Qed.

Lemma first_occurrences_NoDup (l : list string) : NoDup l -> first_occurrences l = l.
Proof. intros H. unfold first_occurrences. rewrite fold_see_NoDup; [reflexivity | assumption]. Qed.

(** ** Project *)

Lemma Project_row_fold (cols : list string) (r : row) :
  Project_row cols r = fold_left (fun acc c => dict_set acc c (value_or_None r c)) cols [].
Proof.
  unfold Project_row. apply fold_left_ext_in. intros acc c _.
  unfold dict_contains, value_or_None. destruct (dict_get r c); reflexivity.
Qed.

Lemma Project_row_get (cols : list string) (r : row) (c : string) :
  dict_get (Project_row cols r) c
  = if decide (c ∈ cols) then Some (value_or_None r c) else None.
Proof. rewrite Project_row_fold, fold_dict_set_get. reflexivity. Qed.

Lemma Project_row_columns (cols : list string) (r : row) :
  columns (Project_row cols r) = first_occurrences cols.
Proof. rewrite Project_row_fold, fold_dict_set_columns. reflexivity. Qed.

Lemma Project_row_idempotent (cols : list string) (r : row) :
  Project_row cols (Project_row cols r) = Project_row cols r.
Proof.
  rewrite (Project_row_fold cols (Project_row cols r)), (Project_row_fold cols r).
  apply fold_left_ext_in. intros acc c Hc. f_equal.
  unfold value_or_None at 1. rewrite <- Project_row_fold, Project_row_get.
  destruct (decide (c ∈ cols)); [reflexivity | contradiction].
Qed.

(** C6. For every input row and every requested column list, [Project]
    emits exactly one row.  That row is a dict whose columns are the requested
    ones, in the order requested (a column requested twice is held once, where
    it was first requested; without repetition the columns are the list
    itself).  Each requested column holds the value of the input row, or
    [None] when the input row lacks it, and no other column is present. *)
Theorem Project_emits_requested_columns (cols : list string) (r : row) :
  exists out,
    Mapper_call (Project cols) r = Ok [out]
    /\ is_dict out
    /\ columns out = first_occurrences cols
    /\ (forall c, c ∈ columns out <-> c ∈ cols)
    /\ (NoDup cols -> columns out = cols)
    /\ (forall c, c ∈ cols -> dict_get out c = Some (value_or_None r c))
    /\ (forall c, c ∉ cols -> dict_get out c = None).
Proof.
  exists (Project_row cols r). repeat split.
  - rewrite Project_row_fold. apply fold_dict_set_is_dict. apply NoDup_nil_2.
  - apply Project_row_columns.
  - rewrite Project_row_columns. apply first_occurrences_elem_of.
  - rewrite Project_row_columns. apply first_occurrences_elem_of.
  - intros H. rewrite Project_row_columns. apply first_occurrences_NoDup. assumption.
  - intros c Hc. rewrite Project_row_get. destruct (decide (c ∈ cols)); [reflexivity | contradiction].
  - intros c Hc. rewrite Project_row_get. destruct (decide (c ∈ cols)); [contradiction | reflexivity].
Qed.

Lemma Project_emits_requested_columns_witness :
  exists out,
    Mapper_call (Project ["b"; "z"]) [("a", VInt 3); ("b", VInt 4)] = Ok [out]
    /\ columns out = ["b"; "z"]
    /\ dict_get out "b" = Some (VInt 4)
    /\ dict_get out "z" = Some VNone
    /\ dict_get out "a" = None.
Proof.
  destruct (Project_emits_requested_columns ["b"; "z"] [("a", VInt 3); ("b", VInt 4)])
    as (out & Hcall & _ & _ & _ & Hcols & Hget & Hnone).
  exists out. split; [exact Hcall|]. split.
  - apply Hcols. compute_done.
  - split; [apply (Hget "b"); compute_done|].
    split; [apply (Hget "z"); compute_done|].
    apply Hnone. compute_done.
Defined.

Lemma Map_Project_rows (cols : list string) (rows : list row) :
  Map_call (Project cols) rows = Ok (List.map (Project_row cols) rows).
Proof.
  induction rows as [|r rows IH]; simpl; [reflexivity|].
  rewrite IH. reflexivity.
Qed.

(** C8. [Project] is idempotent: projecting the row that [Project(cols)]
    emitted gives that same row, and two [Map(Project(cols))] in a row do to
    a stream what one does. *)
Theorem Project_idempotent (cols : list string) (r : row) (rows : list row) :
  (let! out := Mapper_call (Project cols) r in Map_call (Project cols) out)
  = Mapper_call (Project cols) r
  /\ (let! once := Map_call (Project cols) rows in Map_call (Project cols) once)
     = Map_call (Project cols) rows.
Proof.
  split.
  - simpl. rewrite Project_row_idempotent. reflexivity.
  - rewrite Map_Project_rows. simpl. rewrite Map_Project_rows. f_equal.
    rewrite List.map_map. apply List.map_ext. intros a. apply Project_row_idempotent.
Qed.

(** ** Split *)

Lemma append_String (c : ascii) (s t : string) :
  String.append (String c s) t = String c (String.append s t).
Proof. reflexivity. Qed.

Lemma append_Empty_l (t : string) : String.append EmptyString t = t.
Proof. reflexivity. Qed.

Lemma append_Empty_r (s : string) : String.append s EmptyString = s.
Proof.
  induction s as [|c s IH]; [reflexivity|]. rewrite append_String, IH. reflexivity.
Qed.

Lemma string_forall_append (p : ascii -> bool) (s t : string) :
  string_forall p (String.append s t) = string_forall p s && string_forall p t.
Proof.
  induction s as [|c s IH]; [reflexivity|].
  rewrite append_String. simpl. rewrite IH. apply andb_assoc.
Qed.

Lemma string_append_assoc (s t u : string) :
  String.append (String.append s t) u = String.append s (String.append t u).
Proof.
  induction s as [|c s IH]; [reflexivity|].
  rewrite !append_String, IH. reflexivity.
Qed.

Lemma re_split_nonword_tokens (s : string) :
  forall word in_sep,
  string_forall is_word_char word = true ->
  Forall (fun token => string_forall is_word_char token = true)
         (re_split_nonword s word in_sep).
Proof.
  induction s as [|c s IH]; intros word in_sep Hword; simpl.
  - constructor; [assumption | constructor].
  - destruct (is_word_char c) eqn:Hc.
    + apply IH. rewrite string_forall_append, Hword. simpl. rewrite Hc. reflexivity.
    + destruct in_sep; [apply IH; assumption|].
      constructor; [assumption | apply IH; reflexivity].
Qed.

Lemma re_split_nonword_not_nil (s word : string) (in_sep : bool) :
  re_split_nonword s word in_sep <> [].
Proof.
  revert word in_sep. induction s as [|c s IH]; intros word in_sep; simpl; [discriminate|].
  destruct (is_word_char c); [apply IH|]. destruct in_sep; [apply IH | discriminate].
Qed.

Lemma re_split_nonword_concat (s : string) :
  forall word in_sep,
  String.concat EmptyString (re_split_nonword s word in_sep)
  = String.append word (string_filter is_word_char s).
Proof.
  induction s as [|c s IH]; intros word in_sep; simpl.
  - rewrite append_Empty_r. reflexivity.
  - destruct (is_word_char c) eqn:Hc.
    + rewrite IH, string_append_assoc, append_String, append_Empty_l. reflexivity.
    + destruct in_sep; [apply IH|].
      specialize (IH EmptyString true). rewrite append_Empty_l in IH.
      pose proof (re_split_nonword_not_nil s EmptyString true) as Hne.
      destruct (re_split_nonword s EmptyString true) as [|token tokens]; [contradiction|].
      change (String.concat EmptyString (word :: token :: tokens))
        with (String.append word (String.append EmptyString
                (String.concat EmptyString (token :: tokens)))).
      rewrite append_Empty_l, IH. reflexivity.
Qed.

Lemma re_split_nonword_word (s : string) :
  string_forall is_word_char s = true ->
  forall word in_sep, re_split_nonword s word in_sep = [String.append word s].
Proof.
  induction s as [|c s IH]; simpl; intros H word in_sep.
  - rewrite append_Empty_r. reflexivity.
  - apply andb_true_iff in H as [Hc Hs]. rewrite Hc, (IH Hs), string_append_assoc.
    reflexivity.
Qed.

Lemma re_split_nonword_word_run (token : string) :
  word_only token ->
  forall rest word in_sep,
  re_split_nonword (String.append token rest) word in_sep
  = re_split_nonword rest (String.append word token)
      (match token with EmptyString => in_sep | String _ _ => false end).
Proof.
  unfold word_only. induction token as [|c token IH]; intros H rest word in_sep.
  - rewrite append_Empty_l, append_Empty_r. reflexivity.
  - simpl in H. apply andb_true_iff in H as [Hc Htoken].
    rewrite append_String. cbn [re_split_nonword]. rewrite Hc, (IH Htoken).
    rewrite string_append_assoc, append_String, append_Empty_l.
    destruct token; reflexivity.
Qed.

Lemma re_split_nonword_skip (sep : string) :
  string_forall (fun c => negb (is_word_char c)) sep = true ->
  forall rest word,
  re_split_nonword (String.append sep rest) word true = re_split_nonword rest word true.
Proof.
  induction sep as [|c sep IH]; intros H rest word; [reflexivity|].
  simpl in H. apply andb_true_iff in H as [Hc Hsep]. apply negb_true_iff in Hc.
  rewrite append_String. cbn [re_split_nonword]. rewrite Hc. apply IH. assumption.
Qed.

Lemma re_split_nonword_separator_run (sep : string) :
  separator_run sep ->
  forall rest word,
  re_split_nonword (String.append sep rest) word false
  = word :: re_split_nonword rest EmptyString true.
Proof.
  intros [Hne H] rest word. destruct sep as [|c sep]; [contradiction|].
  simpl in H. apply andb_true_iff in H as [Hc Hsep]. apply negb_true_iff in Hc.
  rewrite append_String. cbn [re_split_nonword]. rewrite Hc.
  rewrite (re_split_nonword_skip sep Hsep). reflexivity.
Qed.

(** The tokens of a text that is cut where the pattern matches. *)
Lemma re_split_nonword_glue (pieces : list (string * string)) :
  forall token word in_sep,
  word_only token -> well_cut pieces ->
  (in_sep = true -> pieces <> [] -> token <> EmptyString) ->
  re_split_nonword (glue token pieces) word in_sep
  = String.append word token :: List.map snd pieces.
Proof.
  induction pieces as [|[sep next] pieces IH]; intros token word in_sep Htoken Hcut Hflag.
  - cbn [glue List.map]. apply re_split_nonword_word. exact Htoken.
  - destruct Hcut as (Hsep & Hnext & Hinner & Hcut). cbn [glue List.map snd].
    rewrite (re_split_nonword_word_run token Htoken).
    assert (Hstart : match token with EmptyString => in_sep | String _ _ => false end = false).
    { destruct token; [|reflexivity]. destruct in_sep; [|reflexivity].
      exfalso. apply Hflag; [reflexivity | discriminate | reflexivity]. }
    rewrite Hstart, (re_split_nonword_separator_run sep Hsep).
    rewrite (IH next EmptyString true Hnext Hcut (fun _ => Hinner)), append_Empty_l.
    reflexivity.
Qed.

Lemma glue_String (c : ascii) (token : string) (pieces : list (string * string)) :
  glue (String c token) pieces = String c (glue token pieces).
Proof. destruct pieces as [|[sep next] pieces]; reflexivity. Qed.

(** Every text is cut in that way. *)
Lemma every_text_is_cut (text : string) :
  exists token pieces, word_only token /\ well_cut pieces /\ text = glue token pieces.
Proof.
  induction text as [|c text (token & pieces & Htoken & Hcut & ->)].
  - exists EmptyString, []. repeat split.
  - destruct (is_word_char c) eqn:Hc.
    + exists (String c token), pieces. split; [|split; [assumption|]].
      * unfold word_only in *. simpl. rewrite Hc, Htoken. reflexivity.
      * rewrite glue_String. reflexivity.
    + assert (Hrun : forall sep,
                string_forall (fun c => negb (is_word_char c)) sep = true ->
                separator_run (String c sep)).
      { intros sep Hsep. split; [discriminate|]. simpl. rewrite Hc, Hsep. reflexivity. }
      destruct token as [|c' token].
      * destruct pieces as [|[sep next] pieces].
        -- exists EmptyString, [(String c EmptyString, EmptyString)].
           split; [reflexivity|]. split; [|reflexivity].
           cbn [well_cut]. split; [apply Hrun; reflexivity|]. split; [reflexivity|].
           split; [intros H; contradiction | exact I].
        -- exists EmptyString, ((String c sep, next) :: pieces).
           destruct Hcut as ([Hne Hsep] & Hnext & Hinner & Hcut).
           split; [reflexivity|]. split; [|reflexivity].
           cbn [well_cut]. split; [apply Hrun; assumption|]. auto.
      * exists EmptyString, ((String c EmptyString, String c' token) :: pieces).
        split; [reflexivity|]. split; [|reflexivity].
        cbn [well_cut]. split; [apply Hrun; reflexivity|]. split; [assumption|].
        split; [discriminate | assumption].
Qed.

(** C10. [Split] ignores its separator: two separator arguments give the
    same outcome.  Whatever the argument, the text of the column is cut where
    the pattern [\W+] matches - every text is cut in one such way, into tokens
    of word characters between whole runs of non-word characters, with an
    empty token where the text starts or ends with a run - and the mapper emits
    one row per token, in order, the column holding the token.  A row whose
    column is missing or holds no text is refused. *)
Theorem Split_ignores_separator (column : string) (sep1 sep2 : option string) (r : row) :
  Mapper_call (Split column sep1) r = Mapper_call (Split column sep2) r
  /\ (forall text, dict_get r column = Some (VStr text) ->
        exists token pieces,
          word_only token /\ well_cut pieces /\ text = glue token pieces
          /\ Mapper_call (Split column sep1) r
             = Ok (List.map (fun w => dict_set r column (VStr w))
                            (token :: List.map snd pieces)))
  /\ (forall token pieces,
        word_only token -> well_cut pieces ->
        dict_get r column = Some (VStr (glue token pieces)) ->
        Mapper_call (Split column sep1) r
        = Ok (List.map (fun w => dict_set r column (VStr w))
                       (token :: List.map snd pieces)))
  /\ ((forall text, dict_get r column <> Some (VStr text)) ->
        Mapper_call (Split column sep1) r = Err RowError).
Proof.
  assert (Hcut : forall token pieces,
            word_only token -> well_cut pieces ->
            dict_get r column = Some (VStr (glue token pieces)) ->
            Mapper_call (Split column sep1) r
            = Ok (List.map (fun w => dict_set r column (VStr w))
                           (token :: List.map snd pieces))).
  { intros token pieces Htoken Hpieces Hget.
    cbn [Mapper_call]. unfold Split_call, dict_getitem. rewrite Hget. cbn [bind].
    rewrite (re_split_nonword_glue pieces token EmptyString false Htoken Hpieces)
      by discriminate.
    rewrite append_Empty_l. reflexivity. }
  split; [reflexivity|]. split; [|split; [exact Hcut|]].
  - intros text Hget.
    destruct (every_text_is_cut text) as (token & pieces & Htoken & Hpieces & ->).
    exists token, pieces. auto.
  - intros Hnone. cbn [Mapper_call]. unfold Split_call, dict_getitem.
    destruct (dict_get r column) as [[| |text]|] eqn:Hget; try reflexivity.
    exfalso. exact (Hnone text eq_refl).
Qed.

Lemma Split_ignores_separator_witness :
  Mapper_call (Split "text" (Some ","%string)) [("doc", VInt 1); ("text", VStr "a,b c")]
  = Ok [[("doc", VInt 1); ("text", VStr "a")];
        [("doc", VInt 1); ("text", VStr "b")];
        [("doc", VInt 1); ("text", VStr "c")]].
Proof.
  apply (proj1 (proj2 (proj2 (Split_ignores_separator "text" (Some ","%string) None
                                [("doc", VInt 1); ("text", VStr "a,b c")])))
           "a"%string [(","%string, "b"%string); (" "%string, "c"%string)]).
  - reflexivity.
  - cbn [well_cut]. repeat split; discriminate.
  - reflexivity.
Defined.

(** ** The graph *)

(** C7. [run] on a node that has inputs and no operation raises at once:
    [run] is entered on that node only, so no stream of an input is built, and
    the keyword arguments play no part. *)
Theorem run_without_operation_fails_fast (depth : nat) (h : Graph.heap) (i : inputs)
  (self : Graph.ref) (g : Graph.t) :
  h !! self = Some g ->
  Graph._input g <> [] ->
  Graph._operation g = None ->
  Graph.run (S depth) h i self = ([self], Raised NoGenerator).
Proof.
  intros Hg Hin Hop. simpl. rewrite Hg.
  destruct (Graph._input g) as [|input0 others]; [contradiction|].
  rewrite Hop. reflexivity.
Qed.

Lemma run_without_operation_fails_fast_witness :
  Graph.run 1 [Graph.mk [0] None] (mkInputs [] []) 0 = ([0], Raised NoGenerator).
Proof.
  apply (run_without_operation_fails_fast 0 [Graph.mk [0] None] (mkInputs [] []) 0
           (Graph.mk [0] None)).
  - reflexivity.
  - discriminate.
  - reflexivity.
Defined.

Lemma new_node_attributes (h : Graph.heap) (op : option Operation) (ins : list Graph.ref) :
  let '(h0, graph) := Graph.init h in
  let h' := Graph.set_input graph ins (Graph.set_operation graph op h0) in
  graph = length h
  /\ h' !! graph = Some (Graph.mk ins op)
  /\ (forall r, is_Some (h !! r) -> h' !! r = h !! r).
Proof.
  unfold Graph.init, Graph.set_input, Graph.set_operation. simpl.
  split; [reflexivity|]. split.
  - rewrite !list_lookup_alter_eq, list_lookup_middle by reflexivity. reflexivity.
  - intros r Hr. apply lookup_lt_is_Some in Hr.
    rewrite !list_lookup_alter_ne by lia. apply lookup_app_l. assumption.
Qed.

Lemma builder_returns_new_node (h : Graph.heap) (self : Graph.ref) (op : Operation)
  (ins : list Graph.ref) :
  is_Some (h !! self) -> self ∈ ins ->
  returns_new_node self h
    (let '(h0, graph) := Graph.init h in
     (Graph.set_input graph ins (Graph.set_operation graph (Some op) h0), graph)).
Proof.
  intros Hself Hin.
  pose proof (new_node_attributes h (Some op) ins) as H.
  unfold returns_new_node. destruct (Graph.init h) as [h0 graph].
  destruct H as (-> & Hnew & Hold). split; [|split; [|split]].
  - apply lookup_ge_None. lia.
  - eexists. split; [exact Hnew|]. simpl. split; [assumption | discriminate].
  - apply Hold. assumption.
  - exact Hold.
Qed.

(** C9. Each of [map], [reduce], [sort] and [join] returns a new node whose
    inputs include the receiver, and the receiver, like every node there was
    before the call, has the operation and the inputs it had. *)
Theorem builders_leave_receiver_unchanged (h : Graph.heap) (self join_graph : Graph.ref)
  (mapper : Mapper) (reducer : Reducer) (joiner : Joiner) (keys : list string)
  (reverse : bool) :
  is_Some (h !! self) ->
  returns_new_node self h (Graph.map self mapper h)
  /\ returns_new_node self h (Graph.reduce self reducer keys h)
  /\ returns_new_node self h (Graph.sort self keys reverse h)
  /\ returns_new_node self h (Graph.join self joiner join_graph keys h).
Proof.
  intros Hself. split; [|split; [|split]].
  - apply (builder_returns_new_node h self (Map mapper) [self] Hself). left.
  - apply (builder_returns_new_node h self (Reduce reducer keys) [self] Hself). left.
  - apply (builder_returns_new_node h self (ExternalSort keys reverse) [self] Hself). left.
  - apply (builder_returns_new_node h self (Join joiner keys) [self; join_graph] Hself). left.
Qed.

Lemma builders_leave_receiver_unchanged_witness :
  let h := fst (Graph.graph_from_iter "docs" []) in
  returns_new_node 0 h (Graph.map 0 DummyMapper h)
  /\ returns_new_node 0 h (Graph.reduce 0 (Count "n") ["doc_id"] h)
  /\ returns_new_node 0 h (Graph.sort 0 ["doc_id"] false h)
  /\ returns_new_node 0 h (Graph.join 0 (default_joiner InnerJoiner) 0 ["doc_id"] h).
Proof.
  apply (builders_leave_receiver_unchanged (fst (Graph.graph_from_iter "docs" [])) 0 0
           DummyMapper (Count "n") (default_joiner InnerJoiner)).
  simpl. eexists. reflexivity.
Defined.

(** ** Keys and groups *)

Lemma tuple_key_nil (r : row) : tuple_key [] r = Ok [].
Proof. reflexivity. Qed.

Lemma tuple_key_cons (k : string) (keys : list string) (r : row) :
  tuple_key (k :: keys) r
  = let! v := dict_getitem r k in let! vs := tuple_key keys r in Ok (v :: vs).
Proof. reflexivity. Qed.

Lemma tuple_key_Ok_get (keys : list string) (r : row) (kt : list value) :
  tuple_key keys r = Ok kt ->
  forall k, k ∈ keys -> dict_getitem r k = Ok (value_or_None r k).
Proof.
  revert kt. induction keys as [|k0 keys IH]; intros kt H k Hk.
  - apply elem_of_nil in Hk. contradiction.
  - rewrite tuple_key_cons in H. apply bind_Ok in H as (v & Hv & H).
    apply bind_Ok in H as (vs & Hvs & _).
    apply elem_of_cons in Hk as [->|Hk]; [|eapply IH; eassumption].
    unfold dict_getitem, value_or_None in *. destruct (dict_get r k0); [reflexivity | discriminate].
Qed.

Lemma tuple_key_same_get (keys : list string) (r r' : row) (kt : list value) :
  tuple_key keys r = Ok kt -> tuple_key keys r' = Ok kt ->
  forall k, k ∈ keys -> dict_get r k = dict_get r' k /\ is_Some (dict_get r k).
Proof.
  revert kt. induction keys as [|k0 keys IH]; intros kt H H' k Hk.
  - apply elem_of_nil in Hk. contradiction.
  - rewrite tuple_key_cons in H, H'.
    apply bind_Ok in H as (v & Hv & H). apply bind_Ok in H as (vs & Hvs & H).
    apply bind_Ok in H' as (v' & Hv' & H'). apply bind_Ok in H' as (vs' & Hvs' & H').
    injection H as <-. injection H' as Hv0 Hvs0. subst v' vs'.
    destruct (decide (k = k0)) as [->|Hne].
    + unfold dict_getitem in Hv, Hv'.
      destruct (dict_get r k0), (dict_get r' k0); try discriminate.
      split; [congruence | eexists; reflexivity].
    + apply elem_of_cons in Hk as [Hk|Hk]; [contradiction|].
      eapply IH; eassumption.
Qed.

Lemma keyed_pure (keys : list string) (rows : list row) :
  Forall (fun r => exists k, tuple_key keys r = Ok k) rows ->
  keyed keys rows = Ok (List.map (fun r => (key_of keys r, r)) rows).
Proof.
  intros H. unfold keyed. apply try_map_pure.
  eapply Forall_impl; [exact H|]. intros r [k Hk]. simpl.
  unfold key_of. rewrite Hk. reflexivity.
Qed.

Section Groupby.
Context {K : Type} `{EqDecision K}.

Lemma groupby_head (k : K) (r : row) (l : list (K * row)) :
  exists g gs, groupby ((k, r) :: l) = (k, r :: g) :: gs.
Proof.
  simpl. destruct (groupby l) as [|[k' g] gs]; [eauto|].
  destruct (decide (k = k')); eauto.
Qed.

Lemma groupby_run (k : K) (rs : list row) (r : row) :
  groupby ((k, r) :: List.map (fun x => (k, x)) rs) = [(k, r :: rs)].
Proof.
  revert r. induction rs as [|r' rs IH]; intros r; [reflexivity|].
  change (groupby ((k, r) :: List.map (fun x => (k, x)) (r' :: rs)))
    with (match groupby ((k, r') :: List.map (fun x => (k, x)) rs) with
          | (k', g) :: gs =>
              if decide (k = k') then (k, r :: g) :: gs else (k, [r]) :: (k', g) :: gs
          | [] => [(k, [r])]
          end).
  rewrite IH. destruct (decide (k = k)); [reflexivity | contradiction].
Qed.

Lemma groupby_app (l1 l2 : list (K * row)) :
  (forall p q, last l1 = Some p -> head l2 = Some q -> fst p <> fst q) ->
  groupby (l1 ++ l2) = groupby l1 ++ groupby l2.
Proof.
  induction l1 as [|[k r] l1 IH]; intros Hb; [reflexivity|].
  destruct l1 as [|[k1 r1] l1].
  - clear IH. destruct l2 as [|[k2 r2] l2]; [reflexivity|].
    change (groupby (([(k, r)]) ++ (k2, r2) :: l2))
      with (match groupby ((k2, r2) :: l2) with
            | (k', g) :: gs =>
                if decide (k = k') then (k, r :: g) :: gs else (k, [r]) :: (k', g) :: gs
            | [] => [(k, [r])]
            end).
    destruct (groupby_head k2 r2 l2) as (g & gs & ->).
    destruct (decide (k = k2)) as [->|_]; [|reflexivity].
    exfalso. apply (Hb (k2, r) (k2, r2)); reflexivity.
  - change (groupby (((k, r) :: (k1, r1) :: l1) ++ l2))
      with (match groupby (((k1, r1) :: l1) ++ l2) with
            | (k', g) :: gs =>
                if decide (k = k') then (k, r :: g) :: gs else (k, [r]) :: (k', g) :: gs
            | [] => [(k, [r])]
            end).
    change (groupby ((k, r) :: (k1, r1) :: l1))
      with (match groupby ((k1, r1) :: l1) with
            | (k', g) :: gs =>
                if decide (k = k') then (k, r :: g) :: gs else (k, [r]) :: (k', g) :: gs
            | [] => [(k, [r])]
            end).
    rewrite IH.
    + destruct (groupby_head k1 r1 l1) as (g & gs & ->). simpl.
      destruct (decide (k = k1)); reflexivity.
    + intros p q Hp Hq. apply Hb; [|assumption].
      rewrite last_cons. rewrite Hp. reflexivity.
Qed.

Lemma groupby_Forall (P : row -> Prop) (l : list (K * row)) :
  Forall (fun kr => P (snd kr)) l ->
  Forall (fun kg => snd kg <> [] /\ Forall P (snd kg)) (groupby l).
Proof.
  induction 1 as [|[k r] l Hr _ IH]; simpl; [constructor|].
  destruct (groupby l) as [|[k' g] gs].
  - repeat constructor; [discriminate | assumption].
  - inversion IH as [|? ? [Hg Hg'] Hgs]; subst. simpl in *.
    destruct (decide (k = k')).
    + constructor; [|assumption]. simpl. split; [discriminate | constructor; assumption].
    + constructor; [simpl; split; [discriminate | repeat constructor; assumption]|].
      constructor; [split; assumption | assumption].
Qed.

End Groupby.

Lemma reduce_groups_app (rd : Reducer) (keys : list string)
  (g1 g2 : list (list value * list row)) (out1 out2 : list row) :
  reduce_groups rd keys g1 = Ok out1 ->
  reduce_groups rd keys g2 = Ok out2 ->
  reduce_groups rd keys (g1 ++ g2) = Ok (out1 ++ out2).
Proof.
  revert out1. induction g1 as [|[k g] g1 IH]; intros out1 H1 H2; simpl in *.
  - injection H1 as <-. assumption.
  - unfold app_res in *. apply bind_Ok in H1 as (xs & Hxs & H1).
    apply bind_Ok in H1 as (ys & Hys & H1). injection H1 as <-.
    rewrite Hxs. simpl. rewrite (IH ys Hys H2). simpl. rewrite app_assoc. reflexivity.
Qed.

(** ** Count *)

Lemma dict_update_fresh (upd : row) :
  forall d, is_dict upd -> (forall c, c ∈ columns upd -> c ∉ columns d) ->
  dict_update d upd = d ++ upd.
Proof.
  unfold dict_update.
  induction upd as [|[k v] upd IH]; intros d Hupd Hd; simpl.
  - rewrite app_nil_r. reflexivity.
  - unfold is_dict in Hupd. simpl in Hupd. apply NoDup_cons in Hupd as [Hk Hupd].
    rewrite dict_set_fresh by (apply Hd; left).
    rewrite IH.
    + rewrite <- app_assoc. reflexivity.
    + exact Hupd.
    + intros c Hc. unfold columns. rewrite map_app, elem_of_app. simpl.
      intros [H|H].
      * apply (Hd c); [right; exact Hc | exact H].
      * apply list_elem_of_singleton in H. subst. exact (Hk Hc).
Qed.

Lemma dict_comprehension_keys (keys : list string) (r : row) (kt : list value) :
  tuple_key keys r = Ok kt ->
  dict_comprehension keys (dict_getitem r) = Ok (Project_row keys r).
Proof.
  intros H. unfold dict_comprehension. rewrite Project_row_fold.
  apply try_fold_pure. intros acc k Hk.
  rewrite (tuple_key_Ok_get keys r kt H k Hk). reflexivity.
Qed.

Lemma copy_group_key_first (column : string) (keys : list string) (r : row)
  (kt : list value) (n : Z) :
  column ∉ keys -> tuple_key keys r = Ok kt ->
  copy_group_key keys [(column, VInt n)] r = Ok ((column, VInt n) :: Project_row keys r).
Proof.
  intros Hcol Hkey. unfold copy_group_key.
  destruct keys as [|k0 keys']; [reflexivity|].
  assert (Hk0 : dict_contains [(column, VInt n)] k0 = false).
  { apply dict_contains_false. simpl. intros H. apply list_elem_of_singleton in H.
    subst. apply Hcol. left. }
  rewrite Hk0. simpl negb. cbv iota.
  rewrite (dict_comprehension_keys _ _ _ Hkey). simpl bind.
  rewrite dict_update_fresh; [reflexivity | |].
  - rewrite Project_row_fold. apply fold_dict_set_is_dict. apply NoDup_nil_2.
  - intros c Hc. rewrite Project_row_columns in Hc.
    apply (proj1 (first_occurrences_elem_of _ _)) in Hc.
    simpl. intros H. apply list_elem_of_singleton in H. subst. exact (Hcol Hc).
Qed.

Lemma copy_group_key_next (column : string) (keys : list string) (r r0 : row) (n : Z) :
  copy_group_key keys ((column, VInt n) :: Project_row keys r0) r
  = Ok ((column, VInt n) :: Project_row keys r0).
Proof.
  unfold copy_group_key. destruct keys as [|k0 keys']; [reflexivity|].
  assert (Hk0 : dict_contains ((column, VInt n) :: Project_row (k0 :: keys') r0) k0 = true).
  { apply dict_contains_true. simpl. right.
    change (k0 ∈ columns (Project_row (k0 :: keys') r0)).
    rewrite Project_row_columns. apply first_occurrences_elem_of. left. }
  rewrite Hk0. reflexivity.
Qed.

Lemma count_get_set (column : string) (n m : Z) (d : row) :
  dict_getitem ((column, VInt n) :: d) column = Ok (VInt n)
  /\ dict_set ((column, VInt n) :: d) column (VInt m) = (column, VInt m) :: d.
Proof.
  unfold dict_getitem. simpl. destruct (decide (column = column)); [split; reflexivity | contradiction].
Qed.

Lemma Count_step_next (column : string) (keys : list string) (r r0 : row) (n : Z) :
  Count_step column keys ((column, VInt n) :: Project_row keys r0) r
  = Ok ((column, VInt (n + 1)) :: Project_row keys r0).
Proof.
  unfold Count_step. rewrite copy_group_key_next. cbn [bind].
  destruct (count_get_set column n (n + 1) (Project_row keys r0)) as [-> Hset].
  cbn [bind py_add]. rewrite Hset. reflexivity.
Qed.

Lemma Count_fold_next (column : string) (keys : list string) (r0 : row) (rows : list row) :
  forall n,
  try_fold (Count_step column keys) ((column, VInt n) :: Project_row keys r0) rows
  = Ok ((column, VInt (n + Z.of_nat (length rows))) :: Project_row keys r0).
Proof.
  induction rows as [|r rows IH]; intros n; cbn [try_fold length].
  - change (Z.of_nat 0) with 0%Z. rewrite Z.add_0_r. reflexivity.
  - rewrite Count_step_next. cbn [bind]. rewrite IH. do 4 f_equal. lia.
Qed.

(** The row [Count] emits for a group that is not empty. *)
Lemma Count_call_group (column : string) (keys : list string) (r0 : row) (rows : list row)
  (kt : list value) :
  column ∉ keys -> tuple_key keys r0 = Ok kt ->
  Count_call column keys (r0 :: rows)
  = Ok [(column, VInt (Z.of_nat (length (r0 :: rows)))) :: Project_row keys r0].
Proof.
  intros Hcol Hkey. unfold Count_call.
  change (dict_set [] column (VInt 0)) with [(column, VInt 0%Z)].
  change (try_fold (Count_step column keys) [(column, VInt 0)] (r0 :: rows))
    with (let! acc := Count_step column keys [(column, VInt 0%Z)] r0 in
          try_fold (Count_step column keys) acc rows).
  unfold Count_step at 1. rewrite (copy_group_key_first column keys r0 kt 0 Hcol Hkey).
  cbn [bind].
  destruct (count_get_set column 0 (0 + 1) (Project_row keys r0)) as [-> Hset].
  cbn [bind py_add]. rewrite Hset.
  rewrite Count_fold_next. cbn [bind]. do 5 f_equal. cbn [length]. lia.
Qed.

Lemma reduce_groups_Count_total (column : string) (keys : list string)
  (groups : list (list value * list row)) :
  column ∉ keys ->
  Forall (fun kg => snd kg <> [] /\ Forall (fun r => exists k, tuple_key keys r = Ok k) (snd kg))
         groups ->
  exists out, reduce_groups (Count column) keys groups = Ok out.
Proof.
  intros Hcol. induction 1 as [|[k g] groups [Hne Hg] _ [out IH]]; simpl; [eauto|].
  simpl in Hne, Hg. destruct g as [|r0 g]; [contradiction|].
  inversion Hg as [|? ? [kt Hkt] _]; subst.
  rewrite (Count_call_group column keys r0 g kt Hcol Hkt), IH. simpl. eauto.
Qed.

Lemma Reduce_Count_total (column : string) (keys : list string) (rows : list row) :
  column ∉ keys ->
  Forall (fun r => exists k, tuple_key keys r = Ok k) rows ->
  exists out, Reduce_call (Count column) keys rows = Ok out.
Proof.
  intros Hcol Hrows. unfold Reduce_call. rewrite (keyed_pure keys rows Hrows). simpl bind.
  apply reduce_groups_Count_total; [assumption|].
  apply groupby_Forall. apply Forall_forall. intros [k r] Hin. simpl.
  apply list_elem_of_In, in_map_iff in Hin as (r' & Heq & Hr'). injection Heq as _ <-.
  rewrite Forall_forall in Hrows. apply Hrows. apply list_elem_of_In. assumption.
Qed.

(** C1, as the code has it.  With no grouping key the whole input is one
    group, and [Count] emits one row holding the number of rows; but a group
    is a run of rows, and the empty input has no run: nothing is emitted. *)
Theorem Reduce_Count_no_keys (column : string) (rows : list row) :
  Reduce_call (Count column) [] rows
  = Ok (match rows with
        | [] => []
        | _ :: _ => [[(column, VInt (Z.of_nat (length rows)))]]
        end).
Proof.
  unfold Reduce_call.
  rewrite (keyed_pure [] rows) by (apply Forall_forall; intros; eexists; reflexivity).
  simpl bind. destruct rows as [|r0 rows]; [reflexivity|].
  change (List.map (fun r => (key_of [] r, r)) (r0 :: rows))
    with ((@nil value, r0) :: List.map (fun x => (@nil value, x)) rows).
  rewrite groupby_run. unfold reduce_groups, Reducer_call.
  rewrite (Count_call_group column [] r0 rows []); [reflexivity | apply not_elem_of_nil | reflexivity].
Qed.

(** C1 fails on the code: on the empty input the pipeline emits no row. *)
Lemma Reduce_Count_empty_input_emits_nothing :
  Reduce_call (Count "n") [] [] <> Ok [[("n", VInt 0)]].
Proof. vm_compute. discriminate. Qed.

Lemma last_map {A B : Type} (f : A -> B) (l : list A) (y : B) :
  last (List.map f l) = Some y -> exists x, last l = Some x /\ y = f x.
Proof.
  induction l as [|a l IH]; simpl; [discriminate|].
  destruct l as [|b l]; simpl in *.
  - intros H. injection H as <-. eauto.
  - exact IH.
Qed.

Lemma head_map {A B : Type} (f : A -> B) (l : list A) (y : B) :
  head (List.map f l) = Some y -> exists x, head l = Some x /\ y = f x.
Proof. destruct l as [|a l]; simpl; [discriminate|]. intros H. injection H as <-. eauto. Qed.

Lemma keyed_run (keys : list string) (kt : list value) (rows : list row) :
  Forall (fun r => tuple_key keys r = Ok kt) rows ->
  List.map (fun r => (key_of keys r, r)) rows = List.map (fun r => (kt, r)) rows.
Proof.
  induction 1 as [|r rows Hr _ IH]; simpl; [reflexivity|].
  unfold key_of at 1. rewrite Hr, IH. reflexivity.
Qed.

Lemma key_of_Ok (keys : list string) (r : row) :
  (exists k, tuple_key keys r = Ok k) -> tuple_key keys r = Ok (key_of keys r).
Proof. intros [k Hk]. unfold key_of. rewrite Hk. reflexivity. Qed.

(** The groups of a stream around a maximal run of rows with the key [kt]. *)
Lemma groupby_around_run (keys : list string) (kt : list value)
  (pre post rows : list row) (r0 : row) :
  Forall (fun r => tuple_key keys r = Ok kt) (r0 :: rows) ->
  Forall (fun r => exists k, tuple_key keys r = Ok k) (pre ++ post) ->
  (forall r, last pre = Some r -> tuple_key keys r <> Ok kt) ->
  (forall r, head post = Some r -> tuple_key keys r <> Ok kt) ->
  groupby (List.map (fun r => (key_of keys r, r)) (pre ++ (r0 :: rows) ++ post))
  = groupby (List.map (fun r => (key_of keys r, r)) pre)
    ++ [(kt, r0 :: rows)]
    ++ groupby (List.map (fun r => (key_of keys r, r)) post).
Proof.
  intros Hrun Hall Hpre Hpost.
  apply Forall_app in Hall as [Hkpre Hkpost].
  rewrite !map_app, (keyed_run keys kt (r0 :: rows) Hrun).
  rewrite groupby_app; [f_equal; rewrite groupby_app; [f_equal; apply groupby_run|]|].
  - intros p q Hp Hq.
    assert (Hp' : fst p = kt).
    { apply last_map in Hp as (x & _ & ->). reflexivity. }
    apply head_map in Hq as (rq & Hrq & ->). simpl. rewrite Hp'. intros Heq.
    apply (Hpost rq Hrq). rewrite Heq. apply key_of_Ok.
    rewrite Forall_forall in Hkpost. apply Hkpost.
    destruct post; simpl in Hrq; [discriminate|]. injection Hrq as ->. left.
  - intros p q Hp Hq. simpl in Hq. injection Hq as <-. simpl.
    apply last_map in Hp as (rp & Hrp & ->). simpl. intros Heq.
    apply (Hpre rp Hrp). rewrite <- Heq. apply key_of_Ok.
    rewrite Forall_forall in Hkpre. apply Hkpre.
    apply last_Some_elem_of. assumption.
Qed.

(** C5, for a result column that is not a grouping key.  A maximal run of
    rows with the same key tuple makes [Reduce] with [Count(col)] emit one
    row, between what it emits for the rows before the run and for the rows
    after it.  The columns of that row are [col] and the grouping keys; [col]
    holds the number of rows of the run and each grouping key the value it has
    in the rows of the run. *)
Theorem Reduce_Count_one_row_per_run (keys : list string) (col : string)
  (pre run post : list row) (kt : list value) :
  col ∉ keys ->
  run <> [] ->
  Forall (fun r => tuple_key keys r = Ok kt) run ->
  Forall (fun r => exists k, tuple_key keys r = Ok k) (pre ++ post) ->
  (forall r, last pre = Some r -> tuple_key keys r <> Ok kt) ->
  (forall r, head post = Some r -> tuple_key keys r <> Ok kt) ->
  exists before out after,
    Reduce_call (Count col) keys pre = Ok before
    /\ Reduce_call (Count col) keys post = Ok after
    /\ Reduce_call (Count col) keys (pre ++ run ++ post) = Ok (before ++ [out] ++ after)
    /\ columns out = col :: first_occurrences keys
    /\ dict_get out col = Some (VInt (Z.of_nat (length run)))
    /\ (forall k r, k ∈ keys -> r ∈ run ->
          dict_get out k = dict_get r k /\ is_Some (dict_get r k)).
Proof.
  intros Hcol Hne Hrun Hall Hpre Hpost.
  destruct run as [|r0 rows]; [contradiction|].
  pose proof Hall as Hall'. apply Forall_app in Hall' as [Hkpre Hkpost].
  destruct (Reduce_Count_total col keys pre Hcol Hkpre) as [before Hbefore].
  destruct (Reduce_Count_total col keys post Hcol Hkpost) as [after Hafter].
  exists before, ((col, VInt (Z.of_nat (length (r0 :: rows)))) :: Project_row keys r0), after.
  split; [exact Hbefore|]. split; [exact Hafter|].
  assert (Hr0 : tuple_key keys r0 = Ok kt) by (inversion Hrun; assumption).
  split; [|split; [|split]].
  - unfold Reduce_call in *.
    rewrite keyed_pure in Hbefore by assumption.
    rewrite keyed_pure in Hafter by assumption.
    rewrite keyed_pure.
    + cbn [bind] in *.
      rewrite (groupby_around_run keys kt pre post rows r0 Hrun Hall Hpre Hpost).
      apply reduce_groups_app; [assumption|].
      apply (reduce_groups_app _ _ [(kt, r0 :: rows)]); [|assumption].
      cbn [reduce_groups Reducer_call].
      rewrite (Count_call_group col keys r0 rows kt Hcol Hr0). reflexivity.
    + apply Forall_app. split; [assumption|]. apply Forall_app. split; [|assumption].
      eapply Forall_impl; [exact Hrun|]. simpl. eauto.
  - simpl. rewrite Project_row_columns. reflexivity.
  - simpl. destruct (decide (col = col)); [reflexivity | contradiction].
  - intros k r Hk Hr.
    assert (Hr' : tuple_key keys r = Ok kt).
    { rewrite Forall_forall in Hrun. apply Hrun. assumption. }
    destruct (tuple_key_same_get keys r0 r kt Hr0 Hr' k Hk) as [Hsame [v Hv]].
    rewrite <- Hsame. split; [|eexists; eassumption].
    simpl. destruct (decide (col = k)) as [->|_]; [contradiction|].
    rewrite Project_row_get. destruct (decide (k ∈ keys)); [|contradiction].
    unfold value_or_None. rewrite Hv. reflexivity.
Qed.

Lemma Reduce_Count_one_row_per_run_witness :
  exists before out after,
    Reduce_call (Count "d") ["a"] [[("a", VInt 0); ("b", VInt 4)]] = Ok before
    /\ Reduce_call (Count "d") ["a"] [[("a", VInt 2); ("b", VInt 7)]] = Ok after
    /\ Reduce_call (Count "d") ["a"]
         ([[("a", VInt 0); ("b", VInt 4)]]
          ++ [[("a", VInt 1); ("b", VInt 5)]; [("a", VInt 1); ("b", VInt 6)]]
          ++ [[("a", VInt 2); ("b", VInt 7)]])
       = Ok (before ++ [out] ++ after)
    /\ columns out = ["d"; "a"]
    /\ dict_get out "d" = Some (VInt 2)
    /\ dict_get out "a" = Some (VInt 1).
Proof.
  destruct (Reduce_Count_one_row_per_run ["a"] "d"
              [[("a", VInt 0); ("b", VInt 4)]]
              [[("a", VInt 1); ("b", VInt 5)]; [("a", VInt 1); ("b", VInt 6)]]
              [[("a", VInt 2); ("b", VInt 7)]]
              [VInt 1])
    as (before & out & after & Hb & Ha & Hall & Hcols & Hcount & Hkeys).
  - compute_done.
  - discriminate.
  - repeat constructor.
  - repeat constructor; eexists; reflexivity.
  - intros r Hr. injection Hr as <-. vm_compute. discriminate.
  - intros r Hr. injection Hr as <-. vm_compute. discriminate.
  - exists before, out, after. repeat (split; [assumption|]).
    destruct (Hkeys "a" [("a", VInt 1); ("b", VInt 5)]) as [-> _];
      [compute_done | compute_done | reflexivity].
Defined.

(** C5 fails on the code when the result column is one of the grouping
    keys: the counter starts from the value that key has in the run, so for a
    run of one row whose column [b] holds 5 the row emitted holds 6, not 1. *)
Lemma Reduce_Count_column_among_keys :
  ~ exists out,
      Reduce_call (Count "b") ["a"; "b"] [[("a", VInt 1); ("b", VInt 5)]] = Ok [out]
      /\ dict_get out "b" = Some (VInt 1).
Proof.
  intros (out & Hcall & Hget). vm_compute in Hcall. injection Hcall as <-.
  vm_compute in Hget. discriminate.
Qed.

(** ** The order of keys *)

Lemma string_ltb_lt (s t : string) : String.ltb s t = true <-> String_as_OT.lt s t.
Proof.
  unfold String.ltb. rewrite <- String_as_OT.cmp_lt. unfold String_as_OT.cmp.
  destruct (String.compare s t); split; congruence.
Qed.

Lemma string_ltb_trans (s t u : string) :
  String.ltb s t = true -> String.ltb t u = true -> String.ltb s u = true.
Proof. rewrite !string_ltb_lt. apply String_as_OT.lt_trans. Qed.

Lemma string_ltb_asym (s t : string) : String.ltb s t = true -> String.ltb t s = false.
Proof.
  unfold String.ltb. rewrite (String.compare_antisym t s).
  destruct (String.compare s t); simpl; congruence.
Qed.

Lemma string_ltb_total (s t : string) :
  String.ltb s t = false -> String.ltb t s = false -> s = t.
Proof.
  unfold String.ltb. rewrite (String.compare_antisym t s).
  destruct (String.compare s t) eqn:E; simpl; try congruence.
  intros _ _. apply String.compare_eq_iff. assumption.
Qed.

Lemma py_gt_lt (a b : value) : py_gt a b = py_lt b a.
Proof. destruct a, b; simpl; try reflexivity. rewrite Z.gtb_ltb. reflexivity. Qed.

Lemma py_lt_asym (a b : value) : py_lt a b = Ok true -> py_lt b a = Ok false.
Proof.
  destruct a, b; simpl; try discriminate; intros H; injection H as H; f_equal.
  - lia.
  - apply string_ltb_asym. assumption.
Qed.

Lemma py_lt_trans (a b c : value) :
  py_lt a b = Ok true -> py_lt b c = Ok true -> py_lt a c = Ok true.
Proof.
  destruct a, b, c; simpl; try discriminate; intros H1 H2;
    injection H1 as H1; injection H2 as H2; f_equal.
  - lia.
  - eapply string_ltb_trans; eassumption.
Qed.

Lemma py_lt_total (a b : value) : py_lt a b = Ok false -> py_lt b a = Ok false -> a = b.
Proof.
  destruct a, b; simpl; try discriminate; intros H1 H2;
    injection H1 as H1; injection H2 as H2; f_equal.
  - lia.
  - apply string_ltb_total; assumption.
Qed.

Lemma py_lt_irrefl (a : value) : py_lt a a <> Ok true.
Proof. intros H. pose proof (py_lt_asym a a H). congruence. Qed.

Lemma py_eq_sym (a b : value) : py_eq a b = py_eq b a.
Proof. unfold py_eq. repeat case_bool_decide; congruence. Qed.

Lemma tuple_gt_lt (a : list value) : forall b, tuple_gt a b = tuple_lt b a.
Proof.
  induction a as [|x a IH]; intros [|y b]; simpl; try reflexivity.
  rewrite py_eq_sym, IH, py_gt_lt. reflexivity.
Qed.

Lemma tuple_lt_refl (a : list value) : tuple_lt a a = Ok false.
Proof.
  induction a as [|x a IH]; simpl; [reflexivity|].
  unfold py_eq. case_bool_decide; [assumption | contradiction].
Qed.

Lemma tuple_lt_asym (a : list value) :
  forall b, tuple_lt a b = Ok true -> tuple_lt b a = Ok false.
Proof.
  induction a as [|x a IH]; intros [|y b]; simpl; try congruence.
  rewrite (py_eq_sym y x). unfold py_eq. case_bool_decide.
  - apply IH.
  - apply py_lt_asym.
Qed.

Lemma tuple_lt_trans (a : list value) :
  forall b c, tuple_lt a b = Ok true -> tuple_lt b c = Ok true -> tuple_lt a c = Ok true.
Proof.
  induction a as [|x a IH]; intros [|y b] [|z c]; simpl; try congruence.
  unfold py_eq. repeat case_bool_decide; subst; try congruence.
  - apply IH.
  - intros H1 H2. apply py_lt_asym in H1. congruence.
  - apply py_lt_trans.
Qed.

Lemma tuple_lt_total (a : list value) :
  forall b, tuple_lt a b = Ok false -> tuple_lt b a = Ok false -> a = b.
Proof.
  induction a as [|x a IH]; intros [|y b]; simpl; try congruence.
  rewrite (py_eq_sym y x). unfold py_eq. case_bool_decide.
  - subst. intros H1 H2. f_equal. apply IH; assumption.
  - intros H1 H2. exfalso. apply H. apply py_lt_total; assumption.
Qed.


(** ** The merge of two grouped tables *)

Lemma drain_first_app (j : Joiner) (keys : list string) (g1 g2 : list (list value * list row)) :
  drain_first j keys (g1 ++ g2) = drain_first j keys g1 ++ drain_first j keys g2.
Proof.
  induction g1 as [|[k g] g1 IH]; simpl; [reflexivity|]. rewrite IH, app_assoc. reflexivity.
Qed.

Lemma drain_second_app (j : Joiner) (keys : list string) (g1 g2 : list (list value * list row)) :
  drain_second j keys (g1 ++ g2) = drain_second j keys g1 ++ drain_second j keys g2.
Proof.
  induction g1 as [|[k g] g1 IH]; simpl; [reflexivity|]. rewrite IH, app_assoc. reflexivity.
Qed.

Lemma merge_nil_r (j : Joiner) (keys : list string) (first : list (list value * list row)) :
  merge_groups j keys first [] = Ok (drain_first j keys first).
Proof. destruct first as [|[k g] first]; reflexivity. Qed.

Lemma merge_cons_cons (j : Joiner) (keys : list string)
  (ka kb : list value) (ra rb : list row) (first second : list (list value * list row)) :
  merge_groups j keys ((ka, ra) :: first) ((kb, rb) :: second)
  = let! lt := tuple_lt ka kb in
    if lt then
      let! rest := merge_groups j keys first ((kb, rb) :: second) in
      Ok (Joiner_call j keys ra [] ++ rest)
    else
      let! gt := tuple_gt ka kb in
      if gt then
        let! rest := merge_groups j keys ((ka, ra) :: first) second in
        Ok (Joiner_call j keys [] rb ++ rest)
      else
        let! rest := merge_groups j keys first second in
        Ok (Joiner_call j keys ra rb ++ rest).
Proof. reflexivity. Qed.

Lemma merge_first_exhausted (j : Joiner) (keys : list string)
  (h1 rest second : list (list value * list row)) :
  (forall h r, h ∈ h1 -> head rest = Some r -> tuple_lt (fst h) (fst r) = Ok true) ->
  merge_groups j keys rest (h1 ++ second)
  = let! after := merge_groups j keys rest second in
    Ok (drain_second j keys h1 ++ after).
Proof.
  induction h1 as [|[kh rh] h1 IH]; intros Hlt.
  - simpl. destruct (merge_groups j keys rest second); reflexivity.
  - destruct rest as [|[kr rr] rest].
    + simpl. rewrite drain_second_app, app_assoc. reflexivity.
    + change (((kh, rh) :: h1) ++ second) with ((kh, rh) :: (h1 ++ second)).
      rewrite merge_cons_cons.
      assert (Hkr : tuple_lt kh kr = Ok true) by (apply (Hlt (kh, rh) (kr, rr)); [left | reflexivity]).
      rewrite (tuple_lt_asym _ _ Hkr), tuple_gt_lt, Hkr. cbn [bind].
      rewrite IH by (intros h r Hh Hr; apply Hlt; [right; assumption | assumption]).
      cbn [drain_second]. by_cases_on_results.
Qed.

Lemma merge_prefix (j : Joiner) (keys : list string) (g1 : list (list value * list row)) :
  forall h1 rest_first rest_second,
  (forall g s, g ∈ g1 -> head rest_second = Some s -> tuple_lt (fst g) (fst s) = Ok true) ->
  (forall h r, h ∈ h1 -> head rest_first = Some r -> tuple_lt (fst h) (fst r) = Ok true) ->
  merge_groups j keys (g1 ++ rest_first) (h1 ++ rest_second)
  = let! before := merge_groups j keys g1 h1 in
    let! after := merge_groups j keys rest_first rest_second in
    Ok (before ++ after).
Proof.
  induction g1 as [|[kg rg] g1 IHg]; intros h1 rest_first rest_second Hg Hh.
  - rewrite app_nil_l, (merge_first_exhausted j keys h1 rest_first rest_second Hh).
    reflexivity.
  - induction h1 as [|[kh rh] h1 IHh].
    + rewrite merge_nil_r, app_nil_l. cbn [bind].
      destruct rest_second as [|[ks rs] rest_second].
      * rewrite !merge_nil_r, drain_first_app. reflexivity.
      * change (((kg, rg) :: g1) ++ rest_first) with ((kg, rg) :: (g1 ++ rest_first)).
        rewrite merge_cons_cons.
        assert (Hks : tuple_lt kg ks = Ok true)
          by (apply (Hg (kg, rg) (ks, rs)); [left | reflexivity]).
        rewrite Hks. cbn [bind].
        specialize (IHg [] rest_first ((ks, rs) :: rest_second)).
        rewrite app_nil_l, merge_nil_r in IHg. rewrite IHg.
        -- cbn [drain_first]. by_cases_on_results.
        -- intros g s Hin Hs. apply Hg; [right; assumption | assumption].
        -- intros h r Hin. apply elem_of_nil in Hin. contradiction.
    + change (((kg, rg) :: g1) ++ rest_first) with ((kg, rg) :: (g1 ++ rest_first)).
      change (((kh, rh) :: h1) ++ rest_second) with ((kh, rh) :: (h1 ++ rest_second)).
      rewrite !merge_cons_cons.
      destruct (tuple_lt kg kh) as [[|]|e]; cbn [bind]; [| |reflexivity].
      * change ((kh, rh) :: (h1 ++ rest_second)) with (((kh, rh) :: h1) ++ rest_second).
        rewrite IHg.
        -- by_cases_on_results.
        -- intros g s Hin Hs. apply Hg; [right; assumption | assumption].
        -- assumption.
      * destruct (tuple_gt kg kh) as [[|]|e]; cbn [bind]; [| |reflexivity].
        -- change ((kg, rg) :: (g1 ++ rest_first)) with (((kg, rg) :: g1) ++ rest_first).
           rewrite IHh.
           ++ by_cases_on_results.
           ++ intros h r Hin Hr. apply Hh; [right; assumption | assumption].
        -- rewrite IHg.
           ++ by_cases_on_results.
           ++ intros g s Hin Hs. apply Hg; [right; assumption | assumption].
           ++ intros h r Hin Hr. apply Hh; [right; assumption | assumption].
Qed.

Lemma merge_matched (j : Joiner) (keys : list string) (kt : list value)
  (ga gb : list row) (first second : list (list value * list row)) :
  merge_groups j keys ((kt, ga) :: first) ((kt, gb) :: second)
  = let! after := merge_groups j keys first second in
    Ok (Joiner_call j keys ga gb ++ after).
Proof. rewrite merge_cons_cons, tuple_gt_lt, tuple_lt_refl. reflexivity. Qed.

Lemma merge_only_first (j : Joiner) (keys : list string) (kt : list value)
  (ga : list row) (first second : list (list value * list row)) :
  (forall s, head second = Some s -> tuple_lt kt (fst s) = Ok true) ->
  merge_groups j keys ((kt, ga) :: first) second
  = let! after := merge_groups j keys first second in
    Ok (Joiner_call j keys ga [] ++ after).
Proof.
  intros H. destruct second as [|[ks rs] second].
  - rewrite !merge_nil_r. reflexivity.
  - specialize (H (ks, rs) eq_refl). simpl in H. rewrite merge_cons_cons, H. reflexivity.
Qed.

Lemma merge_only_second (j : Joiner) (keys : list string) (kt : list value)
  (gb : list row) (first second : list (list value * list row)) :
  (forall g, head first = Some g -> tuple_lt kt (fst g) = Ok true) ->
  merge_groups j keys first ((kt, gb) :: second)
  = let! after := merge_groups j keys first second in
    Ok (Joiner_call j keys [] gb ++ after).
Proof.
  intros H. destruct first as [|[kg rg] first].
  - reflexivity.
  - rewrite merge_cons_cons. specialize (H (kg, rg) eq_refl). simpl in H.
    rewrite (tuple_lt_asym _ _ H), tuple_gt_lt, H. reflexivity.
Qed.

(** ** Join around one key *)

Lemma head_elem_of {A : Type} (l : list A) (x : A) : head l = Some x -> x ∈ l.
Proof. destruct l as [|a l]; simpl; [discriminate|]. intros H. injection H as ->. left. Qed.

Lemma groupby_keys_Forall {K : Type} `{EqDecision K} (P : K -> Prop) (l : list (K * row)) :
  Forall (fun kr => P (fst kr)) l -> Forall (fun kg => P (fst kg)) (groupby l).
Proof.
  induction 1 as [|[k r] l Hk _ IH]; simpl; [constructor|].
  destruct (groupby l) as [|[k' g] gs]; [repeat constructor; assumption|].
  destruct (decide (k = k')).
  - inversion IH; subst. constructor; assumption.
  - constructor; assumption.
Qed.

Lemma keys_below_has_key (keys : list string) (kt : list value) (rows : list row) :
  keys_below keys kt rows -> Forall (fun r => exists k, tuple_key keys r = Ok k) rows.
Proof. intros H. eapply Forall_impl; [exact H|]. intros r (k & Hk & _). eauto. Qed.

Lemma keys_above_has_key (keys : list string) (kt : list value) (rows : list row) :
  keys_above keys kt rows -> Forall (fun r => exists k, tuple_key keys r = Ok k) rows.
Proof. intros H. eapply Forall_impl; [exact H|]. intros r (k & Hk & _). eauto. Qed.

Lemma keys_equal_has_key (keys : list string) (kt : list value) (rows : list row) :
  keys_equal keys kt rows -> Forall (fun r => exists k, tuple_key keys r = Ok k) rows.
Proof. intros H. eapply Forall_impl; [exact H|]. intros r Hk. exists kt. exact Hk. Qed.

Lemma keys_below_key_of (keys : list string) (kt : list value) (rows : list row) (r : row) :
  keys_below keys kt rows -> r ∈ rows -> tuple_lt (key_of keys r) kt = Ok true.
Proof.
  unfold keys_below. rewrite Forall_forall. intros H Hr.
  destruct (H r Hr) as (k & Hk & Hlt). unfold key_of. rewrite Hk. assumption.
Qed.

Lemma keys_above_key_of (keys : list string) (kt : list value) (rows : list row) (r : row) :
  keys_above keys kt rows -> r ∈ rows -> tuple_lt kt (key_of keys r) = Ok true.
Proof.
  unfold keys_above. rewrite Forall_forall. intros H Hr.
  destruct (H r Hr) as (k & Hk & Hlt). unfold key_of. rewrite Hk. assumption.
Qed.

Lemma groups_below (keys : list string) (kt : list value) (rows : list row) :
  keys_below keys kt rows ->
  Forall (fun kg => tuple_lt (fst kg) kt = Ok true)
         (groupby (List.map (fun r => (key_of keys r, r)) rows)).
Proof.
  intros H. apply (groupby_keys_Forall (fun k => tuple_lt k kt = Ok true)).
  apply Forall_forall. intros [k r] Hin.
  apply list_elem_of_In, in_map_iff in Hin as (r' & Heq & Hr'). injection Heq as <- <-.
  simpl. eapply keys_below_key_of; [eassumption | apply list_elem_of_In; assumption].
Qed.

Lemma groups_above (keys : list string) (kt : list value) (rows : list row) :
  keys_above keys kt rows ->
  Forall (fun kg => tuple_lt kt (fst kg) = Ok true)
         (groupby (List.map (fun r => (key_of keys r, r)) rows)).
Proof.
  intros H. apply (groupby_keys_Forall (fun k => tuple_lt kt k = Ok true)).
  apply Forall_forall. intros [k r] Hin.
  apply list_elem_of_In, in_map_iff in Hin as (r' & Heq & Hr'). injection Heq as <- <-.
  simpl. eapply keys_above_key_of; [eassumption | apply list_elem_of_In; assumption].
Qed.

Lemma groupby_around_key (keys : list string) (kt : list value) (a1 g a2 : list row) :
  keys_below keys kt a1 -> keys_equal keys kt g -> keys_above keys kt a2 ->
  groupby (List.map (fun r => (key_of keys r, r)) (a1 ++ g ++ a2))
  = groupby (List.map (fun r => (key_of keys r, r)) a1)
    ++ group_of kt g
    ++ groupby (List.map (fun r => (key_of keys r, r)) a2).
Proof.
  intros Hb He Ha. destruct g as [|r0 rows].
  - rewrite !app_nil_l, map_app. apply groupby_app.
    intros p q Hp Hq.
    apply last_map in Hp as (rp & Hrp & ->). apply head_map in Hq as (rq & Hrq & ->).
    simpl. intros Heq.
    pose proof (keys_below_key_of keys kt a1 rp Hb (last_Some_elem_of _ _ Hrp)) as H1.
    pose proof (keys_above_key_of keys kt a2 rq Ha (head_elem_of _ _ Hrq)) as H2.
    rewrite Heq in H1. apply tuple_lt_asym in H1. congruence.
  - apply groupby_around_run.
    + exact He.
    + apply Forall_app. split; [eapply keys_below_has_key | eapply keys_above_has_key]; eassumption.
    + intros r Hr Hk.
      pose proof (keys_below_key_of keys kt a1 r Hb (last_Some_elem_of _ _ Hr)) as H1.
      unfold key_of in H1. rewrite Hk, tuple_lt_refl in H1. discriminate.
    + intros r Hr Hk.
      pose proof (keys_above_key_of keys kt a2 r Ha (head_elem_of _ _ Hr)) as H1.
      unfold key_of in H1. rewrite Hk, tuple_lt_refl in H1. discriminate.
Qed.

Lemma head_group_of_above (kt : list value) (g : list row)
  (gs : list (list value * list row)) (k : list value) (s : list value * list row) :
  tuple_lt k kt = Ok true ->
  Forall (fun kg => tuple_lt kt (fst kg) = Ok true) gs ->
  head (group_of kt g ++ gs) = Some s ->
  tuple_lt k (fst s) = Ok true.
Proof.
  intros Hk Hgs Hs. destruct g as [|r0 rows]; simpl in Hs.
  - apply head_elem_of in Hs. rewrite Forall_forall in Hgs.
    eapply tuple_lt_trans; [exact Hk | apply Hgs; assumption].
  - injection Hs as <-. exact Hk.
Qed.

(** The rows a join emits, around the rows with the key tuple [kt]: what it
    emits for the smaller keys, then what the joiner makes of the two groups
    with that key, then what it emits for the larger keys. *)
Lemma Join_call_around_key (j : Joiner) (keys : list string) (kt : list value)
  (a1 ga a2 b1 gb b2 : list row) :
  keys_below keys kt a1 -> keys_equal keys kt ga -> keys_above keys kt a2 ->
  keys_below keys kt b1 -> keys_equal keys kt gb -> keys_above keys kt b2 ->
  ga <> [] \/ gb <> [] ->
  Join_call j keys (a1 ++ ga ++ a2) (b1 ++ gb ++ b2)
  = let! before := Join_call j keys a1 b1 in
    let! after := Join_call j keys a2 b2 in
    Ok (before ++ Joiner_call j keys ga gb ++ after).
Proof.
  intros Ha1 Hga Ha2 Hb1 Hgb Hb2 Hne. unfold Join_call.
  pose proof (keys_below_has_key _ _ _ Ha1) as Ka1.
  pose proof (keys_below_has_key _ _ _ Hb1) as Kb1.
  pose proof (keys_above_has_key _ _ _ Ha2) as Ka2.
  pose proof (keys_above_has_key _ _ _ Hb2) as Kb2.
  pose proof (keys_equal_has_key _ _ _ Hga) as Kga.
  pose proof (keys_equal_has_key _ _ _ Hgb) as Kgb.
  rewrite !keyed_pure by (repeat (apply Forall_app; split); assumption).
  cbn [bind].
  rewrite !(groupby_around_key keys kt) by assumption.
  pose proof (groups_below _ _ _ Ha1) as Ga1. pose proof (groups_below _ _ _ Hb1) as Gb1.
  pose proof (groups_above _ _ _ Ha2) as Ga2. pose proof (groups_above _ _ _ Hb2) as Gb2.
  rewrite merge_prefix.
  - assert (Hmid :
      merge_groups j keys
        (group_of kt ga ++ groupby (List.map (fun r => (key_of keys r, r)) a2))
        (group_of kt gb ++ groupby (List.map (fun r => (key_of keys r, r)) b2))
      = let! after := merge_groups j keys
                        (groupby (List.map (fun r => (key_of keys r, r)) a2))
                        (groupby (List.map (fun r => (key_of keys r, r)) b2)) in
        Ok (Joiner_call j keys ga gb ++ after)).
    { destruct ga as [|ra ga], gb as [|rb gb]; cbn [group_of app].
      - destruct Hne; contradiction.
      - apply merge_only_second. intros g Hg. apply head_elem_of in Hg.
        rewrite Forall_forall in Ga2. apply Ga2. assumption.
      - apply merge_only_first. intros s Hs. apply head_elem_of in Hs.
        rewrite Forall_forall in Gb2. apply Gb2. assumption.
      - apply merge_matched. }
    rewrite Hmid. by_cases_on_results.
  - intros g s Hg Hs. rewrite Forall_forall in Ga1.
    eapply head_group_of_above; [apply Ga1; exact Hg | exact Gb2 | exact Hs].
  - intros h r Hh Hr. rewrite Forall_forall in Gb1.
    eapply head_group_of_above; [apply Gb1; exact Hh | exact Ga2 | exact Hr].
Qed.

(** ** Joiners *)

Lemma append_keys_no_overlap (keys : list string) (row_a row_b : row) (suffix : string)
  (r joined : row) :
  (forall c, in_intersected_keys keys row_a row_b c = false) ->
  append_keys keys row_a row_b suffix r joined = dict_update joined r.
Proof.
  intros H. unfold append_keys, dict_update. apply fold_left_ext_in.
  intros acc kv _. rewrite H. reflexivity.
Qed.

Lemma join_with_empty_right (j : Joiner) (keys : list string) (r : row) :
  is_dict r -> _join_two_rows j keys r [] = [r].
Proof.
  intros Hr. unfold _join_two_rows.
  rewrite !append_keys_no_overlap
    by (intros c; unfold in_intersected_keys; simpl; apply andb_false_r).
  unfold dict_update at 1. simpl fold_left.
  rewrite dict_update_fresh; [reflexivity | assumption |].
  intros c _. apply not_elem_of_nil.
Qed.

Lemma join_with_empty_left (j : Joiner) (keys : list string) (r : row) :
  is_dict r -> _join_two_rows j keys [] r = [r].
Proof.
  intros Hr. unfold _join_two_rows.
  rewrite !append_keys_no_overlap by (intros c; reflexivity).
  unfold dict_update at 2. simpl fold_left.
  rewrite dict_update_fresh; [reflexivity | assumption |].
  intros c _. apply not_elem_of_nil.
Qed.

Lemma flat_map_nil {A B : Type} (l : list A) : flat_map (fun _ : A => @nil B) l = [].
Proof. induction l; simpl; auto. Qed.

Lemma flat_map_singleton (f : row -> list row) (l : list row) :
  Forall (fun r => f r = [r]) l -> flat_map f l = l.
Proof. induction 1 as [|r l Hr _ IH]; simpl; [reflexivity|]. rewrite Hr, IH. reflexivity. Qed.

Lemma or_empty_row_not_nil (rows : list row) : rows <> [] -> or_empty_row rows = rows.
Proof. destruct rows; [contradiction | reflexivity]. Qed.

Lemma Joiner_call_left_only (j : Joiner) (keys : list string) (g : list row) :
  g <> [] -> Forall is_dict g ->
  Joiner_call j keys g [] = rows_for_left_only_key (joiner_class j) g.
Proof.
  intros Hne Hg. unfold Joiner_call, rows_for_left_only_key.
  assert (Hall : flat_map (fun row_a => flat_map (fun row_b => _join_two_rows j keys row_a row_b)
                                              (or_empty_row [])) g = g).
  { apply flat_map_singleton. eapply Forall_impl; [exact Hg|]. intros r Hr.
    cbn [or_empty_row flat_map]. rewrite app_nil_r. apply join_with_empty_right. assumption. }
  destruct (joiner_class j).
  - simpl. apply flat_map_nil.
  - destruct g as [|r g]; [contradiction|]. exact Hall.
  - exact Hall.
  - reflexivity.
Qed.

Lemma Joiner_call_right_only (j : Joiner) (keys : list string) (g : list row) :
  g <> [] -> Forall is_dict g ->
  Joiner_call j keys [] g = rows_for_right_only_key (joiner_class j) g.
Proof.
  intros Hne Hg. unfold Joiner_call, rows_for_right_only_key.
  destruct (joiner_class j).
  - reflexivity.
  - rewrite (or_empty_row_not_nil g Hne). change (or_empty_row []) with [@nil (string * value)].
    cbn [flat_map]. rewrite app_nil_r. apply flat_map_singleton.
    eapply Forall_impl; [exact Hg|]. intros r' Hr'. apply join_with_empty_left. assumption.
  - reflexivity.
  - apply flat_map_singleton. eapply Forall_impl; [exact Hg|]. intros r Hr.
    cbn [or_empty_row flat_map]. rewrite app_nil_r. apply join_with_empty_right. assumption.
Qed.


(** The rows a join emits for a key tuple both streams have: [InnerJoiner],
    [OuterJoiner] and [LeftJoiner] go through the left rows and, for each,
    through the right rows, and hand [_join_two_rows] the left row first;
    [RightJoiner] goes through the right rows and, for each, through the left
    rows, and hands [_join_two_rows] the right row first. *)
Lemma Join_key_on_both_sides (j : Joiner) (keys : list string) (kt : list value)
  (ga gb a1 a2 b1 b2 : list row) :
  ga <> [] -> gb <> [] ->
  keys_equal keys kt ga -> keys_equal keys kt gb ->
  keys_below keys kt a1 -> keys_above keys kt a2 ->
  keys_below keys kt b1 -> keys_above keys kt b2 ->
  Join_call j keys (a1 ++ ga ++ a2) (b1 ++ gb ++ b2)
  = (let! before := Join_call j keys a1 b1 in
     let! after := Join_call j keys a2 b2 in
     Ok (before
         ++ match joiner_class j with
            | RightJoiner =>
                flat_map (fun right =>
                  flat_map (fun left => _join_two_rows j keys right left) ga) gb
            | _ =>
                flat_map (fun left =>
                  flat_map (fun right => _join_two_rows j keys left right) gb) ga
            end
         ++ after)).
Proof.
  intros Hga Hgb Ka Kb Ha1 Ha2 Hb1 Hb2.
  rewrite (Join_call_around_key j keys kt a1 ga a2 b1 gb b2) by (try assumption; left; assumption).
  unfold Joiner_call. rewrite !or_empty_row_not_nil by assumption.
  destruct (joiner_class j); reflexivity.
Qed.

(** ** Key-sorted streams *)














(** C2 at the failing input: [RightJoiner] takes the row of the right
    stream for [row_a].  The right row's columns come first, its value gets the
    suffix of the left side, and the right rows are the outer loop. *)
Theorem RightJoiner_swaps_the_sides :
  Join_call (default_joiner RightJoiner) ["k"]
    [[("k", VInt 1); ("x", VStr "L")]] [[("k", VInt 1); ("x", VStr "R")]]
  = Ok [[("k", VInt 1); ("x_1", VStr "R"); ("x_2", VStr "L")]]
  /\ Join_call (default_joiner InnerJoiner) ["k"]
       [[("k", VInt 1); ("x", VStr "L")]] [[("k", VInt 1); ("x", VStr "R")]]
     = Ok [[("k", VInt 1); ("x_1", VStr "L"); ("x_2", VStr "R")]]
  /\ Join_call (default_joiner RightJoiner) ["k"]
       [[("k", VInt 1); ("a", VStr "L1")]; [("k", VInt 1); ("a", VStr "L2")]]
       [[("k", VInt 1); ("b", VStr "R1")]; [("k", VInt 1); ("b", VStr "R2")]]
     = Ok [[("k", VInt 1); ("b", VStr "R1"); ("a", VStr "L1")];
           [("k", VInt 1); ("b", VStr "R1"); ("a", VStr "L2")];
           [("k", VInt 1); ("b", VStr "R2"); ("a", VStr "L1")];
           [("k", VInt 1); ("b", VStr "R2"); ("a", VStr "L2")]].
Proof. repeat split; vm_compute; reflexivity. Qed.

(** ** The stable sort *)

Section StableSort.
Context {K A : Type} `{EqDecision K}.
Variable lt : K -> K -> result bool.
Hypothesis lt_trans : forall a b c, lt a b = Ok true -> lt b c = Ok true -> lt a c = Ok true.
Hypothesis lt_asym : forall a b, lt a b = Ok true -> lt b a = Ok false.
Hypothesis lt_total : forall a b, lt a b = Ok false -> lt b a = Ok false -> a = b.

Lemma insert_sorted_Permutation (x : K * A) (l l' : list (K * A)) :
  insert_sorted lt x l = Ok l' -> Permutation (x :: l) l'.
Proof.
  revert l'. induction l as [|y l IH]; intros l' H; simpl in H.
  - injection H as <-. reflexivity.
  - apply bind_Ok in H as (b & Hb & H). destruct b.
    + apply bind_Ok in H as (l'' & Hl'' & H). injection H as <-.
      rewrite perm_swap. constructor. apply IH. assumption.
    + injection H as <-. reflexivity.
Qed.

Lemma stable_sort_Permutation (l l' : list (K * A)) :
  stable_sort lt l = Ok l' -> Permutation l l'.
Proof.
  revert l'. induction l as [|x l IH]; intros l' H; simpl in H.
  - injection H as <-. reflexivity.
  - apply bind_Ok in H as (s & Hs & H).
    rewrite <- (insert_sorted_Permutation x s l' H). constructor. apply IH. assumption.
Qed.

Lemma insert_sorted_Ok (x : K * A) (l : list (K * A)) :
  (forall y, y ∈ l -> exists b, lt (fst y) (fst x) = Ok b) ->
  exists l', insert_sorted lt x l = Ok l'.
Proof.
  induction l as [|y l IH]; intros H; simpl; [eauto|].
  destruct (H y) as [b Hb]; [left|]. rewrite Hb. cbn [bind]. destruct b; [|eauto].
  destruct IH as [l' Hl']; [intros z Hz; apply H; right; assumption|].
  rewrite Hl'. cbn [bind]. eauto.
Qed.

Lemma comparable_cons (x : K * A) (l : list (K * A)) :
  comparable lt (x :: l) -> comparable lt l.
Proof. intros H y z Hy Hz. apply H; right; assumption. Qed.

Lemma stable_sort_Ok (l : list (K * A)) :
  comparable lt l -> exists l', stable_sort lt l = Ok l'.
Proof.
  induction l as [|x l IH]; intros H; simpl; [eauto|].
  destruct (IH (comparable_cons x l H)) as [s Hs]. rewrite Hs. cbn [bind].
  apply insert_sorted_Ok. intros y Hy. apply H; [right | left].
  rewrite (stable_sort_Permutation l s Hs). assumption.
Qed.

Lemma not_after_trans (x y z : K * A) :
  (exists b, lt (fst x) (fst y) = Ok b) -> (exists b, lt (fst z) (fst x) = Ok b) ->
  not_after lt x y -> not_after lt y z -> not_after lt x z.
Proof.
  unfold not_after. intros [b Hxy] [b' Hzx] Hyx Hzy.
  destruct b'; [exfalso | assumption].
  destruct b.
  - pose proof (lt_trans _ _ _ Hzx Hxy). congruence.
  - pose proof (lt_total _ _ Hxy Hyx) as Heq. rewrite Heq in Hzx. congruence.
Qed.

Lemma insert_sorted_StronglySorted (x : K * A) (l l' : list (K * A)) :
  comparable lt (x :: l) ->
  StronglySorted (not_after lt) l ->
  insert_sorted lt x l = Ok l' ->
  StronglySorted (not_after lt) l'.
Proof.
  revert l'. induction l as [|y l IH]; intros l' Hc Hs H; simpl in H.
  - injection H as <-. repeat constructor.
  - apply StronglySorted_cons in Hs as [Hy Hs].
    apply bind_Ok in H as (b & Hb & H). destruct b.
    + apply bind_Ok in H as (l'' & Hl'' & H). injection H as <-.
      apply StronglySorted_cons. split.
      * apply Forall_forall. intros z Hz.
        rewrite <- (insert_sorted_Permutation x l l'' Hl'') in Hz.
        apply elem_of_cons in Hz as [->|Hz].
        -- apply lt_asym. assumption.
        -- rewrite Forall_forall in Hy. apply Hy. assumption.
      * apply IH; [|assumption..].
        intros a b Ha Hb'. apply Hc.
        -- apply elem_of_cons in Ha as [->|Ha]; [left | right; right; assumption].
        -- apply elem_of_cons in Hb' as [->|Hb']; [left | right; right; assumption].
    + injection H as <-. apply StronglySorted_cons. split.
      * constructor; [exact Hb|].
        apply Forall_forall. intros z Hz. rewrite Forall_forall in Hy.
        apply (not_after_trans x y z).
        -- apply Hc; [left | right; left].
        -- apply Hc; [right; right; assumption | left].
        -- exact Hb.
        -- apply Hy. assumption.
      * apply StronglySorted_cons. split; [apply Forall_forall; rewrite Forall_forall in Hy|]; assumption.
Qed.

Lemma stable_sort_StronglySorted (l l' : list (K * A)) :
  comparable lt l -> stable_sort lt l = Ok l' -> StronglySorted (not_after lt) l'.
Proof.
  revert l'. induction l as [|x l IH]; intros l' Hc H; simpl in H.
  - injection H as <-. constructor.
  - apply bind_Ok in H as (s & Hs & H).
    apply (insert_sorted_StronglySorted x s l'); [|eauto using comparable_cons|assumption].
    intros a b Ha Hb. apply Hc.
    + apply elem_of_cons in Ha as [->|Ha]; [left | right].
      rewrite (stable_sort_Permutation l s Hs). assumption.
    + apply elem_of_cons in Hb as [->|Hb]; [left | right].
      rewrite (stable_sort_Permutation l s Hs). assumption.
Qed.

Lemma lt_irrefl (a : K) : lt a a <> Ok true.
Proof. intros H. pose proof (lt_asym a a H). congruence. Qed.

Lemma insert_sorted_with_key (k : K) (x : K * A) (l l' : list (K * A)) :
  insert_sorted lt x l = Ok l' -> with_key k l' = with_key k (x :: l).
Proof.
  revert l'. induction l as [|y l IH]; intros l' H; simpl in H.
  - injection H as <-. reflexivity.
  - apply bind_Ok in H as (b & Hb & H). destruct b; [|injection H as <-; reflexivity].
    apply bind_Ok in H as (l'' & Hl'' & H). injection H as <-.
    assert (Hne : fst y <> fst x).
    { intros Heq. rewrite Heq in Hb. exact (lt_irrefl _ Hb). }
    unfold with_key in *. cbn [List.filter]. rewrite (IH l'' Hl''). cbn [List.filter].
    repeat case_bool_decide; congruence.
Qed.

Lemma stable_sort_with_key (k : K) (l l' : list (K * A)) :
  stable_sort lt l = Ok l' -> with_key k l' = with_key k l.
Proof.
  revert l'. induction l as [|x l IH]; intros l' H; simpl in H.
  - injection H as <-. reflexivity.
  - apply bind_Ok in H as (s & Hs & H).
    rewrite (insert_sorted_with_key k x s l' H). unfold with_key in *. cbn [List.filter].
    rewrite (IH s Hs). reflexivity.
Qed.

End StableSort.

(** ** The order of sort keys *)

Lemma sort_key_lt_trans (a b c : sort_key) :
  sort_key_lt a b = Ok true -> sort_key_lt b c = Ok true -> sort_key_lt a c = Ok true.
Proof.
  destruct a, b, c; simpl; try discriminate; [apply py_lt_trans | apply tuple_lt_trans].
Qed.

Lemma sort_key_lt_asym (a b : sort_key) :
  sort_key_lt a b = Ok true -> sort_key_lt b a = Ok false.
Proof.
  destruct a, b; simpl; try discriminate; [apply py_lt_asym | apply tuple_lt_asym].
Qed.

Lemma sort_key_lt_total (a b : sort_key) :
  sort_key_lt a b = Ok false -> sort_key_lt b a = Ok false -> a = b.
Proof.
  destruct a, b; simpl; try discriminate; intros H1 H2; f_equal;
    [apply py_lt_total | apply tuple_lt_total]; assumption.
Qed.

(** ** list.sort *)

Section ListSort.
Variable key : row -> result sort_key.
Variable skey : row -> sort_key.
Variable rows : list row.
Hypothesis key_Ok : forall r, r ∈ rows -> key r = Ok (skey r).
Hypothesis key_comparable :
  forall r1 r2, r1 ∈ rows -> r2 ∈ rows -> exists b, sort_key_lt (skey r1) (skey r2) = Ok b.

Lemma decorated_rows :
  try_map (fun r => let! k := key r in Ok (k, r)) rows = Ok (List.map (decorate skey) rows).
Proof.
  apply try_map_pure. apply Forall_forall. intros r Hr.
  rewrite (key_Ok r Hr). reflexivity.
Qed.

Lemma comparable_decorated (l : list row) :
  (forall r, r ∈ l -> r ∈ rows) -> comparable sort_key_lt (List.map (decorate skey) l).
Proof.
  intros Hl x y Hx Hy.
  apply list_elem_of_In, in_map_iff in Hx as (r1 & <- & H1).
  apply list_elem_of_In, in_map_iff in Hy as (r2 & <- & H2).
  apply key_comparable; apply Hl; apply list_elem_of_In; assumption.
Qed.

(** The sort of the decorated rows, in terms of the rows alone. *)
Lemma stable_sort_decorated (l : list row) :
  (forall r, r ∈ l -> r ∈ rows) ->
  exists t,
    stable_sort sort_key_lt (List.map (decorate skey) l) = Ok (List.map (decorate skey) t)
    /\ Permutation l t
    /\ StronglySorted (fun r1 r2 => sort_key_lt (skey r2) (skey r1) = Ok false) t
    /\ (forall k, List.filter (fun r => bool_decide (skey r = k)) t
                  = List.filter (fun r => bool_decide (skey r = k)) l).
Proof.
  intros Hl.
  pose proof (comparable_decorated l Hl) as Hc.
  destruct (stable_sort_Ok sort_key_lt (List.map (decorate skey) l) Hc) as [s Hs].
  pose proof (stable_sort_Permutation sort_key_lt _ _ Hs) as Hperm.
  assert (Hshape : Forall (fun p => p = (decorate skey) (snd p)) s).
  { rewrite <- Hperm. apply Forall_forall. intros p Hp.
    apply list_elem_of_In, in_map_iff in Hp as (r & <- & _). reflexivity. }
  assert (Hs' : s = List.map (decorate skey) (List.map snd s)).
  { clear -Hshape. induction Hshape as [|p s Hp _ IH]; simpl; [reflexivity|].
    rewrite <- IH, <- Hp. reflexivity. }
  exists (List.map snd s). split; [rewrite <- Hs'; assumption|]. split; [|split].
  - apply (Permutation_map snd) in Hperm. rewrite List.map_map in Hperm. simpl in Hperm.
    rewrite List.map_id in Hperm. assumption.
  - apply (StronglySorted_map_inv (not_after sort_key_lt) (decorate skey)). rewrite <- Hs'.
    apply (stable_sort_StronglySorted sort_key_lt
             sort_key_lt_trans sort_key_lt_asym sort_key_lt_total _ _ Hc Hs).
  - intros k.
    pose proof (stable_sort_with_key sort_key_lt sort_key_lt_asym k _ _ Hs) as Hk.
    unfold with_key in Hk. rewrite Hs' in Hk at 1.
    rewrite !filter_map_decorated in Hk. simpl in Hk.
    apply (f_equal (List.map snd)) in Hk. rewrite !List.map_map in Hk. simpl in Hk.
    rewrite !List.map_id in Hk. rewrite filter_map_decorated. exact Hk.
Qed.

Lemma list_sort_sorts (reverse : bool) :
  exists out,
    list_sort key reverse rows = Ok out
    /\ Permutation rows out
    /\ StronglySorted
         (fun r1 r2 => (if reverse then sort_key_lt (skey r1) (skey r2)
                        else sort_key_lt (skey r2) (skey r1)) = Ok false) out
    /\ (forall k, List.filter (fun r => bool_decide (skey r = k)) out
                  = List.filter (fun r => bool_decide (skey r = k)) rows).
Proof.
  unfold list_sort. rewrite decorated_rows. cbn [bind]. destruct reverse.
  - rewrite <- List.map_rev.
    destruct (stable_sort_decorated (rev rows)) as (t & Hs & Hperm & Hsorted & Hstable).
    { intros r Hr. apply list_elem_of_In. apply in_rev. apply list_elem_of_In. assumption. }
    rewrite Hs. cbn [bind]. rewrite <- List.map_rev, List.map_map. simpl. rewrite List.map_id.
    exists (rev t). split; [reflexivity|]. split; [|split].
    + rewrite <- (Permutation_rev t), <- Hperm. apply Permutation_rev.
    + apply (StronglySorted_rev _ _ Hsorted).
    + intros k. rewrite List.filter_rev, Hstable, List.filter_rev, rev_involutive. reflexivity.
  - destruct (stable_sort_decorated rows) as (t & Hs & Hperm & Hsorted & Hstable); [auto|].
    rewrite Hs. cbn [bind]. rewrite List.map_map. simpl. rewrite List.map_id.
    exists t. auto.
Qed.

End ListSort.

(** ** ExternalSort *)

Lemma recv_rows_sent (rows : list row) : recv_rows (List.map Some rows ++ [None]) = Ok rows.
Proof.
  induction rows as [|r rows IH]; simpl; [reflexivity|]. rewrite IH. reflexivity.
Qed.

Lemma itemgetter_Ok (keys : list string) :
  keys <> [] -> exists key, itemgetter keys = Ok key.
Proof.
  destruct keys as [|k [|k' keys]]; [contradiction | simpl; eauto..].
Qed.

Lemma mutually_comparable_Forall (keys : list string) (rows : list row) :
  Forall (fun r1 =>
    Forall (fun r2 =>
      exists k1 k2 b,
        sort_key_of keys r1 = Ok k1 /\ sort_key_of keys r2 = Ok k2
        /\ sort_key_lt k1 k2 = Ok b) rows) rows ->
  mutually_comparable keys rows.
Proof.
  intros H r1 r2 H1 H2. rewrite Forall_forall in H. specialize (H r1 H1).
  rewrite Forall_forall in H. apply H. assumption.
Qed.




(** Keys that [<] cannot compare make the helper raise too, as [None] does. *)
Example ExternalSort_None_keys_fail :
  ExternalSort_call ["a"] false [[("a", VNone)]; [("a", VNone)]] = Err HelperFailure.
Proof. vm_compute. reflexivity. Qed.

(** ** The scenarios of the specification *)

Example scenario_C_inner_join_disjoint :
  Join_call (default_joiner InnerJoiner) ["k"]
    [[("k", VInt 1); ("v", VStr "L")]] [[("k", VInt 2); ("v", VStr "R")]]
  = Ok [].
Proof. vm_compute. reflexivity. Qed.

Example scenario_E_outer_join :
  Join_call (default_joiner OuterJoiner) ["k"]
    [[("k", VInt 1); ("v", VInt 10)]] [[("k", VInt 2); ("w", VInt 20)]]
  = Ok [[("k", VInt 1); ("v", VInt 10)]; [("k", VInt 2); ("w", VInt 20)]].
Proof. vm_compute. reflexivity. Qed.

Example scenario_B_through_the_graph :
  let '(h, texts) := Graph.graph_from_iter "texts" [] in
  let '(h, counted) := Graph.reduce texts (Count "n") [] h in
  Graph.run 3 h (mkInputs [("texts", [])] []) counted
  = ([counted; texts], Stream (Ok [])).
Proof. vm_compute. reflexivity. Qed.

(** * Further properties *)

(** ** Map and the mappers *)

Lemma app_res_assoc {A : Type} (m1 m2 m3 : result (list A)) :
  app_res (app_res m1 m2) m3 = app_res m1 (app_res m2 m3).
Proof.
  destruct m1 as [xs|]; [|reflexivity]. destruct m2 as [ys|]; [|reflexivity].
  destruct m3 as [zs|]; [|reflexivity]. unfold app_res; simpl. rewrite app_assoc. reflexivity.
Qed.

Lemma app_res_nil_l {A : Type} (m : result (list A)) : app_res (Ok []) m = m.
Proof. destruct m; reflexivity. Qed.

Lemma Map_call_with (m : Mapper) (rows : list row) :
  Map_call m rows = Map_with (Mapper_call m) rows.
Proof. induction rows as [|r rows IH]; simpl; [reflexivity|]. rewrite IH. reflexivity. Qed.

Lemma Map_with_app (mapper : row -> result (list row)) (a b : list row) :
  Map_with mapper (a ++ b) = app_res (Map_with mapper a) (Map_with mapper b).
Proof.
  induction a as [|r a IH]; cbn [app Map_with].
  - rewrite app_res_nil_l. reflexivity.
  - rewrite IH, app_res_assoc. reflexivity.
Qed.

(** A mapper that gives one row for every row. *)
Lemma Map_with_pure (mapper : row -> result (list row)) (f : row -> row) (rows : list row) :
  Forall (fun r => mapper r = Ok [f r]) rows ->
  Map_with mapper rows = Ok (List.map f rows).
Proof.
  induction 1 as [|r rows Hr _ IH]; simpl; [reflexivity|]. rewrite Hr, IH. reflexivity.
Qed.

(** The rows a map emits all come from the mapper, called on a row of the
    stream. *)
Lemma Map_with_Ok_inv (mapper : row -> result (list row)) (rows out : list row) :
  Map_with mapper rows = Ok out ->
  Forall (fun o => exists r emitted, r ∈ rows /\ mapper r = Ok emitted /\ o ∈ emitted) out.
Proof.
  revert out. induction rows as [|r rows IH]; simpl; intros out H.
  - injection H as <-. constructor.
  - unfold app_res in H. apply bind_Ok in H as (xs & Hxs & H).
    apply bind_Ok in H as (ys & Hys & H). injection H as <-.
    apply Forall_app. split.
    + apply Forall_forall. intros o Ho. exists r, xs. split; [left | split; assumption].
    + eapply Forall_impl; [apply IH; assumption|].
      intros o (r' & emitted & Hr' & Hm & Ho). exists r', emitted.
      split; [right; assumption | split; assumption].
Qed.

(** X1. A map with [DummyMapper] yields the stream it is given, row for row
    and in order. *)
Theorem Map_DummyMapper_identity (rows : list row) : Map_call DummyMapper rows = Ok rows.
Proof.
  rewrite Map_call_with, (Map_with_pure _ (fun r => r)).
  - rewrite List.map_id. reflexivity.
  - apply Forall_forall. reflexivity.
Qed.

(** X2. A map with [Filter] yields the rows that satisfy the condition, in
    their order, and nothing else; two filters one after the other are the
    filter of both conditions. *)
Theorem Map_Filter_filters (p q : row -> bool) (rows : list row) :
  Map_call (Filter p) rows = Ok (List.filter p rows)
  /\ (let! once := Map_call (Filter p) rows in Map_call (Filter q) once)
     = Map_call (Filter (fun r => p r && q r)) rows.
Proof.
  assert (H : forall c l, Map_call (Filter c) l = Ok (List.filter c l)).
  { intros c l. induction l as [|r l IH]; simpl; [reflexivity|].
    rewrite IH. unfold Filter_call. destruct (c r); reflexivity. }
  split; [apply H|]. rewrite !H. cbn [bind]. rewrite H. f_equal.
  induction rows as [|r rows IH]; simpl; [reflexivity|].
  destruct (p r); simpl; [destruct (q r); simpl|]; rewrite IH; reflexivity.
Qed.

(** X3. A map works row by row: on two streams put end to end it yields what
    it yields on the first, then what it yields on the second, and an
    exception in the first part ends the whole. *)
Theorem Map_call_app (m : Mapper) (a b : list row) :
  Map_call m (a ++ b) = app_res (Map_call m a) (Map_call m b).
Proof. rewrite !Map_call_with. apply Map_with_app. Qed.

Lemma Project_row_narrow (cols1 cols2 : list string) (r : row) :
  (forall c, c ∈ cols2 -> c ∈ cols1) ->
  Project_row cols2 (Project_row cols1 r) = Project_row cols2 r.
Proof.
  intros Hsub. rewrite (Project_row_fold cols2 (Project_row cols1 r)), (Project_row_fold cols2 r).
  apply fold_left_ext_in. intros acc c Hc. f_equal.
  unfold value_or_None at 1. rewrite Project_row_get.
  destruct (decide (c ∈ cols1)) as [_|Hn]; [reflexivity|]. exfalso. apply Hn, Hsub, Hc.
Qed.

(** X4. Projecting on columns and then on some of them is projecting on the
    latter at once. *)
Theorem Project_after_Project (cols1 cols2 : list string) (rows : list row) :
  (forall c, c ∈ cols2 -> c ∈ cols1) ->
  (let! once := Map_call (Project cols1) rows in Map_call (Project cols2) once)
  = Map_call (Project cols2) rows.
Proof.
  intros Hsub. rewrite !Map_Project_rows. cbn [bind]. rewrite Map_Project_rows. f_equal.
  rewrite List.map_map. apply List.map_ext. intros r. apply Project_row_narrow. assumption.
Qed.

Lemma Project_after_Project_witness :
  (let! once := Map_call (Project ["a"; "b"; "c"]) [[("b", VInt 2); ("z", VInt 9)]] in
   Map_call (Project ["c"; "b"]) once)
  = Map_call (Project ["c"; "b"]) [[("b", VInt 2); ("z", VInt 9)]].
Proof.
  apply (Project_after_Project ["a"; "b"; "c"] ["c"; "b"]).
  intros c Hc. apply elem_of_cons in Hc as [->|Hc]; [compute_done|].
  apply list_elem_of_singleton in Hc as ->. compute_done.
Defined.

Lemma dict_set_same (d : row) (k : string) (v : value) :
  dict_get d k = Some v -> dict_set d k v = d.
Proof.
  induction d as [|[k' v'] d IH]; simpl; [discriminate|].
  destruct (decide (k' = k)) as [->|Hne]; intros H; [congruence|].
  rewrite IH by assumption. reflexivity.
Qed.

Lemma dict_set_set (d : row) (k : string) (v w : value) :
  dict_set (dict_set d k v) k w = dict_set d k w.
Proof.
  induction d as [|[k' v'] d IH]; simpl.
  - destruct (decide (k = k)); [reflexivity | contradiction].
  - destruct (decide (k' = k)) as [->|Hne]; simpl.
    + destruct (decide (k = k)); [reflexivity | contradiction].
    + destruct (decide (k' = k)); [contradiction|]. rewrite IH. reflexivity.
Qed.

Lemma dict_getitem_Ok (d : row) (k : string) (v : value) :
  dict_getitem d k = Ok v <-> dict_get d k = Some v.
Proof. unfold dict_getitem. destruct (dict_get d k); split; congruence. Qed.

(** ** Split *)

(** The rows [Split] emits for a row. *)
Lemma Split_call_Ok_inv (column : string) (sep : option string) (r : row) (out : list row) :
  Split_call column sep r = Ok out ->
  exists text,
    dict_get r column = Some (VStr text)
    /\ out = List.map (fun token => dict_set r column (VStr token))
                      (re_split_nonword text EmptyString false).
Proof.
  unfold Split_call, dict_getitem. destruct (dict_get r column) as [[| |text]|]; simpl;
    try discriminate.
  intros H. injection H as <-. eauto.
Qed.

Lemma Split_call_token_row (column : string) (sep : option string) (r : row) (token : string) :
  string_forall is_word_char token = true ->
  Split_call column sep (dict_set r column (VStr token)) = Ok [dict_set r column (VStr token)].
Proof.
  intros H. unfold Split_call, dict_getitem. rewrite dict_get_set_eq. cbn [bind].
  rewrite (re_split_nonword_word token H), append_Empty_l. simpl. rewrite dict_set_set.
  reflexivity.
Qed.

(** X5. [Split] is idempotent on streams: a row it emitted holds one token,
    and splitting it again yields that row and no other. *)
Theorem Map_Split_idempotent (column : string) (sep1 sep2 : option string) (rows : list row) :
  (let! once := Map_call (Split column sep1) rows in Map_call (Split column sep2) once)
  = Map_call (Split column sep1) rows.
Proof.
  destruct (Map_call (Split column sep1) rows) as [out|e] eqn:E; [|reflexivity].
  cbn [bind]. rewrite Map_call_with in *. rewrite (Map_with_pure _ (fun r => r)).
  - rewrite List.map_id. reflexivity.
  - eapply Forall_impl; [apply (Map_with_Ok_inv _ _ _ E)|].
    intros o (r & emitted & _ & Hcall & Ho). simpl in Hcall.
    apply Split_call_Ok_inv in Hcall as (text & _ & ->).
    apply list_elem_of_In, in_map_iff in Ho as (token & <- & Htoken).
    apply Split_call_token_row.
    pose proof (re_split_nonword_tokens text EmptyString false eq_refl) as Hall.
    rewrite Forall_forall in Hall. apply Hall. apply list_elem_of_In. assumption.
Qed.

(** X6. [Split] emits at least one row for a row it accepts, and a row it
    emits has the columns of the input row, in the same order, with the same
    values in every column but the one that is split. *)
Theorem Split_touches_one_column (column : string) (sep : option string) (r : row)
  (out : list row) :
  Mapper_call (Split column sep) r = Ok out ->
  out <> []
  /\ Forall (fun o => columns o = columns r
                      /\ forall c, c <> column -> dict_get o c = dict_get r c) out.
Proof.
  simpl. intros H. apply Split_call_Ok_inv in H as (text & Hget & ->). split.
  - pose proof (re_split_nonword_not_nil text EmptyString false) as Hne.
    destruct (re_split_nonword text EmptyString false); [contradiction | discriminate].
  - apply Forall_forall. intros o Ho.
    apply list_elem_of_In, in_map_iff in Ho as (token & <- & _). split.
    + apply columns_dict_set_present. eapply dict_get_Some_in. eassumption.
    + intros c Hc. apply dict_get_set_ne. congruence.
Qed.

Lemma Split_touches_one_column_witness :
  [[("doc", VInt 1); ("text", VStr "a")]; [("doc", VInt 1); ("text", VStr "b")]] <> []
  /\ Forall (fun o => columns o = columns [("doc", VInt 1); ("text", VStr "a b")]
                      /\ forall c, c <> "text" ->
                           dict_get o c = dict_get [("doc", VInt 1); ("text", VStr "a b")] c)
            [[("doc", VInt 1); ("text", VStr "a")]; [("doc", VInt 1); ("text", VStr "b")]].
Proof.
  apply (Split_touches_one_column "text" None [("doc", VInt 1); ("text", VStr "a b")]).
  reflexivity.
Defined.

(** ** FilterPunctuation and LowerCase *)

Lemma lower_char_keeps_class (c : ascii) :
  is_letter_or_space (lower_char c) = is_letter_or_space c.
Proof. destruct c as [[] [] [] [] [] [] [] []]; reflexivity. Qed.

Lemma lower_char_idempotent (c : ascii) : lower_char (lower_char c) = lower_char c.
Proof. destruct c as [[] [] [] [] [] [] [] []]; reflexivity. Qed.

Lemma lower_char_small (c : ascii) :
  is_letter_or_space c = true -> is_small_letter_or_space (lower_char c) = true.
Proof. destruct c as [[] [] [] [] [] [] [] []]; simpl; intros H; solve [reflexivity | discriminate]. Qed.

Lemma string_filter_map_lower (s : string) :
  string_filter is_letter_or_space (string_map lower_char s)
  = string_map lower_char (string_filter is_letter_or_space s).
Proof.
  induction s as [|c s IH]; simpl; [reflexivity|].
  rewrite lower_char_keeps_class. destruct (is_letter_or_space c); simpl; rewrite IH; reflexivity.
Qed.

Lemma string_filter_idempotent (p : ascii -> bool) (s : string) :
  string_filter p (string_filter p s) = string_filter p s.
Proof.
  induction s as [|c s IH]; simpl; [reflexivity|].
  destruct (p c) eqn:E; simpl; [rewrite E, IH; reflexivity | exact IH].
Qed.

Lemma string_map_lower_idempotent (s : string) :
  string_map lower_char (string_map lower_char s) = string_map lower_char s.
Proof.
  induction s as [|c s IH]; simpl; [reflexivity|]. rewrite lower_char_idempotent, IH. reflexivity.
Qed.

Lemma string_filter_forall (p : ascii -> bool) (s : string) :
  string_forall p (string_filter p s) = true.
Proof.
  induction s as [|c s IH]; simpl; [reflexivity|].
  destruct (p c) eqn:E; simpl; [rewrite E|]; exact IH.
Qed.

Lemma cleaned_text_small (s : string) :
  string_forall is_small_letter_or_space
    (string_map lower_char (string_filter is_letter_or_space s)) = true.
Proof.
  induction s as [|c s IH]; simpl; [reflexivity|].
  destruct (is_letter_or_space c) eqn:E; simpl; [|exact IH].
  rewrite (lower_char_small c E), IH. reflexivity.
Qed.

(** What a mapper that rewrites the text of one column does to a row. *)
Lemma text_mapper_twice (column : string) (f g : string -> string) (r : row) :
  (let! once :=
     (let! v := dict_getitem r column in
      match v with
      | VStr text => Ok [dict_set r column (VStr (f text))]
      | _ => Err RowError
      end) in
   Map_with (fun r' =>
     let! v := dict_getitem r' column in
     match v with
     | VStr text => Ok [dict_set r' column (VStr (g text))]
     | _ => Err RowError
     end) once)
  = (let! v := dict_getitem r column in
     match v with
     | VStr text => Ok [dict_set r column (VStr (g (f text)))]
     | _ => Err RowError
     end).
Proof.
  unfold dict_getitem. destruct (dict_get r column) as [[| |text]|]; try reflexivity.
  cbn [bind Map_with]. rewrite dict_get_set_eq. cbn [bind]. rewrite dict_set_set. reflexivity.
Qed.

(** X7. On a row whose column holds a text, [FilterPunctuation] and
    [LowerCase] on that column can be applied in either order: both orders
    emit the same single row, and its text is made of the small letters a to
    z and spaces only.  The texts are those of this development, strings of
    characters below code point 256; nothing is said of other characters, nor
    of the rows that the mappers refuse. *)
Theorem FilterPunctuation_LowerCase_commute (column : string) (r : row) (text : string) :
  dict_get r column = Some (VStr text) ->
  exists cleaned,
    (let! once := FilterPunctuation_call column r in
     Map_with (LowerCase_call column) once)
    = Ok [dict_set r column (VStr cleaned)]
    /\ (let! once := LowerCase_call column r in
        Map_with (FilterPunctuation_call column) once)
       = Ok [dict_set r column (VStr cleaned)]
    /\ string_forall is_small_letter_or_space cleaned = true.
Proof.
  intros Hget.
  assert (H1 :
    (let! once := FilterPunctuation_call column r in Map_with (LowerCase_call column) once)
    = (let! v := dict_getitem r column in
       match v with
       | VStr text => Ok [dict_set r column (VStr (string_map lower_char (string_filter is_letter_or_space text)))]
       | _ => Err RowError
       end))
    by exact (text_mapper_twice column _ _ r).
  assert (H2 :
    (let! once := LowerCase_call column r in Map_with (FilterPunctuation_call column) once)
    = (let! v := dict_getitem r column in
       match v with
       | VStr text => Ok [dict_set r column (VStr (string_filter is_letter_or_space (string_map lower_char text)))]
       | _ => Err RowError
       end))
    by exact (text_mapper_twice column _ _ r).
  exists (string_map lower_char (string_filter is_letter_or_space text)).
  rewrite H1, H2. unfold dict_getitem. rewrite Hget. cbn [bind].
  split; [reflexivity|]. split; [|apply cleaned_text_small].
  rewrite string_filter_map_lower. reflexivity.
Qed.

Lemma FilterPunctuation_LowerCase_commute_witness :
  exists cleaned,
    (let! once := FilterPunctuation_call "text" [("text", VStr "A, b.")] in
     Map_with (LowerCase_call "text") once)
    = Ok [dict_set [("text", VStr "A, b.")] "text" (VStr cleaned)]
    /\ (let! once := LowerCase_call "text" [("text", VStr "A, b.")] in
        Map_with (FilterPunctuation_call "text") once)
       = Ok [dict_set [("text", VStr "A, b.")] "text" (VStr cleaned)]
    /\ string_forall is_small_letter_or_space cleaned = true.
Proof.
  apply (FilterPunctuation_LowerCase_commute "text" [("text", VStr "A, b.")] "A, b.").
  reflexivity.
Defined.

(** X8. [FilterPunctuation] and [LowerCase] are idempotent: applied to the
    row they emitted they emit it again, and they fail where one application
    fails. *)
Theorem text_cleaners_idempotent (column : string) (r : row) :
  (let! once := FilterPunctuation_call column r in
   Map_with (FilterPunctuation_call column) once)
  = FilterPunctuation_call column r
  /\ (let! once := LowerCase_call column r in Map_with (LowerCase_call column) once)
     = LowerCase_call column r.
Proof.
  assert (H1 :
    (let! once := FilterPunctuation_call column r in Map_with (FilterPunctuation_call column) once)
    = (let! v := dict_getitem r column in
       match v with
       | VStr text => Ok [dict_set r column (VStr (string_filter is_letter_or_space (string_filter is_letter_or_space text)))]
       | _ => Err RowError
       end))
    by exact (text_mapper_twice column _ _ r).
  assert (H2 :
    (let! once := LowerCase_call column r in Map_with (LowerCase_call column) once)
    = (let! v := dict_getitem r column in
       match v with
       | VStr text => Ok [dict_set r column (VStr (string_map lower_char (string_map lower_char text)))]
       | _ => Err RowError
       end))
    by exact (text_mapper_twice column _ _ r).
  split.
  - rewrite H1. unfold FilterPunctuation_call, dict_getitem.
    destruct (dict_get r column) as [[| |text]|]; try reflexivity.
    cbn [bind]. rewrite string_filter_idempotent. reflexivity.
  - rewrite H2. unfold LowerCase_call, dict_getitem.
    destruct (dict_get r column) as [[| |text]|]; try reflexivity.
    cbn [bind]. rewrite string_map_lower_idempotent. reflexivity.
Qed.

(** ** RenameColumn *)

Lemma dict_get_del_ne (d : row) (k c : string) :
  k <> c -> dict_get (dict_del d k) c = dict_get d c.
Proof.
  intros Hne. induction d as [|[k' v'] d IH]; simpl; [reflexivity|].
  destruct (decide (k' = k)) as [->|Hk]; simpl.
  - destruct (decide (k = c)); [contradiction | reflexivity].
  - destruct (decide (k' = c)); [reflexivity | exact IH].
Qed.

Lemma columns_dict_del_subset (d : row) (k c : string) :
  c ∈ columns (dict_del d k) -> c ∈ columns d.
Proof.
  induction d as [|[k' v'] d IH]; simpl; [auto|].
  destruct (decide (k' = k)); simpl.
  - intros H. right. assumption.
  - intros H. apply elem_of_cons in H as [->|H]; [left | right; auto].
Qed.

Lemma is_dict_dict_del (d : row) (k : string) : is_dict d -> is_dict (dict_del d k).
Proof.
  unfold is_dict. induction d as [|[k' v'] d IH]; simpl; intros H; [assumption|].
  apply NoDup_cons in H as [Hk H]. destruct (decide (k' = k)); [assumption|].
  simpl. apply NoDup_cons. split; [|apply IH; assumption].
  intros Hin. apply Hk. eapply columns_dict_del_subset. eassumption.
Qed.

Lemma dict_get_del_eq (d : row) (k : string) : is_dict d -> dict_get (dict_del d k) k = None.
Proof.
  unfold is_dict. induction d as [|[k' v'] d IH]; simpl; intros H; [reflexivity|].
  apply NoDup_cons in H as [Hk H]. destruct (decide (k' = k)) as [->|Hne]; simpl.
  - apply dict_get_None. assumption.
  - destruct (decide (k' = k)); [contradiction|]. apply IH. assumption.
Qed.

Lemma RenameColumn_call_Ok (column new_column : string) (r : row) (v : value) :
  dict_get r column = Some v ->
  RenameColumn_call column new_column r = Ok [dict_set (dict_del r column) new_column v].
Proof.
  intros H. unfold RenameColumn_call, dict_delitem, dict_contains, dict_getitem.
  rewrite H. reflexivity.
Qed.

(** X9. [RenameColumn] on a row that has the column emits one row, a dict
    again, in which the new column holds the value the old one held, the old
    column is gone (unless it is the new one), and every other column holds
    what it held. *)
Theorem RenameColumn_moves_the_value (column new_column : string) (r : row) (v : value) :
  is_dict r ->
  dict_get r column = Some v ->
  exists o,
    RenameColumn_call column new_column r = Ok [o]
    /\ is_dict o
    /\ dict_get o new_column = Some v
    /\ (column <> new_column -> dict_get o column = None)
    /\ (forall c, c <> column -> c <> new_column -> dict_get o c = dict_get r c).
Proof.
  intros Hr Hget. eexists. split; [apply RenameColumn_call_Ok; eassumption|].
  split; [apply is_dict_dict_set, is_dict_dict_del; assumption|].
  split; [apply dict_get_set_eq|]. split.
  - intros Hne. rewrite dict_get_set_ne by congruence. apply dict_get_del_eq. assumption.
  - intros c Hc Hc'. rewrite dict_get_set_ne by congruence. apply dict_get_del_ne. congruence.
Qed.

Lemma RenameColumn_moves_the_value_witness :
  exists o,
    RenameColumn_call "n" "total" [("n", VInt 3); ("doc", VInt 1)] = Ok [o]
    /\ is_dict o
    /\ dict_get o "total" = Some (VInt 3)
    /\ ("n" <> "total" -> dict_get o "n" = None)
    /\ (forall c, c <> "n" -> c <> "total" ->
          dict_get o c = dict_get [("n", VInt 3); ("doc", VInt 1)] c).
Proof.
  apply (RenameColumn_moves_the_value "n" "total" [("n", VInt 3); ("doc", VInt 1)] (VInt 3)).
  - compute_done.
  - reflexivity.
Defined.

(** X10. Renaming a column to a name the row does not have and renaming it
    back gives a row that holds, column for column, what the row held (the
    column now comes last). *)
Theorem RenameColumn_round_trip (column new_column : string) (r : row) (v : value) :
  is_dict r ->
  dict_get r column = Some v ->
  dict_get r new_column = None ->
  exists o,
    (let! renamed := RenameColumn_call column new_column r in
     Map_with (RenameColumn_call new_column column) renamed) = Ok [o]
    /\ is_dict o
    /\ (forall c, dict_get o c = dict_get r c).
Proof.
  intros Hr Hget Hnew.
  assert (Hne : column <> new_column) by congruence.
  rewrite (RenameColumn_call_Ok column new_column r v Hget). cbn [bind Map_with].
  rewrite (RenameColumn_call_Ok new_column column _ v) by apply dict_get_set_eq.
  eexists. split; [reflexivity|]. split.
  - apply is_dict_dict_set, is_dict_dict_del, is_dict_dict_set, is_dict_dict_del. assumption.
  - intros c. destruct (decide (c = column)) as [->|Hc].
    + rewrite dict_get_set_eq. congruence.
    + rewrite dict_get_set_ne by congruence.
      destruct (decide (c = new_column)) as [->|Hc'].
      * rewrite dict_get_del_eq, Hnew; [reflexivity|].
        apply is_dict_dict_set, is_dict_dict_del. assumption.
      * rewrite dict_get_del_ne, dict_get_set_ne, dict_get_del_ne by congruence. reflexivity.
Qed.

Lemma RenameColumn_round_trip_witness :
  exists o,
    (let! renamed := RenameColumn_call "n" "total" [("n", VInt 3); ("doc", VInt 1)] in
     Map_with (RenameColumn_call "total" "n") renamed) = Ok [o]
    /\ is_dict o
    /\ (forall c, dict_get o c = dict_get [("n", VInt 3); ("doc", VInt 1)] c).
Proof.
  apply (RenameColumn_round_trip "n" "total" [("n", VInt 3); ("doc", VInt 1)] (VInt 3)).
  - compute_done.
  - reflexivity.
  - reflexivity.
Defined.

(** ** Product *)

Lemma Product_fold (result_column : string) (r : row) (columns : list string) :
  result_column ∉ columns ->
  Forall (holds_int r) columns ->
  forall acc,
  try_fold (Product_step result_column) (dict_set r result_column (VInt acc)) columns
  = Ok (dict_set r result_column
          (VInt (acc * fold_right Z.mul 1%Z (List.map (int_of r) columns)))).
Proof.
  intros Hres Hall. induction Hall as [|c columns [n Hc] _ IH]; intros acc.
  - cbn [try_fold List.map fold_right]. rewrite Z.mul_1_r. reflexivity.
  - apply not_elem_of_cons in Hres as [Hne Hres]. cbn [try_fold List.map fold_right].
    unfold Product_step at 1. unfold dict_getitem.
    rewrite dict_get_set_eq. cbn [bind]. rewrite dict_get_set_ne, Hc by congruence.
    cbn [bind py_mul]. rewrite dict_set_set, (IH Hres). unfold int_of at 2. rewrite Hc.
    do 3 f_equal. lia.
Qed.

(** X11. [Product] on columns that hold integers, the result column not
    being one of them, emits the row with the result column holding their
    product - and 0, not 1, when no column is given. *)
Theorem Product_multiplies (columns : list string) (result_column : string) (r : row) :
  result_column ∉ columns ->
  Forall (holds_int r) columns ->
  Product_call columns result_column r
  = Ok [dict_set r result_column
          (VInt (match columns with
                 | [] => 0
                 | _ :: _ => fold_right Z.mul 1%Z (List.map (int_of r) columns)
                 end))].
Proof.
  intros Hres Hall. unfold Product_call.
  rewrite (Product_fold result_column r columns Hres Hall). cbn [bind].
  destruct columns; [reflexivity|]. rewrite Z.mul_1_l. reflexivity.
Qed.

Lemma Product_multiplies_witness :
  Product_call ["tf"; "idf"] "tf_idf" [("tf", VInt 3); ("idf", VInt 4)]
  = Ok [dict_set [("tf", VInt 3); ("idf", VInt 4)] "tf_idf" (VInt 12)].
Proof.
  apply (Product_multiplies ["tf"; "idf"] "tf_idf" [("tf", VInt 3); ("idf", VInt 4)]).
  - compute_done.
  - repeat constructor; eexists; reflexivity.
Defined.

(** ** Streams with a row that lacks a key *)

Lemma try_map_Err {A B : Type} (f : A -> result B) (l : list A) :
  (forall x e, f x = Err e -> e = RowError) ->
  (exists x, x ∈ l /\ exists e, f x = Err e) ->
  try_map f l = Err RowError.
Proof.
  intros Honly (x & Hx & e & He). induction l as [|y l IH]; [apply elem_of_nil in Hx; contradiction|].
  simpl. destruct (f y) as [b|e'] eqn:Ey.
  - cbn [bind]. apply elem_of_cons in Hx as [->|Hx]; [congruence|]. rewrite (IH Hx). reflexivity.
  - cbn [bind]. rewrite (Honly y e' Ey). reflexivity.
Qed.

Lemma dict_getitem_Err (r : row) (k : string) (e : error) :
  dict_getitem r k = Err e -> e = RowError.
Proof. unfold dict_getitem. destruct (dict_get r k); congruence. Qed.

Lemma tuple_key_Err (keys : list string) (r : row) (e : error) :
  tuple_key keys r = Err e -> e = RowError.
Proof.
  revert e. induction keys as [|k keys IH]; intros e; [discriminate|].
  rewrite tuple_key_cons. destruct (dict_getitem r k) eqn:E; cbn [bind].
  - destruct (tuple_key keys r); cbn [bind]; [discriminate|]. intros H. apply IH. congruence.
  - intros H. injection H as <-. eapply dict_getitem_Err. eassumption.
Qed.

Lemma tuple_key_lacking (keys : list string) (r : row) (k : string) :
  k ∈ keys -> dict_get r k = None -> tuple_key keys r = Err RowError.
Proof.
  intros Hk Hget. unfold tuple_key. apply try_map_Err.
  - intros x e. apply dict_getitem_Err.
  - exists k. split; [assumption|]. exists RowError. unfold dict_getitem. rewrite Hget. reflexivity.
Qed.

Lemma keyed_lacking (keys : list string) (rows : list row) :
  lacks_a_key keys rows -> keyed keys rows = Err RowError.
Proof.
  intros (r & k & Hr & Hk & Hget). unfold keyed. apply try_map_Err.
  - intros x e H. destruct (tuple_key keys x) eqn:E; cbn [bind] in H; [discriminate|].
    injection H as <-. eapply tuple_key_Err. eassumption.
  - exists r. split; [assumption|]. exists RowError.
    rewrite (tuple_key_lacking keys r k Hk Hget). reflexivity.
Qed.

(** X12. A stream in which some row lacks one of the grouping keys makes
    [Reduce] raise, whatever the reducer; likewise [Join], for a row of either
    stream that lacks one of the join keys. *)
Theorem missing_key_raises (keys : list string) (rows others : list row) :
  lacks_a_key keys rows ->
  (forall rd, Reduce_call rd keys rows = Err RowError)
  /\ (forall j, Join_call j keys rows others = Err RowError)
  /\ (forall j, have_keys keys others -> Join_call j keys others rows = Err RowError).
Proof.
  intros H. pose proof (keyed_lacking keys rows H) as Hk. split; [|split].
  - intros rd. unfold Reduce_call. rewrite Hk. reflexivity.
  - intros j. unfold Join_call. rewrite Hk. reflexivity.
  - intros j Ho. unfold Join_call. rewrite (keyed_pure keys others Ho), Hk. reflexivity.
Qed.

Lemma missing_key_raises_witness :
  (forall rd, Reduce_call rd ["doc"] [[("doc", VInt 1)]; [("text", VStr "a")]] = Err RowError)
  /\ (forall j, Join_call j ["doc"] [[("doc", VInt 1)]; [("text", VStr "a")]] []
                = Err RowError)
  /\ (forall j, have_keys ["doc"] [] ->
                Join_call j ["doc"] [] [[("doc", VInt 1)]; [("text", VStr "a")]]
                = Err RowError).
Proof.
  apply (missing_key_raises ["doc"] [[("doc", VInt 1)]; [("text", VStr "a")]] []).
  exists [("text", VStr "a")], "doc". split; [compute_done|]. split; [compute_done | reflexivity].
Defined.

(** ** Groups *)

Lemma groupby_concat {K : Type} `{EqDecision K} (l : list (K * row)) :
  flat_map snd (groupby l) = List.map snd l.
Proof.
  induction l as [|[k r] l IH]; simpl; [reflexivity|].
  destruct (groupby l) as [|[k' g] gs]; simpl in *.
  - rewrite <- IH. reflexivity.
  - destruct (decide (k = k')); simpl; rewrite <- IH; reflexivity.
Qed.

Lemma groupby_consistent {K : Type} `{EqDecision K} (f : row -> K) (l : list (K * row)) :
  Forall (fun kr => f (snd kr) = fst kr) l ->
  Forall (fun kg => snd kg <> [] /\ Forall (fun r => f r = fst kg) (snd kg)) (groupby l).
Proof.
  induction 1 as [|[k r] l Hr _ IH]; simpl; [constructor|]. simpl in Hr.
  destruct (groupby l) as [|[k' g] gs].
  - repeat constructor; [discriminate | assumption].
  - apply Forall_cons in IH as [[Hg Hg'] Hgs]. simpl in *.
    destruct (decide (k = k')) as [<-|Hne].
    + constructor; [|assumption]. simpl. split; [discriminate | constructor; assumption].
    + constructor; [simpl; split; [discriminate | repeat constructor; assumption]|].
      constructor; [split; assumption | assumption].
Qed.

Lemma keyed_consistent (keys : list string) (rows : list row) :
  Forall (fun kr => key_of keys (snd kr) = fst kr)
         (List.map (fun r => (key_of keys r, r)) rows).
Proof.
  apply Forall_forall. intros kr Hkr.
  apply list_elem_of_In, in_map_iff in Hkr as (r & <- & _). reflexivity.
Qed.

Lemma groupby_keys_no_adjacent_dups {K : Type} `{EqDecision K} (l : list (K * row)) :
  no_adjacent_dups (List.map fst (groupby l)).
Proof.
  induction l as [|[k r] l IH]; simpl; [exact I|].
  destruct (groupby l) as [|[k' g] gs]; [exact I|].
  destruct (decide (k = k')) as [->|Hne]; [exact IH|].
  split; assumption.
Qed.

Lemma groupby_no_adjacent_dups {K : Type} `{EqDecision K} (l : list (K * row)) :
  no_adjacent_dups (List.map fst l) ->
  groupby l = List.map (fun kr => (fst kr, [snd kr])) l.
Proof.
  induction l as [|[k r] l IH]; intros H; [reflexivity|].
  destruct l as [|[k' r'] l]; [reflexivity|].
  destruct H as [Hne H]. specialize (IH H).
  change (groupby ((k, r) :: (k', r') :: l))
    with (match groupby ((k', r') :: l) with
          | (k0, g) :: gs =>
              if decide (k = k0) then (k, r :: g) :: gs else (k, [r]) :: (k0, g) :: gs
          | [] => [(k, [r])]
          end).
  rewrite IH. simpl. destruct (decide (k = k')); [contradiction | reflexivity].
Qed.

(** ** FirstReducer *)

Lemma reduce_groups_FirstReducer (keys : list string) (groups : list (list value * list row)) :
  reduce_groups FirstReducer keys groups = Ok (first_rows groups).
Proof.
  induction groups as [|[k g] groups IH]; simpl; [reflexivity|].
  rewrite IH. destruct g; reflexivity.
Qed.

Lemma Reduce_FirstReducer_groups (keys : list string) (rows : list row) :
  have_keys keys rows ->
  Reduce_call FirstReducer keys rows
  = Ok (first_rows (groupby (List.map (fun r => (key_of keys r, r)) rows))).
Proof.
  intros H. unfold Reduce_call. rewrite (keyed_pure keys rows H). cbn [bind].
  apply reduce_groups_FirstReducer.
Qed.

Lemma first_rows_app (g1 g2 : list (list value * list row)) :
  first_rows (g1 ++ g2) = first_rows g1 ++ first_rows g2.
Proof. unfold first_rows. apply flat_map_app. Qed.

(** X13. A maximal run of rows with the same key tuple makes [Reduce] with
    [FirstReducer] emit the first row of the run, as it is, between what it
    emits for the rows before the run and for the rows after it. *)
Theorem Reduce_FirstReducer_first_of_run (keys : list string) (kt : list value)
  (pre run post : list row) (r0 : row) :
  keys_equal keys kt (r0 :: run) ->
  have_keys keys (pre ++ post) ->
  (forall r, last pre = Some r -> tuple_key keys r <> Ok kt) ->
  (forall r, head post = Some r -> tuple_key keys r <> Ok kt) ->
  exists before after,
    Reduce_call FirstReducer keys pre = Ok before
    /\ Reduce_call FirstReducer keys post = Ok after
    /\ Reduce_call FirstReducer keys (pre ++ (r0 :: run) ++ post)
       = Ok (before ++ [r0] ++ after).
Proof.
  intros Hrun Hall Hpre Hpost.
  pose proof Hall as Hall'. apply Forall_app in Hall' as [Hkpre Hkpost].
  do 2 eexists. split; [apply Reduce_FirstReducer_groups; assumption|].
  split; [apply Reduce_FirstReducer_groups; assumption|].
  rewrite Reduce_FirstReducer_groups.
  - rewrite (groupby_around_run keys kt pre post run r0 Hrun Hall Hpre Hpost).
    rewrite !first_rows_app. reflexivity.
  - apply Forall_app. split; [assumption|]. apply Forall_app. split; [|assumption].
    eapply Forall_impl; [exact Hrun|]. intros r Hr. exists kt. exact Hr.
Qed.

Lemma Reduce_FirstReducer_first_of_run_witness :
  exists before after,
    Reduce_call FirstReducer ["doc"] [[("doc", VInt 0)]] = Ok before
    /\ Reduce_call FirstReducer ["doc"] [] = Ok after
    /\ Reduce_call FirstReducer ["doc"]
         ([[("doc", VInt 0)]]
          ++ ([("doc", VInt 1); ("w", VStr "a")] :: [[("doc", VInt 1); ("w", VStr "b")]])
          ++ [])
       = Ok (before ++ [[("doc", VInt 1); ("w", VStr "a")]] ++ after).
Proof.
  apply (Reduce_FirstReducer_first_of_run ["doc"] [VInt 1]).
  - repeat constructor.
  - repeat constructor. eexists. reflexivity.
  - intros r Hr. injection Hr as <-. vm_compute. discriminate.
  - intros r Hr. discriminate.
Defined.

Lemma first_rows_keys (keys : list string) (groups : list (list value * list row)) :
  Forall (fun kg => snd kg <> [] /\ Forall (fun r => key_of keys r = fst kg) (snd kg)) groups ->
  List.map (key_of keys) (first_rows groups) = List.map fst groups.
Proof.
  induction 1 as [|[k g] groups [Hne Hg] _ IH]; [reflexivity|]. simpl in *.
  destruct g as [|r g]; [contradiction|]. apply Forall_cons in Hg as [Hr _].
  unfold first_rows in *. simpl. rewrite IH, Hr. reflexivity.
Qed.

Lemma first_rows_subset (groups : list (list value * list row)) (r : row) :
  r ∈ first_rows groups -> r ∈ flat_map snd groups.
Proof.
  unfold first_rows. intros H.
  apply list_elem_of_In, in_flat_map in H as ([k g] & Hkg & Hr). simpl in Hr.
  apply list_elem_of_In, in_flat_map. exists (k, g). split; [assumption|]. simpl.
  destruct g as [|r' g]; [contradiction|]. destruct Hr as [->|[]]. left. reflexivity.
Qed.

(** X14. [Reduce] with [FirstReducer] is idempotent: the rows it emitted
    have pairwise different keys from one to the next, so reducing them again
    emits each of them; and it fails again where it failed. *)
Theorem Reduce_FirstReducer_idempotent (keys : list string) (rows : list row) :
  (let! once := Reduce_call FirstReducer keys rows in Reduce_call FirstReducer keys once)
  = Reduce_call FirstReducer keys rows.
Proof.
  unfold Reduce_call at 1 3. destruct (keyed keys rows) as [krows|e] eqn:E; [|reflexivity].
  cbn [bind]. rewrite reduce_groups_FirstReducer. cbn [bind].
  assert (Hkeys : have_keys keys rows).
  { clear -E. unfold keyed in E. revert krows E. induction rows as [|r rows IH]; intros krows E.
    - constructor.
    - simpl in E. apply bind_Ok in E as (kr & Hkr & E). apply bind_Ok in E as (ys & Hys & _).
      constructor; [|eapply IH; eassumption].
      destruct (tuple_key keys r) as [k|]; [eauto | discriminate]. }
  rewrite (keyed_pure keys rows Hkeys) in E. injection E as <-.
  set (groups := groupby (List.map (fun r => (key_of keys r, r)) rows)).
  assert (Hsub : have_keys keys (first_rows groups)).
  { apply Forall_forall. intros r Hr. apply first_rows_subset in Hr.
    unfold groups in Hr. rewrite groupby_concat, List.map_map, List.map_id in Hr.
    unfold have_keys in Hkeys. rewrite Forall_forall in Hkeys. apply Hkeys. assumption. }
  rewrite (Reduce_FirstReducer_groups keys _ Hsub). f_equal.
  rewrite groupby_no_adjacent_dups.
  - unfold first_rows at 1. rewrite flat_map_concat_map, List.map_map. simpl.
    rewrite <- flat_map_concat_map. clear. induction (first_rows groups); simpl; congruence.
  - rewrite List.map_map.
    change (no_adjacent_dups (List.map (key_of keys) (first_rows groups))).
    rewrite (first_rows_keys keys groups).
    + apply groupby_keys_no_adjacent_dups.
    + apply groupby_consistent. apply keyed_consistent.
Qed.

(** ** Sum *)

Lemma Sum_step_next (column : string) (keys : list string) (r r0 : row) (n : Z) :
  holds_int r column ->
  Sum_step column keys ((column, VInt n) :: Project_row keys r0) r
  = Ok ((column, VInt (n + int_of r column)) :: Project_row keys r0).
Proof.
  intros [m Hm]. unfold Sum_step. rewrite copy_group_key_next. cbn [bind].
  destruct (count_get_set column n (n + m) (Project_row keys r0)) as [-> Hset].
  cbn [bind]. unfold dict_getitem at 1. rewrite Hm. cbn [bind py_add]. rewrite Hset.
  unfold int_of. rewrite Hm. reflexivity.
Qed.

Lemma Sum_fold_next (column : string) (keys : list string) (r0 : row) (rows : list row) :
  Forall (fun r => holds_int r column) rows ->
  forall n,
  try_fold (Sum_step column keys) ((column, VInt n) :: Project_row keys r0) rows
  = Ok ((column, VInt (n + fold_right Z.add 0%Z (List.map (fun r => int_of r column) rows)))
        :: Project_row keys r0).
Proof.
  induction 1 as [|r rows Hr _ IH]; intros n; cbn [try_fold List.map fold_right].
  - rewrite Z.add_0_r. reflexivity.
  - rewrite (Sum_step_next column keys r r0 n Hr). cbn [bind]. rewrite IH.
    do 4 f_equal. lia.
Qed.

Lemma Sum_call_group (column : string) (keys : list string) (r0 : row) (rows : list row)
  (kt : list value) :
  column ∉ keys -> tuple_key keys r0 = Ok kt ->
  Forall (fun r => holds_int r column) (r0 :: rows) ->
  Sum_call column keys (r0 :: rows)
  = Ok [(column,
         VInt (fold_right Z.add 0%Z (List.map (fun r => int_of r column) (r0 :: rows))))
        :: Project_row keys r0].
Proof.
  intros Hcol Hkey Hall. apply Forall_cons in Hall as [[m Hm] Hall]. unfold Sum_call.
  change (dict_set [] column (VInt 0)) with [(column, VInt 0%Z)].
  change (try_fold (Sum_step column keys) [(column, VInt 0)] (r0 :: rows))
    with (let! acc := Sum_step column keys [(column, VInt 0%Z)] r0 in
          try_fold (Sum_step column keys) acc rows).
  unfold Sum_step at 1. rewrite (copy_group_key_first column keys r0 kt 0 Hcol Hkey).
  cbn [bind].
  destruct (count_get_set column 0 (0 + m) (Project_row keys r0)) as [-> Hset].
  cbn [bind]. unfold dict_getitem at 1. rewrite Hm. cbn [bind py_add]. rewrite Hset.
  rewrite (Sum_fold_next column keys r0 rows Hall). cbn [bind List.map fold_right].
  unfold int_of at 2. rewrite Hm. do 5 f_equal.
Qed.

(** X15. [Sum] on a group that is not empty, the column holding an integer
    in every row and not being a grouping key, emits one row: its columns are
    the column and the grouping keys, the column holds the sum of the values
    of the group, and each grouping key the value it has in the first row. *)
Theorem Sum_adds_up_the_group (column : string) (keys : list string) (r0 : row)
  (rows : list row) (kt : list value) :
  column ∉ keys ->
  tuple_key keys r0 = Ok kt ->
  Forall (fun r => holds_int r column) (r0 :: rows) ->
  exists out,
    Reducer_call (Sum column) keys (r0 :: rows) = Ok [out]
    /\ columns out = column :: first_occurrences keys
    /\ dict_get out column
       = Some (VInt (fold_right Z.add 0%Z
                       (List.map (fun r => int_of r column) (r0 :: rows))))
    /\ (forall k, k ∈ keys -> dict_get out k = dict_get r0 k).
Proof.
  intros Hcol Hkey Hall. eexists. split; [apply (Sum_call_group _ _ _ _ kt); assumption|].
  split; [|split].
  - simpl. rewrite Project_row_columns. reflexivity.
  - simpl. destruct (decide (column = column)); [reflexivity | contradiction].
  - intros k Hk. simpl. destruct (decide (column = k)) as [->|_]; [contradiction|].
    rewrite Project_row_get. destruct (decide (k ∈ keys)); [|contradiction].
    pose proof (tuple_key_Ok_get keys r0 kt Hkey k Hk) as Hg.
    unfold dict_getitem, value_or_None in *. destruct (dict_get r0 k); [reflexivity | discriminate].
Qed.

Lemma Sum_adds_up_the_group_witness :
  exists out,
    Reducer_call (Sum "n") ["doc"]
      ([("doc", VInt 1); ("n", VInt 2)] :: [[("doc", VInt 1); ("n", VInt 3)]]) = Ok [out]
    /\ columns out = "n" :: first_occurrences ["doc"]
    /\ dict_get out "n"
       = Some (VInt (fold_right Z.add 0%Z
                       (List.map (fun r => int_of r "n")
                          ([("doc", VInt 1); ("n", VInt 2)] :: [[("doc", VInt 1); ("n", VInt 3)]]))))
    /\ (forall k, k ∈ ["doc"] -> dict_get out k = dict_get [("doc", VInt 1); ("n", VInt 2)] k).
Proof.
  apply (Sum_adds_up_the_group "n" ["doc"] [("doc", VInt 1); ("n", VInt 2)]
           [[("doc", VInt 1); ("n", VInt 3)]] [VInt 1]).
  - compute_done.
  - reflexivity.
  - repeat constructor; eexists; reflexivity.
Defined.

(** ** Count over a whole stream *)

Lemma reduce_groups_Count_sum (column : string) (keys : list string)
  (groups : list (list value * list row)) :
  column ∉ keys ->
  Forall (fun kg => snd kg <> [] /\ Forall (fun r => exists k, tuple_key keys r = Ok k) (snd kg))
         groups ->
  exists out,
    reduce_groups (Count column) keys groups = Ok out
    /\ length out = length groups
    /\ fold_right Z.add 0%Z (List.map (fun o => int_of o column) out)
       = Z.of_nat (length (flat_map snd groups)).
Proof.
  intros Hcol. induction 1 as [|[k g] groups [Hne Hg] _ (out & IH & Hlen & Hsum)].
  - exists []. repeat split.
  - simpl in Hne, Hg. destruct g as [|r0 g]; [contradiction|].
    pose proof Hg as Hg'. apply Forall_cons in Hg' as [[kt Hkt] _].
    eexists. cbn [reduce_groups Reducer_call].
    rewrite (Count_call_group column keys r0 g kt Hcol Hkt), IH. split; [reflexivity|].
    cbn [app length List.map fold_right flat_map snd]. split; [congruence|].
    rewrite Hsum, length_app. unfold int_of at 1. simpl dict_get.
    destruct (decide (column = column)); [|contradiction]. cbn [length]. lia.
Qed.

Lemma groupby_length {K : Type} `{EqDecision K} (l : list (K * row)) :
  length (groupby l) <= length l.
Proof.
  induction l as [|[k r] l IH]; simpl; [lia|].
  destruct (groupby l) as [|[k' g] gs]; simpl in *; [lia|].
  destruct (decide (k = k')); simpl; lia.
Qed.

(** X16. [Reduce] with [Count], the result column not being a grouping key,
    over a stream whose rows have the keys, loses no row and counts none
    twice: the counts of the rows it emits add up to the number of rows of the
    stream, and it emits no more rows than it was given. *)
Theorem Reduce_Count_counts_every_row (column : string) (keys : list string)
  (rows : list row) :
  column ∉ keys ->
  have_keys keys rows ->
  exists out,
    Reduce_call (Count column) keys rows = Ok out
    /\ fold_right Z.add 0%Z (List.map (fun o => int_of o column) out)
       = Z.of_nat (length rows)
    /\ length out <= length rows.
Proof.
  intros Hcol Hkeys. unfold Reduce_call. rewrite (keyed_pure keys rows Hkeys). cbn [bind].
  destruct (reduce_groups_Count_sum column keys
              (groupby (List.map (fun r => (key_of keys r, r)) rows)) Hcol)
    as (out & Hout & Hlen & Hsum).
  - apply groupby_Forall. apply Forall_forall. intros [k r] Hin. simpl.
    apply list_elem_of_In, in_map_iff in Hin as (r' & Heq & Hr'). injection Heq as _ <-.
    unfold have_keys in Hkeys. rewrite Forall_forall in Hkeys. apply Hkeys.
    apply list_elem_of_In. assumption.
  - exists out. split; [assumption|].
    rewrite groupby_concat, List.map_map, List.map_id in Hsum. split; [assumption|].
    rewrite Hlen.
    pose proof (groupby_length (List.map (fun r => (key_of keys r, r)) rows)) as Hle.
    rewrite length_map in Hle. exact Hle.
Qed.

Lemma Reduce_Count_counts_every_row_witness :
  exists out,
    Reduce_call (Count "n") ["w"]
      [[("w", VStr "a")]; [("w", VStr "a")]; [("w", VStr "b")]] = Ok out
    /\ fold_right Z.add 0%Z (List.map (fun o => int_of o "n") out) = Z.of_nat 3
    /\ length out <= 3.
Proof.
  apply (Reduce_Count_counts_every_row "n" ["w"]
           [[("w", VStr "a")]; [("w", VStr "a")]; [("w", VStr "b")]]).
  - compute_done.
  - repeat constructor; eexists; reflexivity.
Defined.

(** ** Join with nothing to match *)

Lemma rows_for_left_only_key_app (c : strategy) (a b : list row) :
  rows_for_left_only_key c (a ++ b)
  = rows_for_left_only_key c a ++ rows_for_left_only_key c b.
Proof. destruct c; reflexivity. Qed.

Lemma rows_for_right_only_key_app (c : strategy) (a b : list row) :
  rows_for_right_only_key c (a ++ b)
  = rows_for_right_only_key c a ++ rows_for_right_only_key c b.
Proof. destruct c; reflexivity. Qed.

Lemma drain_first_left_only (j : Joiner) (keys : list string)
  (groups : list (list value * list row)) :
  Forall (fun kg => snd kg <> [] /\ Forall is_dict (snd kg)) groups ->
  drain_first j keys groups = rows_for_left_only_key (joiner_class j) (flat_map snd groups).
Proof.
  induction 1 as [|[k g] groups [Hne Hg] _ IH]; simpl.
  - destruct (joiner_class j); reflexivity.
  - rewrite IH, rows_for_left_only_key_app, Joiner_call_left_only by assumption. reflexivity.
Qed.

Lemma drain_second_right_only (j : Joiner) (keys : list string)
  (groups : list (list value * list row)) :
  Forall (fun kg => snd kg <> [] /\ Forall is_dict (snd kg)) groups ->
  drain_second j keys groups = rows_for_right_only_key (joiner_class j) (flat_map snd groups).
Proof.
  induction 1 as [|[k g] groups [Hne Hg] _ IH]; simpl.
  - destruct (joiner_class j); reflexivity.
  - rewrite IH, rows_for_right_only_key_app, Joiner_call_right_only by assumption. reflexivity.
Qed.

Lemma groups_of_dicts (keys : list string) (rows : list row) :
  Forall is_dict rows ->
  Forall (fun kg => snd kg <> [] /\ Forall is_dict (snd kg))
         (groupby (List.map (fun r => (key_of keys r, r)) rows)).
Proof.
  intros H. apply groupby_Forall. apply Forall_forall. intros [k r] Hin.
  apply list_elem_of_In, in_map_iff in Hin as (r' & Heq & Hr'). injection Heq as _ <-.
  rewrite Forall_forall in H. apply H. apply list_elem_of_In. assumption.
Qed.

Lemma groups_flatten (keys : list string) (rows : list row) :
  flat_map snd (groupby (List.map (fun r => (key_of keys r, r)) rows)) = rows.
Proof. rewrite groupby_concat, List.map_map, List.map_id. reflexivity. Qed.

(** X17. A join with an empty stream on one side: [InnerJoiner] emits
    nothing; [OuterJoiner] emits the rows of the other stream, as they are and
    in their order; [LeftJoiner] does so when the rows are on the left and
    emits nothing when they are on the right, [RightJoiner] the other way
    round. *)
Theorem Join_with_an_empty_stream (j : Joiner) (keys : list string) (rows : list row) :
  have_keys keys rows ->
  Forall is_dict rows ->
  Join_call j keys rows [] = Ok (rows_for_left_only_key (joiner_class j) rows)
  /\ Join_call j keys [] rows = Ok (rows_for_right_only_key (joiner_class j) rows).
Proof.
  intros Hk Hd. unfold Join_call. rewrite (keyed_pure keys rows Hk).
  change (keyed keys []) with (@Ok (list (list value * row)) []). cbn [bind].
  change (groupby (@nil (list value * row))) with (@nil (list value * list row)).
  split.
  - rewrite merge_nil_r, drain_first_left_only, groups_flatten by (apply groups_of_dicts; assumption).
    reflexivity.
  - cbn [merge_groups].
    rewrite drain_second_right_only, groups_flatten by (apply groups_of_dicts; assumption).
    reflexivity.
Qed.

Lemma Join_with_an_empty_stream_witness :
  Join_call (default_joiner LeftJoiner) ["k"] [[("k", VInt 1)]; [("k", VInt 2)]] []
  = Ok [[("k", VInt 1)]; [("k", VInt 2)]]
  /\ Join_call (default_joiner LeftJoiner) ["k"] [] [[("k", VInt 1)]; [("k", VInt 2)]]
     = Ok [].
Proof.
  apply (Join_with_an_empty_stream (default_joiner LeftJoiner) ["k"]
           [[("k", VInt 1)]; [("k", VInt 2)]]).
  - repeat constructor; eexists; reflexivity.
  - repeat constructor; compute_done.
Defined.

(** X18. Two streams whose keys do not meet, every key of the one being
    below [kt] and every key of the other above: the join emits what the
    joiner owes for the rows of the lower stream, then what it owes for the
    rows of the upper one, whichever side each is on - nothing at all with
    [InnerJoiner], both streams one after the other with [OuterJoiner]. *)
Theorem Join_of_separate_keys (j : Joiner) (keys : list string) (kt : list value)
  (low high : list row) :
  keys_below keys kt low -> keys_above keys kt high ->
  Forall is_dict low -> Forall is_dict high ->
  Join_call j keys low high
  = Ok (rows_for_left_only_key (joiner_class j) low
        ++ rows_for_right_only_key (joiner_class j) high)
  /\ Join_call j keys high low
     = Ok (rows_for_right_only_key (joiner_class j) low
           ++ rows_for_left_only_key (joiner_class j) high).
Proof.
  intros Hlow Hhigh Dlow Dhigh.
  pose proof (groups_below _ _ _ Hlow) as Glow. pose proof (groups_above _ _ _ Hhigh) as Ghigh.
  rewrite Forall_forall in Glow, Ghigh.
  unfold Join_call.
  rewrite (keyed_pure keys low (keys_below_has_key _ _ _ Hlow)).
  rewrite (keyed_pure keys high (keys_above_has_key _ _ _ Hhigh)). cbn [bind].
  set (gl := groupby (List.map (fun r => (key_of keys r, r)) low)) in *.
  set (gh := groupby (List.map (fun r => (key_of keys r, r)) high)) in *.
  assert (Hlt : forall g s, g ∈ gl -> head gh = Some s -> tuple_lt (fst g) (fst s) = Ok true).
  { intros g s Hg Hs. apply head_elem_of in Hs.
    eapply tuple_lt_trans; [apply Glow | apply Ghigh]; assumption. }
  split.
  - rewrite <- (app_nil_r gl) at 1. change gh with ([] ++ gh) at 1.
    rewrite merge_prefix.
    + rewrite merge_nil_r. cbn [merge_groups bind].
      unfold gl, gh.
      rewrite drain_first_left_only, drain_second_right_only, !groups_flatten
        by (apply groups_of_dicts; assumption).
      reflexivity.
    + exact Hlt.
    + intros h r Hh. apply elem_of_nil in Hh. contradiction.
  - rewrite <- (app_nil_r gl) at 1. change gh with ([] ++ gh) at 1.
    rewrite merge_prefix.
    + rewrite merge_nil_r. cbn [merge_groups bind].
      unfold gl, gh.
      rewrite drain_first_left_only, drain_second_right_only, !groups_flatten
        by (apply groups_of_dicts; assumption).
      reflexivity.
    + intros g s Hg. apply elem_of_nil in Hg. contradiction.
    + exact Hlt.
Qed.

Lemma Join_of_separate_keys_witness :
  Join_call (default_joiner LeftJoiner) ["k"]
    [[("k", VInt 1); ("v", VStr "L")]] [[("k", VInt 3); ("v", VStr "R")]]
  = Ok ([[("k", VInt 1); ("v", VStr "L")]] ++ [])
  /\ Join_call (default_joiner LeftJoiner) ["k"]
       [[("k", VInt 3); ("v", VStr "R")]] [[("k", VInt 1); ("v", VStr "L")]]
     = Ok ([] ++ [[("k", VInt 3); ("v", VStr "R")]]).
Proof.
  apply (Join_of_separate_keys (default_joiner LeftJoiner) ["k"] [VInt 2]
           [[("k", VInt 1); ("v", VStr "L")]] [[("k", VInt 3); ("v", VStr "R")]]).
  - repeat constructor. exists [VInt 1]. split; reflexivity.
  - repeat constructor. exists [VInt 3]. split; reflexivity.
  - repeat constructor; compute_done.
  - repeat constructor; compute_done.
Defined.

Lemma groupby_without_keys (r : row) (rows : list row) :
  groupby (List.map (fun x => (key_of [] x, x)) (r :: rows)) = [([], r :: rows)].
Proof.
  change (List.map (fun x => (key_of [] x, x)) (r :: rows))
    with ((@nil value, r) :: List.map (fun x => (@nil value, x)) rows).
  apply groupby_run.
Qed.

(** X19. A join on no key at all pairs every row of the first stream with
    every row of the second: with [InnerJoiner] the output is the cross
    product, in the order of the first stream and, for one row of it, in the
    order of the second.  No row can fail, as no column is looked up. *)
Theorem Join_without_keys_is_cross_product (j : Joiner) (rows rows_second : list row) :
  joiner_class j = InnerJoiner ->
  Join_call j [] rows rows_second
  = Ok (flat_map (fun row_a =>
          flat_map (fun row_b => _join_two_rows j [] row_a row_b) rows_second) rows).
Proof.
  intros Hj. unfold Join_call.
  rewrite !keyed_pure by (apply Forall_forall; intros r _; exists []; reflexivity).
  cbn [bind].
  destruct rows as [|a rows], rows_second as [|b rows_second].
  - reflexivity.
  - rewrite groupby_without_keys. cbn [List.map groupby merge_groups drain_second].
    unfold Joiner_call. rewrite Hj. reflexivity.
  - rewrite groupby_without_keys, merge_nil_r. cbn [drain_first].
    unfold Joiner_call. rewrite Hj, app_nil_r. reflexivity.
  - rewrite !groupby_without_keys, merge_matched. cbn [merge_groups drain_second bind].
    unfold Joiner_call. rewrite Hj, app_nil_r. reflexivity.
Qed.

Lemma Join_without_keys_is_cross_product_witness :
  Join_call (default_joiner InnerJoiner) []
    [[("a", VInt 1)]; [("a", VInt 2)]] [[("b", VInt 7)]; [("b", VInt 8)]]
  = Ok [[("a", VInt 1); ("b", VInt 7)]; [("a", VInt 1); ("b", VInt 8)];
        [("a", VInt 2); ("b", VInt 7)]; [("a", VInt 2); ("b", VInt 8)]].
Proof.
  apply (Join_without_keys_is_cross_product (default_joiner InnerJoiner)
           [[("a", VInt 1)]; [("a", VInt 2)]] [[("b", VInt 7)]; [("b", VInt 8)]]).
  reflexivity.
Defined.

Lemma in_intersected_keys_shared_keys (keys : list string) (row_a row_b : row) (c : string) :
  (forall c, c ∈ columns row_a -> c ∈ columns row_b -> c ∈ keys) ->
  in_intersected_keys keys row_a row_b c = false.
Proof.
  intros H. unfold in_intersected_keys.
  destruct (dict_contains row_a c) eqn:Ha; [|reflexivity].
  destruct (dict_contains row_b c) eqn:Hb; [|reflexivity].
  apply dict_contains_true in Ha, Hb. cbn [andb].
  rewrite bool_decide_eq_true_2 by (apply H; assumption). reflexivity.
Qed.

Lemma append_keys_shared_keys (keys : list string) (row_a row_b : row) (suffix : string)
  (r joined : row) :
  (forall c, c ∈ columns row_a -> c ∈ columns row_b -> c ∈ keys) ->
  append_keys keys row_a row_b suffix r joined = dict_update joined r.
Proof.
  intros H. unfold append_keys, dict_update. apply fold_left_ext_in. intros acc kv _.
  rewrite in_intersected_keys_shared_keys by assumption. reflexivity.
Qed.

(** X20. Two rows that share no column but join keys are joined without
    any suffix: the joined row is the first row updated with the second, as
    a dictionary, so that a key column keeps its place and takes the value of
    the second row. *)
Theorem join_of_rows_sharing_only_keys (j : Joiner) (keys : list string) (row_a row_b : row) :
  is_dict row_a ->
  (forall c, c ∈ columns row_a -> c ∈ columns row_b -> c ∈ keys) ->
  _join_two_rows j keys row_a row_b = [dict_update row_a row_b].
Proof.
  intros Ha H. unfold _join_two_rows. rewrite !append_keys_shared_keys by assumption.
  rewrite (dict_update_fresh row_a []); [reflexivity | assumption |].
  intros c _ Hc. apply elem_of_nil in Hc. contradiction.
Qed.

Lemma join_of_rows_sharing_only_keys_witness :
  _join_two_rows (default_joiner InnerJoiner) ["k"]
    [("k", VInt 1); ("a", VStr "x")] [("b", VStr "y"); ("k", VInt 1)]
  = [dict_update [("k", VInt 1); ("a", VStr "x")] [("b", VStr "y"); ("k", VInt 1)]].
Proof.
  apply (join_of_rows_sharing_only_keys (default_joiner InnerJoiner) ["k"]
           [("k", VInt 1); ("a", VStr "x")] [("b", VStr "y"); ("k", VInt 1)]).
  - compute_done.
  - intros c Ha Hb.
    apply elem_of_cons in Ha as [->|Ha]; [compute_done|].
    apply elem_of_cons in Ha as [->|Ha]; [|apply elem_of_nil in Ha; contradiction].
    exfalso. revert Hb. compute_done.
Defined.

(** ** ExternalSort: what the driver gets *)

Lemma try_map_decorated_snd (key : row -> result sort_key) (rows : list row) :
  forall decorated,
  try_map (fun r => let! k := key r in Ok (k, r)) rows = Ok decorated ->
  List.map snd decorated = rows.
Proof.
  induction rows as [|r rows IH]; intros decorated H; simpl in H.
  - injection H as <-. reflexivity.
  - apply bind_Ok in H as (kr & Hkr & H). apply bind_Ok in H as (rest & Hrest & H).
    injection H as <-. apply bind_Ok in Hkr as (k & _ & Hkr). injection Hkr as <-.
    simpl. rewrite (IH rest Hrest). reflexivity.
Qed.

Lemma list_sort_Permutation (key : row -> result sort_key) (reverse : bool)
  (rows out : list row) :
  list_sort key reverse rows = Ok out -> Permutation rows out.
Proof.
  unfold list_sort. intros H.
  apply bind_Ok in H as (decorated & Hdec & H). apply bind_Ok in H as (sorted & Hsorted & H).
  injection H as <-. apply stable_sort_Permutation in Hsorted.
  rewrite <- (try_map_decorated_snd key rows decorated Hdec).
  apply Permutation_map. destruct reverse.
  - rewrite <- (Permutation_rev sorted), <- Hsorted. apply Permutation_rev.
  - assumption.
Qed.

(** X21. Whatever the keys, the order and the rows: the row count that
    [ExternalSort] asserts at the end never fails.  Either the helper
    process raised and the driver gets no stream, or the driver gets a
    rearrangement of the rows it sent, none lost and none twice. *)
Theorem ExternalSort_keeps_the_rows (keys : list string) (reverse : bool) (rows : list row) :
  ExternalSort_call keys reverse rows = Err HelperFailure
  \/ exists out, ExternalSort_call keys reverse rows = Ok out /\ Permutation rows out.
Proof.
  unfold ExternalSort_call, do_sort. rewrite recv_rows_sent. cbn [bind].
  destruct (itemgetter keys) as [key|e]; [|left; reflexivity]. cbn [bind].
  destruct (list_sort key reverse rows) as [out|e] eqn:Hsort; [|left; reflexivity].
  cbn [bind]. rewrite recv_rows_sent. cbn [bind].
  pose proof (list_sort_Permutation key reverse rows out Hsort) as Hperm.
  rewrite (Permutation_length Hperm), Nat.eqb_refl. right. exists out. auto.
Qed.

Lemma sort_key_of_lacking (keys : list string) (r : row) (k : string) :
  k ∈ keys -> dict_get r k = None -> sort_key_of keys r = Err RowError.
Proof.
  intros Hk Hr. unfold sort_key_of.
  destruct keys as [|k1 [|k2 keys]].
  - apply elem_of_nil in Hk. contradiction.
  - apply list_elem_of_singleton in Hk as ->. simpl. unfold dict_getitem. rewrite Hr. reflexivity.
  - cbn [itemgetter bind]. rewrite (tuple_key_lacking _ r k Hk Hr). reflexivity.
Qed.

Lemma sort_key_of_Err (keys : list string) (r : row) (e : error) :
  sort_key_of keys r = Err e -> e = RowError.
Proof.
  unfold sort_key_of. destruct keys as [|k1 [|k2 keys]]; cbn [itemgetter bind].
  - congruence.
  - destruct (dict_getitem r k1) eqn:H; cbn [bind]; [discriminate|].
    intros [= <-]. apply (dict_getitem_Err r k1). assumption.
  - destruct (tuple_key (k1 :: k2 :: keys) r) eqn:H; cbn [bind]; [discriminate|].
    intros [= <-]. apply (tuple_key_Err (k1 :: k2 :: keys) r). assumption.
Qed.

(** X22. A row without one of the sort columns stops the helper process:
    the key function raises inside [rows.sort], nothing is sent back, and
    the driver gets no row, in either order. *)
Theorem ExternalSort_missing_column (keys : list string) (reverse : bool) (rows : list row) :
  lacks_a_key keys rows ->
  ExternalSort_call keys reverse rows = Err HelperFailure.
Proof.
  intros (r & k & Hr & Hk & Hget).
  unfold ExternalSort_call, do_sort. rewrite recv_rows_sent. cbn [bind].
  destruct (itemgetter keys) as [key|e] eqn:Hkey; [|reflexivity]. cbn [bind].
  assert (Hsk : forall x, sort_key_of keys x = key x).
  { intros x. unfold sort_key_of. rewrite Hkey. reflexivity. }
  unfold list_sort.
  rewrite (try_map_Err (fun r => let! k := key r in Ok (k, r)) rows).
  - reflexivity.
  - intros x e H. destruct (key x) as [kx|e'] eqn:Hx; [discriminate|].
    injection H as <-. apply (sort_key_of_Err keys x). rewrite Hsk. assumption.
  - exists r. split; [assumption|]. exists RowError.
    rewrite <- Hsk, (sort_key_of_lacking keys r k Hk Hget). reflexivity.
Qed.

Lemma ExternalSort_missing_column_witness :
  ExternalSort_call ["k"] false [[("k", VInt 2)]; [("j", VInt 1)]] = Err HelperFailure.
Proof.
  apply (ExternalSort_missing_column ["k"] false [[("k", VInt 2)]; [("j", VInt 1)]]).
  exists [("j", VInt 1)], "k". split; [compute_done|]. split; [compute_done|reflexivity].
Defined.

(** ** Grouping a sorted stream *)

Section GroupbySorted.
Context {K : Type} `{EqDecision K}.
Variable R : K -> K -> Prop.
Hypothesis R_trans : forall a b c, R a b -> R b c -> R a c.
Hypothesis R_irrefl : forall a, ~ R a a.







End GroupbySorted.






Lemma StronglySorted_map {A B : Type} (R : B -> B -> Prop) (f : A -> B) (l : list A) :
  StronglySorted (fun x y => R (f x) (f y)) l -> StronglySorted R (List.map f l).
Proof.
  induction 1 as [|x l Hs IH Hall]; [constructor|]. cbn [List.map]. constructor; [assumption|].
  apply Forall_forall. intros y Hy.
  apply list_elem_of_In, in_map_iff in Hy as (a & <- & Ha).
  rewrite Forall_forall in Hall. apply Hall. apply list_elem_of_In. assumption.
Qed.




(** ** From the sort to the grouping *)

Lemma sort_key_of_tuple_key (keys : list string) (r : row) (k : sort_key) :
  sort_key_of keys r = Ok k -> tuple_key keys r = Ok (tuple_of k).
Proof.
  unfold sort_key_of. destruct keys as [|k1 [|k2 keys]]; cbn [itemgetter bind].
  - discriminate.
  - intros H. apply bind_Ok in H as (v & Hv & H). injection H as <-.
    unfold tuple_key. cbn [try_map]. rewrite Hv. reflexivity.
  - intros H. apply bind_Ok in H as (vs & Hvs & H). injection H as <-. exact Hvs.
Qed.

Lemma sort_key_lt_tuple (a b : sort_key) (x : bool) :
  sort_key_lt a b = Ok x -> tuple_lt (tuple_of a) (tuple_of b) = Ok x.
Proof.
  destruct a as [v|vs], b as [w|ws]; cbn [sort_key_lt tuple_of]; try discriminate; [|auto].
  intros H. cbn [tuple_lt]. unfold py_eq. destruct (bool_decide_reflect (v = w)) as [->|_].
  - destruct x; [|reflexivity]. exfalso. exact (py_lt_irrefl w H).
  - assumption.
Qed.

(** X24. What [ExternalSort] hands on is what [Reduce] and [Join] ask
    for, when the sort columns hold integers or strings.  On rows that hold an
    integer or a string in every sort column and whose sort keys can be
    compared, with at least one key, the sort returns a rearrangement of the
    rows in which every row has the key tuple that [groupby] computes and in
    which these tuples never decrease - read from the end when the order is
    reversed.  Floats are not among the values represented here, and the
    statement does not speak of them. *)
Theorem ExternalSort_output_is_key_sorted (keys : list string) (reverse : bool)
  (rows : list row) :
  keys <> [] ->
  int_or_str_keys keys rows ->
  mutually_comparable keys rows ->
  exists out,
    ExternalSort_call keys reverse rows = Ok out
    /\ Permutation rows out
    /\ have_keys keys out
    /\ key_sorted keys (if reverse then rev out else out).
Proof.
  intros Hkeys _ Hcmp.
  destruct (itemgetter_Ok keys Hkeys) as [key Hkey].
  assert (Hsk : forall r, sort_key_of keys r = key r).
  { intros r. unfold sort_key_of. rewrite Hkey. reflexivity. }
  set (skey := fun r => match key r with Ok k => k | Err _ => KItem VNone end).
  assert (key_Ok : forall r, r ∈ rows -> key r = Ok (skey r)).
  { intros r Hr. destruct (Hcmp r r Hr Hr) as (k1 & _ & _ & H1 & _).
    rewrite Hsk in H1. unfold skey. rewrite H1. reflexivity. }
  assert (key_cmp : forall r1 r2, r1 ∈ rows -> r2 ∈ rows ->
                    exists b, sort_key_lt (skey r1) (skey r2) = Ok b).
  { intros r1 r2 H1 H2. destruct (Hcmp r1 r2 H1 H2) as (k1 & k2 & b & E1 & E2 & Hb).
    rewrite Hsk, (key_Ok r1 H1) in E1. rewrite Hsk, (key_Ok r2 H2) in E2.
    injection E1 as <-. injection E2 as <-. eauto. }
  destruct (list_sort_sorts key skey rows key_Ok key_cmp reverse)
    as (out & Hsort & Hperm & Hsorted & _).
  assert (Htuple : forall r, r ∈ out -> tuple_key keys r = Ok (tuple_of (skey r))).
  { intros r Hr. rewrite <- Hperm in Hr. apply sort_key_of_tuple_key.
    rewrite Hsk. apply key_Ok. assumption. }
  exists out. split; [|split; [assumption|split]].
  - unfold ExternalSort_call, do_sort. rewrite recv_rows_sent. cbn [bind].
    rewrite Hkey. cbn [bind]. rewrite Hsort. cbn [bind].
    rewrite recv_rows_sent. cbn [bind].
    rewrite (Permutation_length Hperm), Nat.eqb_refl. reflexivity.
  - apply Forall_forall. intros r Hr. eexists. apply Htuple. assumption.
  - unfold key_sorted. destruct reverse.
    + apply StronglySorted_rev in Hsorted.
      eapply StronglySorted_impl_in; [|exact Hsorted].
      intros x y Hx Hy H. cbn beta in H.
      apply list_elem_of_In, in_rev, list_elem_of_In in Hx.
      apply list_elem_of_In, in_rev, list_elem_of_In in Hy.
      exists (tuple_of (skey x)), (tuple_of (skey y)).
      split; [apply Htuple; assumption|]. split; [apply Htuple; assumption|].
      apply sort_key_lt_tuple. assumption.
    + eapply StronglySorted_impl_in; [|exact Hsorted].
      intros x y Hx Hy H. cbn beta in H.
      exists (tuple_of (skey x)), (tuple_of (skey y)).
      split; [apply Htuple; assumption|]. split; [apply Htuple; assumption|].
      apply sort_key_lt_tuple. assumption.
Qed.

Lemma ExternalSort_output_is_key_sorted_witness :
  exists out,
    ExternalSort_call ["k"] true [[("k", VInt 1)]; [("k", VInt 3)]; [("k", VInt 2)]] = Ok out
    /\ Permutation [[("k", VInt 1)]; [("k", VInt 3)]; [("k", VInt 2)]] out
    /\ have_keys ["k"] out
    /\ key_sorted ["k"] (rev out).
Proof.
  apply (ExternalSort_output_is_key_sorted ["k"] true
           [[("k", VInt 1)]; [("k", VInt 3)]; [("k", VInt 2)]]).
  - discriminate.
  - repeat constructor; eexists; (split; reflexivity).
  - apply mutually_comparable_Forall.
    repeat constructor; eexists; eexists; eexists;
      (split; [reflexivity | split; reflexivity]).
Defined.

(** ** Sorting what is sorted *)

Lemma stable_sort_sorted {K A : Type} (lt : K -> K -> result bool) (l : list (K * A)) :
  StronglySorted (not_after lt) l -> stable_sort lt l = Ok l.
Proof.
  induction 1 as [|x l Hs IH Hall]; [reflexivity|].
  cbn [stable_sort]. rewrite IH. cbn [bind].
  destruct l as [|y l']; [reflexivity|].
  apply Forall_cons in Hall as [Hxy _]. unfold not_after in Hxy.
  cbn [insert_sorted]. rewrite Hxy. reflexivity.
Qed.

Lemma list_sort_sorted (key : row -> result sort_key) (skey : row -> sort_key)
  (reverse : bool) (rows : list row) :
  (forall r, r ∈ rows -> key r = Ok (skey r)) ->
  StronglySorted
    (fun r1 r2 => (if reverse then sort_key_lt (skey r1) (skey r2)
                   else sort_key_lt (skey r2) (skey r1)) = Ok false) rows ->
  list_sort key reverse rows = Ok rows.
Proof.
  intros Hkey Hsorted. unfold list_sort.
  rewrite (try_map_pure _ (decorate skey)).
  2:{ apply Forall_forall. intros r Hr. rewrite (Hkey r Hr). reflexivity. }
  cbn [bind]. destruct reverse.
  - rewrite <- List.map_rev, stable_sort_sorted.
    + cbn [bind]. rewrite <- List.map_rev, rev_involutive, List.map_map. simpl.
      rewrite List.map_id. reflexivity.
    + apply StronglySorted_map. apply StronglySorted_rev in Hsorted. exact Hsorted.
  - rewrite stable_sort_sorted.
    + cbn [bind]. rewrite List.map_map. simpl. rewrite List.map_id. reflexivity.
    + apply StronglySorted_map. exact Hsorted.
Qed.

Lemma ExternalSort_call_sorted (keys : list string) (reverse : bool) (rows : list row) :
  keys <> [] ->
  Forall (fun r => exists k, sort_key_of keys r = Ok k) rows ->
  StronglySorted (in_order keys reverse) rows ->
  ExternalSort_call keys reverse rows = Ok rows.
Proof.
  intros Hkeys Hhave Hsorted.
  destruct (itemgetter_Ok keys Hkeys) as [key Hkey].
  assert (Hsk : forall r, sort_key_of keys r = key r).
  { intros r. unfold sort_key_of. rewrite Hkey. reflexivity. }
  set (skey := fun r => match key r with Ok k => k | Err _ => KItem VNone end).
  assert (key_Ok : forall r, r ∈ rows -> key r = Ok (skey r)).
  { intros r Hr. rewrite Forall_forall in Hhave. destruct (Hhave r Hr) as [k Hk].
    rewrite Hsk in Hk. unfold skey. rewrite Hk. reflexivity. }
  unfold ExternalSort_call, do_sort. rewrite recv_rows_sent. cbn [bind].
  rewrite Hkey. cbn [bind].
  rewrite (list_sort_sorted key skey reverse rows key_Ok).
  - cbn [bind]. rewrite recv_rows_sent. cbn [bind]. rewrite Nat.eqb_refl. reflexivity.
  - eapply StronglySorted_impl_in; [|exact Hsorted].
    intros x y Hx Hy (k1 & k2 & H1 & H2 & H).
    rewrite Hsk, (key_Ok x Hx) in H1. rewrite Hsk, (key_Ok y Hy) in H2.
    injection H1 as <-. injection H2 as <-. exact H.
Qed.

(** X25. A stream that is in the order asked for goes through
    [ExternalSort] unchanged: with at least one key, every row having a sort
    key, and no row followed by one that the order puts before it, the output
    is the input, row for row. *)
Theorem ExternalSort_leaves_sorted_stream (keys : list string) (reverse : bool)
  (rows : list row) :
  keys <> [] ->
  Forall (fun r => exists k, sort_key_of keys r = Ok k) rows ->
  StronglySorted (in_order keys reverse) rows ->
  ExternalSort_call keys reverse rows = Ok rows.
Proof. exact (ExternalSort_call_sorted keys reverse rows). Qed.

Lemma ExternalSort_leaves_sorted_stream_witness :
  ExternalSort_call ["k"] true
    [[("k", VStr "b"); ("v", VInt 1)]; [("k", VStr "a"); ("v", VInt 2)];
     [("k", VStr "a"); ("v", VInt 3)]]
  = Ok [[("k", VStr "b"); ("v", VInt 1)]; [("k", VStr "a"); ("v", VInt 2)];
        [("k", VStr "a"); ("v", VInt 3)]].
Proof.
  apply (ExternalSort_leaves_sorted_stream ["k"] true
           [[("k", VStr "b"); ("v", VInt 1)]; [("k", VStr "a"); ("v", VInt 2)];
            [("k", VStr "a"); ("v", VInt 3)]]).
  - discriminate.
  - repeat constructor; eexists; reflexivity.
  - repeat constructor; eexists; eexists; (split; [reflexivity | split; reflexivity]).
Defined.

(** X26. Sorting twice is sorting once: on rows whose sort keys can be
    compared, with at least one key, the output of [ExternalSort] sorted again
    with the same keys and the same order is that output. *)
Theorem ExternalSort_idempotent (keys : list string) (reverse : bool) (rows : list row) :
  keys <> [] ->
  mutually_comparable keys rows ->
  exists out,
    ExternalSort_call keys reverse rows = Ok out
    /\ ExternalSort_call keys reverse out = Ok out.
Proof.
  intros Hkeys Hcmp.
  destruct (itemgetter_Ok keys Hkeys) as [key Hkey].
  assert (Hsk : forall r, sort_key_of keys r = key r).
  { intros r. unfold sort_key_of. rewrite Hkey. reflexivity. }
  set (skey := fun r => match key r with Ok k => k | Err _ => KItem VNone end).
  assert (key_Ok : forall r, r ∈ rows -> key r = Ok (skey r)).
  { intros r Hr. destruct (Hcmp r r Hr Hr) as (k1 & _ & _ & H1 & _).
    rewrite Hsk in H1. unfold skey. rewrite H1. reflexivity. }
  assert (key_cmp : forall r1 r2, r1 ∈ rows -> r2 ∈ rows ->
                    exists b, sort_key_lt (skey r1) (skey r2) = Ok b).
  { intros r1 r2 H1 H2. destruct (Hcmp r1 r2 H1 H2) as (k1 & k2 & b & E1 & E2 & Hb).
    rewrite Hsk, (key_Ok r1 H1) in E1. rewrite Hsk, (key_Ok r2 H2) in E2.
    injection E1 as <-. injection E2 as <-. eauto. }
  destruct (list_sort_sorts key skey rows key_Ok key_cmp reverse)
    as (out & Hsort & Hperm & Hsorted & _).
  exists out. split.
  - unfold ExternalSort_call, do_sort. rewrite recv_rows_sent. cbn [bind].
    rewrite Hkey. cbn [bind]. rewrite Hsort. cbn [bind].
    rewrite recv_rows_sent. cbn [bind].
    rewrite (Permutation_length Hperm), Nat.eqb_refl. reflexivity.
  - apply ExternalSort_call_sorted; [assumption| |].
    + apply Forall_forall. intros r Hr. rewrite <- Hperm in Hr.
      exists (skey r). rewrite Hsk. apply key_Ok. assumption.
    + eapply StronglySorted_impl_in; [|exact Hsorted].
      intros x y Hx Hy H. rewrite <- Hperm in Hx, Hy.
      exists (skey x), (skey y). rewrite !Hsk, (key_Ok x Hx), (key_Ok y Hy). auto.
Qed.

Lemma ExternalSort_idempotent_witness :
  exists out,
    ExternalSort_call ["k"] false [[("k", VInt 3)]; [("k", VInt 1)]; [("k", VInt 2)]] = Ok out
    /\ ExternalSort_call ["k"] false out = Ok out.
Proof.
  apply (ExternalSort_idempotent ["k"] false
           [[("k", VInt 3)]; [("k", VInt 1)]; [("k", VInt 2)]]).
  - discriminate.
  - apply mutually_comparable_Forall.
    repeat constructor; eexists; eexists; eexists;
      (split; [reflexivity | split; reflexivity]).
Defined.

(** ** Graphs built with the builders *)

Lemma built_heap (h : Graph.heap) (op : option Operation) (ins : list Graph.ref) :
  Graph.set_input (length h) ins
    (Graph.set_operation (length h) op (h ++ [Graph.mk [length h] None]))
  = h ++ [Graph.mk ins op].
Proof.
  unfold Graph.set_input, Graph.set_operation. apply list_eq. intros j.
  destruct (decide (j = length h)) as [->|Hne].
  - rewrite !list_lookup_alter_eq, !list_lookup_middle by reflexivity. reflexivity.
  - rewrite !list_lookup_alter_ne by congruence.
    destruct (decide (j < length h)) as [Hlt|Hge].
    + rewrite !lookup_app_l by assumption. reflexivity.
    + rewrite !lookup_ge_None_2; [reflexivity | |]; rewrite length_app; simpl; lia.
Qed.

Lemma builders_heap (h : Graph.heap) (self join_graph : Graph.ref) (mapper : Mapper)
  (reducer : Reducer) (joiner : Joiner) (keys : list string) (reverse : bool)
  (name filename : string) (parser : string -> row) :
  Graph.map self mapper h = (h ++ [Graph.mk [self] (Some (Map mapper))], length h)
  /\ Graph.reduce self reducer keys h
     = (h ++ [Graph.mk [self] (Some (Reduce reducer keys))], length h)
  /\ Graph.sort self keys reverse h
     = (h ++ [Graph.mk [self] (Some (ExternalSort keys reverse))], length h)
  /\ Graph.join self joiner join_graph keys h
     = (h ++ [Graph.mk [self; join_graph] (Some (Join joiner keys))], length h)
  /\ Graph.graph_from_iter name h
     = (h ++ [Graph.mk [] (Some (ReadIterFactory name))], length h)
  /\ Graph.graph_from_file filename parser h
     = (h ++ [Graph.mk [] (Some (Read filename parser))], length h).
Proof.
  unfold Graph.map, Graph.reduce, Graph.sort, Graph.join, Graph.graph_from_iter,
    Graph.graph_from_file, Graph.init.
  rewrite !built_heap. repeat split.
Qed.

Lemma well_formed_snoc (h : Graph.heap) (op : option Operation) (ins : list Graph.ref) :
  well_formed h -> Forall (fun i => i < length h) ins ->
  well_formed (h ++ [Graph.mk ins op]).
Proof.
  intros Hwf Hins r g Hg Hop.
  destruct (decide (r < length h)) as [Hlt|Hge].
  - rewrite lookup_app_l in Hg by assumption. exact (Hwf r g Hg Hop).
  - assert (Hr : r = length h).
    { apply lookup_lt_Some in Hg. rewrite length_app in Hg. simpl in Hg. lia. }
    subst r. rewrite list_lookup_middle in Hg by reflexivity. injection Hg as <-.
    exact Hins.
Qed.

Lemma run_S (depth : nat) (h : Graph.heap) (i : inputs) (self : Graph.ref) :
  Graph.run (S depth) h i self
  = match h !! self with
    | None => ([], Raised BadCall)
    | Some g =>
        match Graph._input g with
        | [] => ([self], call_source (Graph._operation g) i)
        | input0 :: others =>
            match Graph._operation g with
            | Some op =>
                let '(trace0, out0) := Graph.run depth h i input0 in
                match out0 with
                | Raised e => (self :: trace0, Raised e)
                | Stream stream =>
                    match others with
                    | [] => (self :: trace0, call_unary op stream)
                    | input1 :: _ =>
                        let '(trace1, out1) := Graph.run depth h i input1 in
                        match out1 with
                        | Raised e => (self :: trace0 ++ trace1, Raised e)
                        | Stream second =>
                            (self :: trace0 ++ trace1, call_binary op stream second)
                        end
                    end
                end
            | None => ([self], Raised NoGenerator)
            end
        end
    end.
Proof. reflexivity. Qed.

Lemma run_frame (h ext : Graph.heap) (i : inputs) :
  well_formed h ->
  forall depth self, self < length h ->
  Graph.run depth (h ++ ext) i self = Graph.run depth h i self.
Proof.
  intros Hwf. induction depth as [|depth IH]; intros self Hlt; [reflexivity|].
  rewrite !run_S, lookup_app_l by assumption. unfold Graph.ref in *.
  destruct (h !! self) as [g|] eqn:Hg; [|reflexivity].
  destruct (Graph._input g) as [|input0 others] eqn:Hin; [reflexivity|].
  destruct (Graph._operation g) as [op|] eqn:Hop; [|reflexivity].
  assert (Hbelow : Forall (fun r => r < self) (input0 :: others)).
  { rewrite <- Hin. apply (Hwf self g Hg). rewrite Hop. discriminate. }
  apply Forall_cons in Hbelow as [H0 Hothers].
  rewrite (IH input0) by lia.
  destruct (Graph.run depth h i input0) as [trace0 [e|stream]]; [reflexivity|].
  destruct others as [|input1 others]; [reflexivity|].
  apply Forall_cons in Hothers as [H1 _].
  rewrite (IH input1) by lia. reflexivity.
Qed.

Lemma run_one_more (h : Graph.heap) (i : inputs) :
  well_formed h ->
  forall depth self, self < depth ->
  Graph.run (S depth) h i self = Graph.run depth h i self.
Proof.
  intros Hwf. induction depth as [|depth IH]; intros self Hlt; [lia|].
  rewrite (run_S (S depth)), (run_S depth). unfold Graph.ref in *.
  destruct (h !! self) as [g|] eqn:Hg; [|reflexivity].
  destruct (Graph._input g) as [|input0 others] eqn:Hin; [reflexivity|].
  destruct (Graph._operation g) as [op|] eqn:Hop; [|reflexivity].
  assert (Hbelow : Forall (fun r => r < self) (input0 :: others)).
  { rewrite <- Hin. apply (Hwf self g Hg). rewrite Hop. discriminate. }
  apply Forall_cons in Hbelow as [H0 Hothers].
  rewrite (IH input0) by lia.
  destruct (Graph.run depth h i input0) as [trace0 [e|stream]]; [reflexivity|].
  destruct others as [|input1 others]; [reflexivity|].
  apply Forall_cons in Hothers as [H1 _].
  rewrite (IH input1) by lia. reflexivity.
Qed.

Lemma run_enough_depth (h : Graph.heap) (i : inputs) (self : Graph.ref) :
  well_formed h ->
  forall extra, Graph.run (S self + extra) h i self = Graph.run (S self) h i self.
Proof.
  intros Hwf. induction extra as [|extra IH]; [rewrite Nat.add_0_r; reflexivity|].
  rewrite <- IH. replace (S self + S extra) with (S (S self + extra)) by lia.
  apply run_one_more; [assumption | lia].
Qed.

Lemma run_no_RecursionError (h : Graph.heap) (i : inputs) :
  well_formed h ->
  forall depth self, self < depth ->
  snd (Graph.run depth h i self) <> Raised RecursionError.
Proof.
  intros Hwf. induction depth as [|depth IH]; intros self Hlt; [lia|].
  rewrite run_S. unfold Graph.ref in *.
  destruct (h !! self) as [g|] eqn:Hg; [|discriminate].
  destruct (Graph._input g) as [|input0 others] eqn:Hin.
  { destruct (Graph._operation g) as [[]|]; discriminate. }
  destruct (Graph._operation g) as [op|] eqn:Hop; [|discriminate].
  assert (Hbelow : Forall (fun r => r < self) (input0 :: others)).
  { rewrite <- Hin. apply (Hwf self g Hg). rewrite Hop. discriminate. }
  apply Forall_cons in Hbelow as [H0 Hothers].
  pose proof (IH input0 ltac:(lia)) as R0.
  destruct (Graph.run depth h i input0) as [trace0 [e|stream]]; [exact R0|].
  destruct others as [|input1 others].
  { destruct op; discriminate. }
  apply Forall_cons in Hothers as [H1 _].
  pose proof (IH input1 ltac:(lia)) as R1.
  destruct (Graph.run depth h i input1) as [trace1 [e|second]]; [exact R1|].
  destruct op; discriminate.
Qed.

(** X27. The builders keep a graph free of cycles.  In a heap where
    every node with an operation has its inputs among the nodes allocated
    before it, each of the four builders and the two source constructors
    returns a heap with the same property: the new node reads from nodes that
    existed before it, and the only node that is its own input is a bare
    [Graph()], which has no operation. *)
Theorem builders_keep_inputs_older (h : Graph.heap) (self join_graph : Graph.ref)
  (mapper : Mapper) (reducer : Reducer) (joiner : Joiner) (keys : list string)
  (reverse : bool) (name filename : string) (parser : string -> row) :
  well_formed h ->
  self < length h ->
  join_graph < length h ->
  well_formed (fst (Graph.map self mapper h))
  /\ well_formed (fst (Graph.reduce self reducer keys h))
  /\ well_formed (fst (Graph.sort self keys reverse h))
  /\ well_formed (fst (Graph.join self joiner join_graph keys h))
  /\ well_formed (fst (Graph.graph_from_iter name h))
  /\ well_formed (fst (Graph.graph_from_file filename parser h)).
Proof.
  intros Hwf Hself Hjoin.
  destruct (builders_heap h self join_graph mapper reducer joiner keys reverse
              name filename parser) as (-> & -> & -> & -> & -> & ->).
  cbn [fst]. repeat split; apply well_formed_snoc; try assumption; repeat constructor;
    assumption.
Qed.

Lemma builders_keep_inputs_older_witness :
  let h := [Graph.mk [] (Some (ReadIterFactory "docs"))] in
  well_formed (fst (Graph.map 0 DummyMapper h))
  /\ well_formed (fst (Graph.reduce 0 (Count "n") ["k"] h))
  /\ well_formed (fst (Graph.sort 0 ["k"] false h))
  /\ well_formed (fst (Graph.join 0 (default_joiner InnerJoiner) 0 ["k"] h))
  /\ well_formed (fst (Graph.graph_from_iter "other" h))
  /\ well_formed (fst (Graph.graph_from_file "f" (fun _ => []) h)).
Proof.
  apply (builders_keep_inputs_older [Graph.mk [] (Some (ReadIterFactory "docs"))] 0 0
           DummyMapper (Count "n") (default_joiner InnerJoiner) ["k"] false "other" "f"
           (fun _ => [])).
  - apply (well_formed_snoc [] (Some (ReadIterFactory "docs")) []).
    + intros r g Hg. discriminate.
    + constructor.
  - simpl. lia.
  - simpl. lia.
Defined.

(** X28. Building on a graph does not change what its nodes compute: in
    a heap whose inputs are older than their nodes, [run] on a node that
    existed before a builder was called gives, in the heap the builder
    returns, the trace and the outcome it gave before. *)
Theorem building_leaves_runs_unchanged (h : Graph.heap) (self join_graph r : Graph.ref)
  (mapper : Mapper) (reducer : Reducer) (joiner : Joiner) (keys : list string)
  (reverse : bool) (name filename : string) (parser : string -> row)
  (depth : nat) (i : inputs) :
  well_formed h ->
  r < length h ->
  Graph.run depth (fst (Graph.map self mapper h)) i r = Graph.run depth h i r
  /\ Graph.run depth (fst (Graph.reduce self reducer keys h)) i r = Graph.run depth h i r
  /\ Graph.run depth (fst (Graph.sort self keys reverse h)) i r = Graph.run depth h i r
  /\ Graph.run depth (fst (Graph.join self joiner join_graph keys h)) i r
     = Graph.run depth h i r
  /\ Graph.run depth (fst (Graph.graph_from_iter name h)) i r = Graph.run depth h i r
  /\ Graph.run depth (fst (Graph.graph_from_file filename parser h)) i r
     = Graph.run depth h i r.
Proof.
  intros Hwf Hr.
  destruct (builders_heap h self join_graph mapper reducer joiner keys reverse
              name filename parser) as (-> & -> & -> & -> & -> & ->).
  cbn [fst]. repeat split; apply run_frame; assumption.
Qed.

Lemma building_leaves_runs_unchanged_witness :
  let h := [Graph.mk [] (Some (ReadIterFactory "docs"))] in
  let i := mkInputs [("docs", [[("k", VInt 1)]])] [] in
  Graph.run 5 (fst (Graph.map 0 DummyMapper h)) i 0 = Graph.run 5 h i 0
  /\ Graph.run 5 (fst (Graph.reduce 0 (Count "n") ["k"] h)) i 0 = Graph.run 5 h i 0
  /\ Graph.run 5 (fst (Graph.sort 0 ["k"] false h)) i 0 = Graph.run 5 h i 0
  /\ Graph.run 5 (fst (Graph.join 0 (default_joiner InnerJoiner) 0 ["k"] h)) i 0
     = Graph.run 5 h i 0
  /\ Graph.run 5 (fst (Graph.graph_from_iter "other" h)) i 0 = Graph.run 5 h i 0
  /\ Graph.run 5 (fst (Graph.graph_from_file "f" (fun _ => []) h)) i 0
     = Graph.run 5 h i 0.
Proof.
  apply (building_leaves_runs_unchanged [Graph.mk [] (Some (ReadIterFactory "docs"))] 0 0 0
           DummyMapper (Count "n") (default_joiner InnerJoiner) ["k"] false "other" "f"
           (fun _ => []) 5 (mkInputs [("docs", [[("k", VInt 1)]])] [])).
  - apply (well_formed_snoc [] (Some (ReadIterFactory "docs")) []).
    + intros r g Hg. discriminate.
    + constructor.
  - simpl. lia.
Defined.

(** X29. On a graph whose inputs are older than their nodes, [run]
    needs no more nested calls than there are nodes up to the one it is called
    on: with that many allowed, it never ends in a [RecursionError], and
    allowing more changes neither the trace nor the outcome. *)
Theorem run_needs_bounded_depth (h : Graph.heap) (i : inputs) (self : Graph.ref)
  (depth : nat) :
  well_formed h ->
  self < depth ->
  Graph.run depth h i self = Graph.run (S self) h i self
  /\ snd (Graph.run depth h i self) <> Raised RecursionError.
Proof.
  intros Hwf Hlt. split.
  - replace depth with (S self + (depth - S self)) by lia.
    apply run_enough_depth. assumption.
  - apply run_no_RecursionError; assumption.
Qed.

Lemma run_needs_bounded_depth_witness :
  let h := fst (Graph.sort 0 ["k"] false [Graph.mk [] (Some (ReadIterFactory "docs"))]) in
  let i := mkInputs [("docs", [[("k", VInt 2)]; [("k", VInt 1)]])] [] in
  Graph.run 7 h i 1 = Graph.run 2 h i 1
  /\ snd (Graph.run 7 h i 1) <> Raised RecursionError.
Proof.
  apply (run_needs_bounded_depth
           (fst (Graph.sort 0 ["k"] false [Graph.mk [] (Some (ReadIterFactory "docs"))]))
           (mkInputs [("docs", [[("k", VInt 2)]; [("k", VInt 1)]])] []) 1 7).
  - apply (well_formed_snoc [Graph.mk [] (Some (ReadIterFactory "docs"))]
             (Some (ExternalSort ["k"] false)) [0]).
    + apply (well_formed_snoc [] (Some (ReadIterFactory "docs")) []).
      * intros r g Hg. discriminate.
      * constructor.
    + repeat constructor.
  - lia.
Defined.

Lemma run_new_unary (h : Graph.heap) (self : Graph.ref) (op : Operation)
  (depth : nat) (i : inputs) :
  well_formed h -> self < length h ->
  snd (Graph.run (S depth) (h ++ [Graph.mk [self] (Some op)]) i (length h))
  = then_call (snd (Graph.run depth h i self)) (call_unary op).
Proof.
  intros Hwf Hself. rewrite run_S, list_lookup_middle by reflexivity.
  cbn [Graph._input Graph._operation]. rewrite run_frame by assumption.
  destruct (Graph.run depth h i self) as [trace0 [e|stream]]; reflexivity.
Qed.

Lemma run_new_binary (h : Graph.heap) (self join_graph : Graph.ref) (op : Operation)
  (depth : nat) (i : inputs) :
  well_formed h -> self < length h -> join_graph < length h ->
  snd (Graph.run (S depth) (h ++ [Graph.mk [self; join_graph] (Some op)]) i (length h))
  = then_call (snd (Graph.run depth h i self))
      (fun stream =>
         then_call (snd (Graph.run depth h i join_graph)) (call_binary op stream)).
Proof.
  intros Hwf Hself Hjoin. rewrite run_S, list_lookup_middle by reflexivity.
  cbn [Graph._input Graph._operation]. rewrite !run_frame by assumption.
  destruct (Graph.run depth h i self) as [trace0 [e|stream]]; [reflexivity|].
  destruct (Graph.run depth h i join_graph) as [trace1 [e|second]]; reflexivity.
Qed.

(** X30. What [run] returns on a node a builder made is the operation
    of the node applied to what [run] returns on the receiver - and, for a
    join, on the other graph.  When [run] on the receiver raises, the new node
    raises the same exception; for a join the other graph is run only after
    the receiver, and its exception is raised when the receiver had none. *)
Theorem run_of_a_built_node (h : Graph.heap) (self join_graph : Graph.ref)
  (mapper : Mapper) (reducer : Reducer) (joiner : Joiner) (keys : list string)
  (reverse : bool) (depth : nat) (i : inputs) :
  well_formed h ->
  self < length h ->
  join_graph < length h ->
  snd (Graph.run (S depth) (fst (Graph.map self mapper h)) i
         (snd (Graph.map self mapper h)))
  = then_call (snd (Graph.run depth h i self))
      (fun stream => Stream (let! rows := stream in Map_call mapper rows))
  /\ snd (Graph.run (S depth) (fst (Graph.reduce self reducer keys h)) i
            (snd (Graph.reduce self reducer keys h)))
     = then_call (snd (Graph.run depth h i self))
         (fun stream => Stream (let! rows := stream in Reduce_call reducer keys rows))
  /\ snd (Graph.run (S depth) (fst (Graph.sort self keys reverse h)) i
            (snd (Graph.sort self keys reverse h)))
     = then_call (snd (Graph.run depth h i self))
         (fun stream => Stream (let! rows := stream in ExternalSort_call keys reverse rows))
  /\ snd (Graph.run (S depth) (fst (Graph.join self joiner join_graph keys h)) i
            (snd (Graph.join self joiner join_graph keys h)))
     = then_call (snd (Graph.run depth h i self))
         (fun stream =>
            then_call (snd (Graph.run depth h i join_graph))
              (fun second =>
                 Stream (let! rows := stream in let! rows_second := second in
                         Join_call joiner keys rows rows_second))).
Proof.
  intros Hwf Hself Hjoin.
  destruct (builders_heap h self join_graph mapper reducer joiner keys reverse
              EmptyString EmptyString (fun _ => [])) as (-> & -> & -> & -> & _).
  cbn [fst snd]. split; [|split; [|split]].
  - apply (run_new_unary h self (Map mapper)); assumption.
  - apply (run_new_unary h self (Reduce reducer keys)); assumption.
  - apply (run_new_unary h self (ExternalSort keys reverse)); assumption.
  - apply (run_new_binary h self join_graph (Join joiner keys)); assumption.
Qed.

Lemma run_of_a_built_node_witness :
  let h := [Graph.mk [] (Some (ReadIterFactory "docs"))] in
  let i := mkInputs [("docs", [[("k", VInt 2)]; [("k", VInt 1)]])] [] in
  snd (Graph.run 2 (fst (Graph.map 0 DummyMapper h)) i (snd (Graph.map 0 DummyMapper h)))
  = then_call (snd (Graph.run 1 h i 0))
      (fun stream => Stream (let! rows := stream in Map_call DummyMapper rows))
  /\ snd (Graph.run 2 (fst (Graph.reduce 0 (Count "n") ["k"] h)) i
            (snd (Graph.reduce 0 (Count "n") ["k"] h)))
     = then_call (snd (Graph.run 1 h i 0))
         (fun stream => Stream (let! rows := stream in Reduce_call (Count "n") ["k"] rows))
  /\ snd (Graph.run 2 (fst (Graph.sort 0 ["k"] false h)) i
            (snd (Graph.sort 0 ["k"] false h)))
     = then_call (snd (Graph.run 1 h i 0))
         (fun stream => Stream (let! rows := stream in ExternalSort_call ["k"] false rows))
  /\ snd (Graph.run 2 (fst (Graph.join 0 (default_joiner InnerJoiner) 0 ["k"] h)) i
            (snd (Graph.join 0 (default_joiner InnerJoiner) 0 ["k"] h)))
     = then_call (snd (Graph.run 1 h i 0))
         (fun stream =>
            then_call (snd (Graph.run 1 h i 0))
              (fun second =>
                 Stream (let! rows := stream in let! rows_second := second in
                         Join_call (default_joiner InnerJoiner) ["k"] rows rows_second))).
Proof.
  apply (run_of_a_built_node [Graph.mk [] (Some (ReadIterFactory "docs"))] 0 0
           DummyMapper (Count "n") (default_joiner InnerJoiner) ["k"] false 1
           (mkInputs [("docs", [[("k", VInt 2)]; [("k", VInt 1)]])] [])).
  - apply (well_formed_snoc [] (Some (ReadIterFactory "docs")) []).
    + intros r g Hg. discriminate.
    + constructor.
  - simpl. lia.
  - simpl. lia.
Defined.
